(** * Cycling workout data: loader and validator

    A shallow embedding of [src/types.ts], [src/validators.ts] and
    [src/dataLoader.ts], and the properties of the specification that are
    settled on it.

    Conventions of the embedding.
    - A JavaScript [number] is an IEEE 754 binary64 value: Rocq's primitive
      [float], compared with [PrimFloat.ltb], [PrimFloat.leb] and
      [PrimFloat.eqb] (so [NaN] compares false with everything, itself
      included) and added with [PrimFloat.add].
    - A JavaScript string is a [string]: a sequence of 8-bit code units.
    - A value of type [unknown] is a [JsValue]; an object is the association
      list of its own properties, read by [getProp].
    - A function that may throw returns an [outcome].
    - What the program takes from its platform and is no code of the
      repository (number formatting in template literals, the URL parser,
      the JSON parser) is a field of the class [Platform]; the file system
      and the network are explicit arguments. *)

From Stdlib Require Import Bool List String Ascii ZArith Lia Floats DecimalString.
Import ListNotations.

Set Implicit Arguments.
Set Warnings "-register-all".

Local Open Scope string_scope.
Local Open Scope list_scope.

(* ================================================================= *)
(** ** JavaScript values *)

Module Js.

Inductive JsValue : Type :=
| JUndefined
| JNull
| JBool (b : bool)
| JNum (n : float)
| JStr (s : string)
| JArr (items : list JsValue)
| JObj (props : list (string * JsValue)).

(** [typeof v] for the values above. *)
Definition typeof (v : JsValue) : string :=
  match v with
  | JUndefined => "undefined"
  | JNull => "object"
  | JBool _ => "boolean"
  | JNum _ => "number"
  | JStr _ => "string"
  | JArr _ => "object"
  | JObj _ => "object"
  end.

Fixpoint lookup (k : string) (props : list (string * JsValue)) : JsValue :=
  match props with
  | [] => JUndefined
  | (k', v) :: rest => if String.eqb k k' then v else lookup k rest
  end.

(** [v.k] for a [v] that is neither [null] nor [undefined], and a name [k]
    that is no array index and not [length] (the program reads only the
    field names of its records): an own property of an object, and
    [undefined] everywhere else. *)
Definition getProp (v : JsValue) (k : string) : JsValue :=
  match v with
  | JObj props => lookup k props
  | _ => JUndefined
  end.

(** [v.k = x] on an object. *)
Fixpoint assign (k : string) (x : JsValue) (props : list (string * JsValue))
  : list (string * JsValue) :=
  match props with
  | [] => [(k, x)]
  | (k', v) :: rest =>
      if String.eqb k k' then (k', x) :: rest else (k', v) :: assign k x rest
  end.

Definition setProp (v : JsValue) (k : string) (x : JsValue) : JsValue :=
  match v with
  | JObj props => JObj (assign k x props)
  | _ => v
  end.

(** [typeof v !== "object" || v === null] *)
Definition notAnObject (v : JsValue) : bool :=
  negb (String.eqb (typeof v) "object")
  || match v with JNull => true | _ => false end.

(** Reading a property of [null] or [undefined] throws a [TypeError]. *)
Definition nullish (v : JsValue) : bool :=
  match v with
  | JNull | JUndefined => true
  | _ => false
  end.

End Js.
Import Js.

(* ================================================================= *)
(** ** Strings *)

Module Str.

(** A template literal: the concatenation of its parts. *)
Definition cat (parts : list string) : string := String.concat "" parts.

(** White space and line terminators below code unit 256. *)
Definition isWhiteSpace (c : ascii) : bool :=
  let n := nat_of_ascii c in
  (((9 <=? n) && (n <=? 13)) || (n =? 32) || (n =? 160))%nat.

Fixpoint trimStart (s : string) : string :=
  match s with
  | EmptyString => EmptyString
  | String c rest => if isWhiteSpace c then trimStart rest else s
  end.

Fixpoint rev (s : string) : string :=
  match s with
  | EmptyString => EmptyString
  | String c rest => rev rest ++ String c EmptyString
  end.

Definition trimEnd (s : string) : string := rev (trimStart (rev s)).

Definition trim (s : string) : string := trimEnd (trimStart s).

Definition lowerChar (c : ascii) : ascii :=
  let n := nat_of_ascii c in
  if (((65 <=? n) && (n <=? 90))
      || ((192 <=? n) && (n <=? 222) && negb (n =? 215)))%nat
  then ascii_of_nat (n + 32) else c.

Fixpoint toLowerCase (s : string) : string :=
  match s with
  | EmptyString => EmptyString
  | String c rest => String (lowerChar c) (toLowerCase rest)
  end.

Definition endsWith (s suffix : string) : bool :=
  (String.length suffix <=? String.length s)%nat
  && String.eqb
       (substring (String.length s - String.length suffix)
                  (String.length suffix) s)
       suffix.

(** [arr.includes(x)] on an array of strings. *)
Definition includes (arr : list string) (x : string) : bool :=
  existsb (String.eqb x) arr.

(** [arr.join(sep)] *)
Definition join (sep : string) (arr : list string) : string :=
  String.concat sep arr.

(** The decimal digits of an integer, as a template literal prints an
    integer-valued number of magnitude below 10^21. *)
Definition showInt (z : Z) : string :=
  NilZero.string_of_int (Z.to_int z).

End Str.
Import Str.

(* ================================================================= *)
(** ** The platform *)

Record URL : Type := mkURL { protocol : string; hostname : string }.

(** A function that returns or throws. *)
Inductive outcome (E A : Type) : Type :=
| Returned (a : A)
| Thrown (e : E).
Arguments Returned {E A} a.
Arguments Thrown {E A} e.

Definition bind {E A B} (m : outcome E A) (k : A -> outcome E B) : outcome E B :=
  match m with
  | Returned a => k a
  | Thrown e => Thrown e
  end.

Notation "x <- m ;; k" := (bind m (fun x => k))
  (at level 61, m at next level, right associativity).

Class Platform : Type := {
  (** [ToString] of a number, as a template literal applies it. *)
  showNum : float -> string;
  (** [new URL(s)]: [None] when the constructor throws. *)
  parseURL : string -> option URL;
  (** [JSON.parse(s)]: the value, or the message of the [SyntaxError]. *)
  JSON_parse : string -> outcome string JsValue
}.

(** [Number.isFinite] on a number. *)
Definition isFinite (x : float) : bool := PrimFloat.is_finite x.

(* ================================================================= *)
(** ** types.ts *)

Record Workout : Type := mkWorkout {
  wTitle : string;
  wImage : string;
  Workout_URL : string
}.

Record Video : Type := mkVideo {
  vTitle : string;
  Subtitle : string;
  vImage : string;
  vVideo : string
}.

Record WorkoutSegment : Type := mkSegment {
  Time : float;
  Activity : string;
  Resistance : float;
  Cadence : float;
  Stroke_instruction : string;
  Elapsed_Time : float
}.

Definition WorkoutDetails : Type := list WorkoutSegment.

(** The object a typed segment is at run time. *)
Definition segmentObject (s : WorkoutSegment) : JsValue :=
  JObj [ ("Time", JNum (Time s));
         ("Activity", JStr (Activity s));
         ("Resistance", JNum (Resistance s));
         ("Cadence", JNum (Cadence s));
         ("Stroke instruction", JStr (Stroke_instruction s));
         ("Elapsed Time", JNum (Elapsed_Time s)) ].

Record DataLoadError : Type := mkLoadError {
  leMessage : string;
  filePath : string;
  leCause : option string
}.

(** Anything the fetch loop can catch: a [NetworkError] of the program, or
    another error (of the transport, of a timeout's abort, of reading the
    body), which has only its message. *)
Inductive JsError : Type :=
| OtherError (message : string)
| NetworkError (message : string) (url : string)
               (statusCode : option Z) (cause : option JsError).

Definition errMessage (e : JsError) : string :=
  match e with
  | OtherError m => m
  | NetworkError m _ _ _ => m
  end.

Record ValidationResult : Type := mkResult {
  valid : bool;
  errors : list string;
  warnings : list string
}.

(** The mutations of a result object, in state-passing style. *)
Definition newResult : ValidationResult := mkResult true [] [].

Definition setInvalid (r : ValidationResult) : ValidationResult :=
  mkResult false (errors r) (warnings r).

Definition pushErrors (ms : list string) (r : ValidationResult) : ValidationResult :=
  mkResult (valid r) (errors r ++ ms) (warnings r).

Definition pushWarnings (ms : list string) (r : ValidationResult) : ValidationResult :=
  mkResult (valid r) (errors r) (warnings r ++ ms).

Definition pushError (m : string) := pushErrors [m].
Definition pushWarning (m : string) := pushWarnings [m].

(** [result.valid = false; result.errors.push(m)] *)
Definition fail (m : string) (r : ValidationResult) : ValidationResult :=
  pushError m (setInvalid r).

(* ================================================================= *)
(** ** validators.ts *)

Definition VALID_ACTIVITIES : list string :=
  [ "Warm-up"; "Intervals"; "Recovery"; "Cool-down"; "Bonus Interval";
    "Standing Jog"; "Satnding Jog"; "Winding Streets"; "Seated Climb";
    "Sprint"; "Hill Climb"; "Endurance" ].

Module CONSTRAINTS.
Definition minResistance : float := 1.
Definition maxResistance : float := 20.
Definition minCadence : float := 30.
Definition maxCadence : float := 150.
Definition minTime : float := 1.
Definition maxTime : float := 60.
Definition maxElapsedTime : float := 120.
End CONSTRAINTS.

Section Validators.

Context {P : Platform}.

(** *** validateUrl *)

Definition domainAllowed (domain : string) (allowedDomains : list string) : bool :=
  existsb
    (fun allowed =>
       String.eqb domain (toLowerCase allowed)
       || endsWith domain (cat ["."; toLowerCase allowed]))
    allowedDomains.

Definition validateUrl (url : string) (allowedDomains : option (list string))
  : ValidationResult :=
  let result := newResult in
  if String.eqb url "" || String.eqb (trim url) "" then
    fail "URL is empty" result
  else
    match parseURL url with
    | None => fail (cat ["Invalid URL format: "; url]) result
    | Some parsedUrl =>
        if negb (includes ["http:"; "https:"] (protocol parsedUrl)) then
          fail (cat ["Invalid protocol: "; protocol parsedUrl;
                     " (expected http or https)"]) result
        else
          let result :=
            if String.eqb (protocol parsedUrl) "http:"
            then pushWarning "URL uses insecure HTTP protocol" result
            else result in
          match allowedDomains with
          | Some ((_ :: _) as allowedDomains) =>
              let domain := toLowerCase (hostname parsedUrl) in
              let isAllowed := domainAllowed domain allowedDomains in
              if negb isAllowed then
                fail (cat ["Domain '"; domain; "' is not in allowed list: ";
                           join ", " allowedDomains]) result
              else result
          | _ => result
          end
    end.

(** *** validateWorkout and validateVideo *)

Definition prefixed (p : string) (ms : list string) : list string :=
  map (fun m => cat [p; m]) ms.

(** The [Title] check shared by workouts and videos. *)
Definition checkTitle (o : JsValue) (result : ValidationResult) : ValidationResult :=
  match getProp o "Title" with
  | JStr t =>
      if String.eqb (trim t) "" then fail "Title cannot be empty" result
      else result
  | other => fail (cat ["Title must be a string, got "; typeof other]) result
  end.

(** A field that must hold a URL of one of [domains]; [label] prefixes the
    messages of [validateUrl], and [extra] is what the branch of a string
    does besides. *)
Definition checkUrlField (o : JsValue) (field label : string)
           (domains : list string)
           (extra : string -> ValidationResult -> ValidationResult)
           (result : ValidationResult) : ValidationResult :=
  match getProp o field with
  | JStr u =>
      let urlResult := validateUrl u (Some domains) in
      let result :=
        if negb (valid urlResult)
        then pushErrors (prefixed label (errors urlResult)) (setInvalid result)
        else result in
      let result := pushWarnings (prefixed label (warnings urlResult)) result in
      extra u result
  | other => fail (cat [field; " must be a string, got "; typeof other]) result
  end.

Definition validateWorkout (workout : JsValue) : ValidationResult :=
  let result := newResult in
  if notAnObject workout then
    fail (cat ["Workout must be an object, got "; typeof workout]) result
  else
    let result := checkTitle workout result in
    let result :=
      checkUrlField workout "Image" "Image URL: "
        ["amazonaws.com"; "github.com"; "githubusercontent.com"]
        (fun _ r => r) result in
    let result :=
      checkUrlField workout "Workout_URL" "Workout_URL: "
        ["github.com"; "githubusercontent.com"; "raw.githubusercontent.com"]
        (fun u r =>
           if negb (String.eqb u "") && negb (endsWith (toLowerCase u) ".json")
           then pushWarning "Workout_URL does not end with .json extension" r
           else r)
        result in
    result.

Definition videoExtensions : list string := [".mp4"; ".webm"; ".mov"; ".avi"].

Definition validateVideo (video : JsValue) : ValidationResult :=
  let result := newResult in
  if notAnObject video then
    fail (cat ["Video must be an object, got "; typeof video]) result
  else
    let result := checkTitle video result in
    let result :=
      match getProp video "Subtitle" with
      | JStr _ => result
      | other => fail (cat ["Subtitle must be a string, got "; typeof other]) result
      end in
    let result :=
      checkUrlField video "Image" "Image URL: "
        ["amazonaws.com"; "github.com"; "githubusercontent.com"]
        (fun _ r => r) result in
    let result :=
      checkUrlField video "Video" "Video URL: "
        ["amazonaws.com"]
        (fun u r =>
           let hasVideoExt :=
             existsb (fun ext => endsWith (toLowerCase u) ext) videoExtensions in
           if negb hasVideoExt then
             pushWarning
               (cat ["Video URL does not end with a known video extension (";
                     join ", " videoExtensions; ")"]) r
           else r)
        result in
    result.

(** *** validateSegment *)

Section Segment.

Variable segment : JsValue.
Variable index : float.
Variable previousElapsedTime : float.

Definition segLabel : string := cat ["Segment "; showNum index].

Definition checkTime (result : ValidationResult) : ValidationResult :=
  match getProp segment "Time" with
  | JNum t =>
      if negb (isFinite t) then
        fail (cat [segLabel; ": Time must be a finite number"]) result
      else if (t <? CONSTRAINTS.minTime)%float then
        fail (cat [segLabel; ": Time "; showNum t; " is less than minimum ";
                   showNum CONSTRAINTS.minTime]) result
      else if (CONSTRAINTS.maxTime <? t)%float then
        pushWarning
          (cat [segLabel; ": Time "; showNum t; " exceeds typical maximum ";
                showNum CONSTRAINTS.maxTime]) result
      else result
  | other =>
      fail (cat [segLabel; ": Time must be a number, got "; typeof other]) result
  end.

Definition checkActivity (result : ValidationResult) : ValidationResult :=
  match getProp segment "Activity" with
  | JStr a =>
      if String.eqb (trim a) "" then
        fail (cat [segLabel; ": Activity cannot be empty"]) result
      else if negb (includes VALID_ACTIVITIES a) then
        pushWarning
          (cat [segLabel; ": Activity '"; a;
                "' is not a recognized activity type"]) result
      else result
  | other =>
      fail (cat [segLabel; ": Activity must be a string, got "; typeof other])
           result
  end.

Definition resistanceTooLow (r : float) : string :=
  cat [segLabel; ": Resistance "; showNum r; " is less than minimum ";
       showNum CONSTRAINTS.minResistance].

Definition resistanceTooHigh (r : float) : string :=
  cat [segLabel; ": Resistance "; showNum r; " exceeds maximum ";
       showNum CONSTRAINTS.maxResistance].

Definition checkResistance (result : ValidationResult) : ValidationResult :=
  match getProp segment "Resistance" with
  | JNum r =>
      if negb (isFinite r) then
        fail (cat [segLabel; ": Resistance must be a finite number"]) result
      else if (r <? CONSTRAINTS.minResistance)%float then
        fail (resistanceTooLow r) result
      else if (CONSTRAINTS.maxResistance <? r)%float then
        fail (resistanceTooHigh r) result
      else result
  | other =>
      fail (cat [segLabel; ": Resistance must be a number, got "; typeof other])
           result
  end.

Definition checkCadence (result : ValidationResult) : ValidationResult :=
  match getProp segment "Cadence" with
  | JNum c =>
      if negb (isFinite c) then
        fail (cat [segLabel; ": Cadence must be a finite number"]) result
      else if (c <? CONSTRAINTS.minCadence)%float then
        fail (cat [segLabel; ": Cadence "; showNum c; " is less than minimum ";
                   showNum CONSTRAINTS.minCadence]) result
      else if (CONSTRAINTS.maxCadence <? c)%float then
        fail (cat [segLabel; ": Cadence "; showNum c; " exceeds maximum ";
                   showNum CONSTRAINTS.maxCadence]) result
      else result
  | other =>
      fail (cat [segLabel; ": Cadence must be a number, got "; typeof other])
           result
  end.

Definition checkStroke (result : ValidationResult) : ValidationResult :=
  match getProp segment "Stroke instruction" with
  | JStr _ => result
  | other =>
      fail (cat [segLabel; ": Stroke instruction must be a string, got ";
                 typeof other]) result
  end.

Definition elapsedWarning (e : float) : string :=
  cat [segLabel; ": Elapsed Time "; showNum e;
       " exceeds typical workout duration"].

(** The message of the consistency check, for a segment of duration [t]
    and elapsed time [e]. *)
Definition elapsedMismatch (e t : float) : string :=
  cat [segLabel; ": Elapsed Time "; showNum e; " does not match expected ";
       showNum (previousElapsedTime + t)%float; " ";
       "(previous: "; showNum previousElapsedTime; " + current Time: ";
       showNum t; ")"].

Definition elapsedNotFinite : string :=
  cat [segLabel; ": Elapsed Time must be a finite number"].

Definition elapsedNegative (e : float) : string :=
  cat [segLabel; ": Elapsed Time "; showNum e; " cannot be negative"].

Definition checkElapsed (result : ValidationResult) : ValidationResult :=
  match getProp segment "Elapsed Time" with
  | JNum e =>
      if negb (isFinite e) then fail elapsedNotFinite result
      else if (e <? 0)%float then fail (elapsedNegative e) result
      else if (CONSTRAINTS.maxElapsedTime <? e)%float then
        pushWarning (elapsedWarning e) result
      else
        match getProp segment "Time" with
        | JNum t =>
            if isFinite t then
              let expectedElapsed := (previousElapsedTime + t)%float in
              if negb (e =? expectedElapsed)%float then
                fail (elapsedMismatch e t) result
              else result
            else result
        | _ => result
        end
  | other =>
      fail (cat [segLabel; ": Elapsed Time must be a number, got "; typeof other])
           result
  end.

Definition validateSegment : ValidationResult :=
  let result := newResult in
  if notAnObject segment then
    fail (cat [segLabel; " must be an object, got "; typeof segment]) result
  else
    let result := checkTime result in
    let result := checkActivity result in
    let result := checkResistance result in
    let result := checkCadence result in
    let result := checkStroke result in
    let result := checkElapsed result in
    result.

End Segment.

(** *** validateWorkoutDetails *)

(** What the loop adds to the running sum after segment [item]. *)
Definition nextElapsed (item : JsValue) (previousElapsedTime : float) : float :=
  match getProp item "Time" with
  | JNum t => if isFinite t then (previousElapsedTime + t)%float
              else previousElapsedTime
  | _ => previousElapsedTime
  end.

(** Folding one segment's report into the report of the whole. *)
Definition absorb (segmentResult result : ValidationResult) : ValidationResult :=
  let result := if negb (valid segmentResult) then setInvalid result else result in
  let result := pushErrors (errors segmentResult) result in
  pushWarnings (warnings segmentResult) result.

Definition nullProperty : string :=
  "TypeError: Cannot read properties of null or undefined".

(** The [for] loop, from index [i] on; reading [segment.Time] of an element
    that is [null] or [undefined] throws. *)
Fixpoint segmentsLoop (items : list JsValue) (i previousElapsedTime : float)
         (result : ValidationResult) : outcome string ValidationResult :=
  match items with
  | [] => Returned result
  | item :: rest =>
      let segmentResult := validateSegment item i previousElapsedTime in
      let result := absorb segmentResult result in
      if nullish item then Thrown nullProperty
      else
        segmentsLoop rest (i + 1)%float
                     (nextElapsed item previousElapsedTime) result
  end.

Definition checkEnds (items : list JsValue) (result : ValidationResult)
  : ValidationResult :=
  let firstSegment := nth 0 items JUndefined in
  let result :=
    match getProp firstSegment "Activity" with
    | JStr a =>
        if negb (String.eqb a "Warm-up") then
          pushWarning
            (cat ["Workout does not start with a Warm-up (starts with '"; a; "')"])
            result
        else result
    | _ => result
    end in
  let lastSegment := nth (List.length items - 1) items JUndefined in
  match getProp lastSegment "Activity" with
  | JStr a =>
      if negb (String.eqb a "Cool-down") then
        pushWarning
          (cat ["Workout does not end with a Cool-down (ends with '"; a; "')"])
          result
      else result
  | _ => result
  end.

Definition validateWorkoutDetails (workoutDetails : JsValue)
  : outcome string ValidationResult :=
  let result := newResult in
  match workoutDetails with
  | JArr [] => Returned (fail "Workout details array is empty" result)
  | JArr items =>
      result <- segmentsLoop items 0%float 0%float result ;;
      Returned (checkEnds items result)
  | other =>
      Returned
        (fail (cat ["Workout details must be an array, got "; typeof other]) result)
  end.

(** *** validateWorkoutsList and validateVideosList *)

(** The loop of both list validators: [validate] is the validator of an
    element and [kind] the word that starts its messages. *)
Fixpoint itemsLoop (validate : JsValue -> ValidationResult) (kind : string)
         (items : list JsValue) (i : float) (result : ValidationResult)
  : ValidationResult :=
  match items with
  | [] => result
  | item :: rest =>
      let itemResult := validate item in
      let result := if negb (valid itemResult) then setInvalid result else result in
      let label := cat [kind; " "; showNum i; ": "] in
      let result := pushErrors (prefixed label (errors itemResult)) result in
      let result := pushWarnings (prefixed label (warnings itemResult)) result in
      itemsLoop validate kind rest (i + 1)%float result
  end.

Definition validateWorkoutsList (workouts : JsValue) : ValidationResult :=
  let result := newResult in
  match workouts with
  | JArr items =>
      let result :=
        match items with
        | [] => pushWarning "Workouts array is empty" result
        | _ => result
        end in
      itemsLoop validateWorkout "Workout" items 0%float result
  | other => fail (cat ["Workouts must be an array, got "; typeof other]) result
  end.

Definition validateVideosList (videos : JsValue) : ValidationResult :=
  let result := newResult in
  match videos with
  | JArr items =>
      let result :=
        match items with
        | [] => pushWarning "Videos array is empty" result
        | _ => result
        end in
      itemsLoop validateVideo "Video" items 0%float result
  | other => fail (cat ["Videos must be an array, got "; typeof other]) result
  end.

End Validators.

(* ================================================================= *)
(** ** dataLoader.ts *)

(** What the file system holds at an absolute path. *)
Inductive FsEntry : Type :=
| Absent
| NotRegular
| Unreadable (message : string)
| Regular (content : string).

Record FileSystem : Type := mkFs {
  (** a path as given, made absolute against the working directory *)
  absolute : string -> string;
  entryAt : string -> FsEntry
}.

Record FetchConfig : Type := mkConfig {
  timeoutMs : option Z;
  retries : option Z;
  retryDelayMs : option Z
}.

Module DEFAULT_FETCH_CONFIG.
Definition timeoutMs : Z := 30000.
Definition retries : Z := 3.
Definition retryDelayMs : Z := 1000.
End DEFAULT_FETCH_CONFIG.

(** What one call of [fetch] comes to: the promise rejects (no connection,
    or the abort of the timeout), or a response arrives, whose body is read
    or fails to be read. *)
Inductive FetchOutcome : Type :=
| Rejected (message : string)
| Response (status : Z) (statusText : string) (text : outcome string string).

(** The network: the outcome of the call of [fetch] made in each attempt. *)
Definition Network : Type := Z -> FetchOutcome.

(** What the retry loop does that the outside observes. *)
Inductive Event : Type :=
| Fetch (url : string) (timeout : Z)
| Sleep (ms : Z).

Definition isFetch (e : Event) : bool :=
  match e with Fetch _ _ => true | Sleep _ => false end.

(** The number of attempts of a run. *)
Definition attemptsOf (trace : list Event) : nat :=
  List.length (filter isFetch trace).

(** [response.ok] *)
Definition ok (status : Z) : bool := ((200 <=? status) && (status <=? 299))%Z.

Definition nonRetriable : list Z := [400; 401; 403; 404; 405; 422]%Z.

Section Loader.

Context {P : Platform}.

(** *** loadJsonFile *)

Definition loadJsonFile (fs : FileSystem) (filePath : string)
  : outcome DataLoadError JsValue :=
  let absolutePath := absolute fs filePath in
  match entryAt fs absolutePath with
  | Absent =>
      Thrown (mkLoadError (cat ["File not found: "; absolutePath]) absolutePath None)
  | NotRegular =>
      Thrown (mkLoadError (cat ["Path is not a file: "; absolutePath])
                          absolutePath None)
  | Unreadable m =>
      Thrown (mkLoadError (cat ["Failed to read file: "; m]) absolutePath (Some m))
  | Regular content =>
      if String.eqb (trim content) "" then
        Thrown (mkLoadError "File is empty" absolutePath None)
      else
        match JSON_parse content with
        | Returned v => Returned v
        | Thrown m =>
            Thrown (mkLoadError (cat ["Invalid JSON: "; m]) absolutePath (Some m))
        end
  end.

(** *** loadWorkoutDetails *)

Section LoadSegment.

Variable filePath : string.
Variable i : float.
Variable segment : JsValue.

Definition invalidField (field expected : string) (got : JsValue) : DataLoadError :=
  mkLoadError
    (cat ["Segment at index "; showNum i; " has invalid '"; field;
          "' field: expected "; expected; ", got "; typeof got])
    filePath None.

Definition invalidValue (field : string) (x : float) (wanted : string)
  : DataLoadError :=
  mkLoadError
    (cat ["Segment at index "; showNum i; " has invalid '"; field;
          "' value: "; showNum x; " ("; wanted; ")"])
    filePath None.

(** [typeof segment[field] !== "number" || !Number.isFinite(segment[field])] *)
Definition finiteNumber (field : string) : outcome DataLoadError float :=
  match getProp segment field with
  | JNum x => if isFinite x then Returned x
              else Thrown (invalidField field "a number" (JNum x))
  | other => Thrown (invalidField field "a number" other)
  end.

Definition stringField (field : string) : outcome DataLoadError string :=
  match getProp segment field with
  | JStr x => Returned x
  | other => Thrown (invalidField field "a string" other)
  end.

Definition unless (bad : bool) (e : DataLoadError) : outcome DataLoadError unit :=
  if bad then Thrown e else Returned tt.

(** The body of the loop of [loadWorkoutDetails]. *)
Definition loadSegment : outcome DataLoadError WorkoutSegment :=
  if notAnObject segment then
    Thrown (mkLoadError
              (cat ["Segment at index "; showNum i; " is not an object"])
              filePath None)
  else
    time <- finiteNumber "Time" ;;
    _ <- unless (time <=? 0)%float
           (invalidValue "Time" time "must be positive") ;;
    activity <- stringField "Activity" ;;
    resistance <- finiteNumber "Resistance" ;;
    _ <- unless ((resistance <? 0)%float || (20 <? resistance)%float)
           (invalidValue "Resistance" resistance "expected 0-20") ;;
    cadence <- finiteNumber "Cadence" ;;
    _ <- unless ((cadence <? 0)%float || (150 <? cadence)%float)
           (invalidValue "Cadence" cadence "expected 0-150") ;;
    stroke <- stringField "Stroke instruction" ;;
    elapsed <- finiteNumber "Elapsed Time" ;;
    _ <- unless (elapsed <? 0)%float
           (invalidValue "Elapsed Time" elapsed "must be non-negative") ;;
    Returned (mkSegment time activity resistance cadence stroke elapsed).

(** The body of the loop of [fetchWorkoutDetails]; [filePath] is the URL. *)
Definition plainInvalid (field : string) : DataLoadError :=
  mkLoadError
    (cat ["Segment at index "; showNum i; " has invalid '"; field; "' field"])
    filePath None.

Definition fetchSegment : outcome DataLoadError WorkoutSegment :=
  if notAnObject segment then
    Thrown (mkLoadError
              (cat ["Segment at index "; showNum i; " is not an object"])
              filePath None)
  else
    time <- match getProp segment "Time" with
            | JNum t => if (t <=? 0)%float then Thrown (plainInvalid "Time")
                        else Returned t
            | _ => Thrown (plainInvalid "Time")
            end ;;
    activity <- match getProp segment "Activity" with
                | JStr a => Returned a
                | _ => Thrown (plainInvalid "Activity")
                end ;;
    resistance <- match getProp segment "Resistance" with
                  | JNum r => Returned r
                  | _ => Thrown (plainInvalid "Resistance")
                  end ;;
    cadence <- match getProp segment "Cadence" with
               | JNum c => Returned c
               | _ => Thrown (plainInvalid "Cadence")
               end ;;
    stroke <- match getProp segment "Stroke instruction" with
              | JStr x => Returned x
              | _ => Thrown (plainInvalid "Stroke instruction")
              end ;;
    elapsed <- match getProp segment "Elapsed Time" with
               | JNum e => Returned e
               | _ => Thrown (plainInvalid "Elapsed Time")
               end ;;
    Returned (mkSegment time activity resistance cadence stroke elapsed).

End LoadSegment.

(** A loop [for (let i = 0; i < data.length; i++)] that checks and collects
    the segments, from index [i] on; it stops at the first throw. *)
Fixpoint collect (body : float -> JsValue -> outcome DataLoadError WorkoutSegment)
         (items : list JsValue) (i : float)
  : outcome DataLoadError (list WorkoutSegment) :=
  match items with
  | [] => Returned []
  | item :: rest =>
      s <- body i item ;;
      segments <- collect body rest (i + 1)%float ;;
      Returned (s :: segments)
  end.

(** [loadWorkoutDetails] from the value [loadJsonFile] returned. *)
Definition loadWorkoutDetailsOf (filePath : string) (data : JsValue)
  : outcome DataLoadError WorkoutDetails :=
  match data with
  | JArr [] => Thrown (mkLoadError "Workout details array is empty" filePath None)
  | JArr items => collect (loadSegment filePath) items 0%float
  | other =>
      Thrown (mkLoadError (cat ["Expected array but got "; typeof other])
                          filePath None)
  end.

Definition loadWorkoutDetails (fs : FileSystem) (filePath : string)
  : outcome DataLoadError WorkoutDetails :=
  data <- loadJsonFile fs filePath ;;
  loadWorkoutDetailsOf filePath data.

(** *** fetchWithRetry *)

Section Retry.

Variable net : Network.
Variable url : string.
Variable timeoutMs' retries' retryDelayMs' : Z.

(** The [try] block of one attempt: the text, or what is thrown. *)
Definition attemptOnce (attempt : Z) : outcome JsError string :=
  match net attempt with
  | Rejected m => Thrown (OtherError m)
  | Response status statusText text =>
      if negb (ok status) then
        Thrown (NetworkError
                  (cat ["HTTP error "; showInt status; ": "; statusText])
                  url (Some status) None)
      else
        match text with
        | Returned body => Returned body
        | Thrown m => Thrown (OtherError m)
        end
  end.

(** [error instanceof NetworkError && error.statusCode] and the code is
    one of [nonRetriable]. *)
Definition isNonRetriable (error : JsError) : bool :=
  match error with
  | NetworkError _ _ (Some code) _ =>
      negb (code =? 0)%Z && existsb (Z.eqb code) nonRetriable
  | _ => false
  end.

(** The [throw] after the loop. *)
Definition exhausted (lastError : option JsError) : JsError :=
  NetworkError
    (cat ["Failed after "; showInt (retries' + 1); " attempts: ";
          match lastError with
          | Some e => errMessage e
          | None => "undefined"
          end])
    url None lastError.

(** The loop [for (let attempt = 0; attempt <= retries; attempt++)] from
    [attempt] on, with the events it produces. [fuel] bounds the
    iterations; [Z.to_nat (retries + 1 - attempt)] is enough
    ([retryLoop_fuel]). *)
Fixpoint retryLoop (fuel : nat) (attempt : Z) (lastError : option JsError)
  : outcome JsError string * list Event :=
  match fuel with
  | O => (Thrown (exhausted lastError), [])
  | S fuel =>
      if (attempt <=? retries')%Z then
        match attemptOnce attempt with
        | Returned body => (Returned body, [Fetch url timeoutMs'])
        | Thrown error =>
            if isNonRetriable error then
              (Thrown error, [Fetch url timeoutMs'])
            else
              let wait :=
                if (attempt <? retries')%Z
                then [Sleep (retryDelayMs' * 2 ^ attempt)%Z]
                else [] in
              let (r, trace) := retryLoop fuel (attempt + 1)%Z (Some error) in
              (r, Fetch url timeoutMs' :: wait ++ trace)
        end
      else (Thrown (exhausted lastError), [])
  end.

End Retry.

Definition orDefault (field : option Z) (default : Z) : Z :=
  match field with
  | Some x => x
  | None => default
  end.

Definition fetchWithRetry (net : Network) (url : string) (config : FetchConfig)
  : outcome JsError string * list Event :=
  let timeoutMs := orDefault (timeoutMs config) DEFAULT_FETCH_CONFIG.timeoutMs in
  let retries := orDefault (retries config) DEFAULT_FETCH_CONFIG.retries in
  let retryDelayMs :=
    orDefault (retryDelayMs config) DEFAULT_FETCH_CONFIG.retryDelayMs in
  match parseURL url with
  | None =>
      (Thrown (NetworkError (cat ["Invalid URL format: "; url]) url None None), [])
  | Some parsedUrl =>
      if negb (includes ["http:"; "https:"] (protocol parsedUrl)) then
        (Thrown (NetworkError
                   (cat ["Unsupported protocol: "; protocol parsedUrl])
                   url None None), [])
      else
        retryLoop net url timeoutMs retries retryDelayMs
                  (Z.to_nat (retries + 1)) 0%Z None
  end.

(** *** fetchWorkoutDetails *)

Inductive FetchFailure : Type :=
| ByNetwork (e : JsError)
| ByLoad (e : DataLoadError).

(** [fetchWorkoutDetails] from the parsed body. *)
Definition fetchWorkoutDetailsOf (url : string) (data : JsValue)
  : outcome DataLoadError WorkoutDetails :=
  match data with
  | JArr items => collect (fetchSegment url) items 0%float
  | other =>
      Thrown (mkLoadError (cat ["Expected array but got "; typeof other]) url None)
  end.

Definition fetchWorkoutDetails (net : Network) (url : string) (config : FetchConfig)
  : outcome FetchFailure WorkoutDetails * list Event :=
  let (fetched, trace) := fetchWithRetry net url config in
  match fetched with
  | Thrown e => (Thrown (ByNetwork e), trace)
  | Returned content =>
      match JSON_parse content with
      | Thrown m =>
          (Thrown (ByLoad (mkLoadError (cat ["Invalid JSON from URL: "; m])
                                       url (Some m))), trace)
      | Returned data =>
          match fetchWorkoutDetailsOf url data with
          | Returned segments => (Returned segments, trace)
          | Thrown e => (Thrown (ByLoad e), trace)
          end
      end
  end.

(** *** getCurrentSegment *)

(** The loop [for (const segment of segments)]. *)
Fixpoint scan (segments : WorkoutDetails) (elapsedMinutes : float)
  : option WorkoutSegment :=
  match segments with
  | [] => None
  | segment :: rest =>
      if (elapsedMinutes <=? Elapsed_Time segment)%float then Some segment
      else scan rest elapsedMinutes
  end.

Definition getCurrentSegment (segments : WorkoutDetails) (elapsedMinutes : float)
  : option WorkoutSegment :=
  if (List.length segments =? 0)%nat then None
  else if (elapsedMinutes <? 0)%float then nth_error segments 0
  else scan segments elapsedMinutes.

End Loader.

(* ================================================================= *)
(** ** validators.ts: the assertion helpers *)

Record DataValidationError : Type := mkValidationError {
  veMessage : string;
  veField : string;
  veValue : JsValue
}.

Section Asserts.

Context {P : Platform}.

Definition assertDefined (value : JsValue) (fieldName : string)
  : outcome DataValidationError JsValue :=
  match value with
  | JNull =>
      Thrown (mkValidationError (cat [fieldName; " is required but was "; "null"])
                                fieldName value)
  | JUndefined =>
      Thrown (mkValidationError
                (cat [fieldName; " is required but was "; "undefined"])
                fieldName value)
  | _ => Returned value
  end.

Definition assertNumberInRange (value : JsValue) (fieldName : string)
           (min max : float) : outcome DataValidationError float :=
  match value with
  | JNum x =>
      if negb (isFinite x) then
        Thrown (mkValidationError (cat [fieldName; " must be a finite number"])
                                  fieldName value)
      else if (x <? min)%float || (max <? x)%float then
        Thrown (mkValidationError
                  (cat [fieldName; " must be between "; showNum min; " and ";
                        showNum max; ", got "; showNum x])
                  fieldName value)
      else Returned x
  | other =>
      Thrown (mkValidationError
                (cat [fieldName; " must be a number, got "; typeof other])
                fieldName value)
  end.

Definition assertNonEmptyString (value : JsValue) (fieldName : string)
  : outcome DataValidationError string :=
  match value with
  | JStr x =>
      if String.eqb (trim x) "" then
        Thrown (mkValidationError (cat [fieldName; " cannot be empty"])
                                  fieldName value)
      else Returned x
  | other =>
      Thrown (mkValidationError
                (cat [fieldName; " must be a string, got "; typeof other])
                fieldName value)
  end.

End Asserts.

(* ================================================================= *)
(** ** dataLoader.ts: workouts, videos and access by index *)

(** The objects typed workouts and videos are at run time. *)
Definition workoutObject (w : Workout) : JsValue :=
  JObj [ ("Title", JStr (wTitle w));
         ("Image", JStr (wImage w));
         ("Workout_URL", JStr (Workout_URL w)) ].

Definition videoObject (v : Video) : JsValue :=
  JObj [ ("Title", JStr (vTitle v));
         ("Subtitle", JStr (Subtitle v));
         ("Image", JStr (vImage v));
         ("Video", JStr (vVideo v)) ].

Section Catalogue.

Context {P : Platform}.

(** A loop [for (let i = 0; i < data.length; i++)] that checks the elements
    and collects what [body] returns, from index [i] on. *)
Fixpoint gather {A : Type} (body : float -> JsValue -> outcome DataLoadError A)
         (items : list JsValue) (i : float) : outcome DataLoadError (list A) :=
  match items with
  | [] => Returned []
  | item :: rest =>
      a <- body i item ;;
      others <- gather body rest (i + 1)%float ;;
      Returned (a :: others)
  end.

(** The error of a field of the element [i] that is missing or no string;
    [title] is the title of the element once it is known. *)
Definition missingField (filePath kind : string) (i : float)
           (title : option string) (field : string) : DataLoadError :=
  mkLoadError
    (cat [kind; " at index "; showNum i;
          match title with
          | Some t => cat [" ("; t; ")"]
          | None => ""
          end;
          " is missing required field '"; field; "' or it is not a string"])
    filePath None.

Definition notAnObjectError (filePath kind : string) (i : float) : DataLoadError :=
  mkLoadError (cat [kind; " at index "; showNum i; " is not an object"])
              filePath None.

(** The body of the loop of [loadWorkouts]. *)
Definition loadWorkout (filePath : string) (i : float) (item : JsValue)
  : outcome DataLoadError Workout :=
  if notAnObject item then Thrown (notAnObjectError filePath "Workout" i)
  else
    match getProp item "Title" with
    | JStr title =>
        match getProp item "Image" with
        | JStr image =>
            match getProp item "Workout_URL" with
            | JStr url => Returned (mkWorkout title image url)
            | _ => Thrown (missingField filePath "Workout" i (Some title)
                                        "Workout_URL")
            end
        | _ => Thrown (missingField filePath "Workout" i (Some title) "Image")
        end
    | _ => Thrown (missingField filePath "Workout" i None "Title")
    end.

(** [loadWorkouts] from the value [loadJsonFile] returned. *)
Definition loadWorkoutsOf (filePath : string) (data : JsValue)
  : outcome DataLoadError (list Workout) :=
  match data with
  | JArr items => gather (loadWorkout filePath) items 0%float
  | other =>
      Thrown (mkLoadError (cat ["Expected array but got "; typeof other])
                          filePath None)
  end.

(** [loadWorkouts(filePath = "./workouts.json")] *)
Definition loadWorkouts (fs : FileSystem) (filePath : option string)
  : outcome DataLoadError (list Workout) :=
  let filePath := match filePath with
                  | Some p => p
                  | None => "./workouts.json"
                  end in
  data <- loadJsonFile fs filePath ;;
  loadWorkoutsOf filePath data.

(** The body of the loop of [loadVideos]. *)
Definition loadVideo (filePath : string) (i : float) (item : JsValue)
  : outcome DataLoadError Video :=
  if notAnObject item then Thrown (notAnObjectError filePath "Video" i)
  else
    match getProp item "Title" with
    | JStr title =>
        match getProp item "Subtitle" with
        | JStr subtitle =>
            match getProp item "Image" with
            | JStr image =>
                match getProp item "Video" with
                | JStr video => Returned (mkVideo title subtitle image video)
                | _ => Thrown (missingField filePath "Video" i (Some title)
                                            "Video")
                end
            | _ => Thrown (missingField filePath "Video" i (Some title) "Image")
            end
        | _ => Thrown (missingField filePath "Video" i (Some title) "Subtitle")
        end
    | _ => Thrown (missingField filePath "Video" i None "Title")
    end.

Definition loadVideosOf (filePath : string) (data : JsValue)
  : outcome DataLoadError (list Video) :=
  match data with
  | JArr items => gather (loadVideo filePath) items 0%float
  | other =>
      Thrown (mkLoadError (cat ["Expected array but got "; typeof other])
                          filePath None)
  end.

(** [loadVideos(filePath = "./videos.json")] *)
Definition loadVideos (fs : FileSystem) (filePath : option string)
  : outcome DataLoadError (list Video) :=
  let filePath := match filePath with
                  | Some p => p
                  | None => "./videos.json"
                  end in
  data <- loadJsonFile fs filePath ;;
  loadVideosOf filePath data.

(** [getSegmentAtIndex], for an index that is an integer. What it returns
    is [segments[index]], the element or [undefined] ([None]). *)
Definition getSegmentAtIndex (segments : WorkoutDetails) (index : Z)
  : outcome DataLoadError (option WorkoutSegment) :=
  if (index <? 0)%Z || (Z.of_nat (List.length segments) <=? index)%Z then
    Thrown (mkLoadError
              (cat ["Segment index "; showInt index;
                    " is out of bounds (array length: ";
                    showInt (Z.of_nat (List.length segments)); ")"])
              "memory" None)
  else Returned (nth_error segments (Z.to_nat index)).

End Catalogue.

(* ================================================================= *)
(** ** validate-data.ts *)








Section Report.

Context {P : Platform}.





End Report.

(* ================================================================= *)
(** ** A reference platform

    A platform to run the program on: its functions agree with the
    JavaScript ones on the inputs used below (integers, URLs of the form
    scheme://host/path, documents written by [stringify]). *)

Module Reference.

Definition quote : string := String (ascii_of_nat 34) EmptyString.

(** Integers print in decimal; another finite number prints as its
    mantissa over a power of two. *)
Definition showNum (x : float) : string :=
  match Prim2SF x with
  | S754_nan => "NaN"
  | S754_zero _ => "0"
  | S754_infinity false => "Infinity"
  | S754_infinity true => "-Infinity"
  | S754_finite s m e =>
      let sign := if s then "-" else "" in
      if (0 <=? e)%Z then cat [sign; showInt (Zpos m * 2 ^ e)]
      else if (Zpos m mod 2 ^ (- e) =? 0)%Z
           then cat [sign; showInt (Zpos m / 2 ^ (- e))]
           else cat [sign; showInt (Zpos m); "/2^"; showInt (- e)]
  end.

Fixpoint upTo (stop : ascii -> bool) (s : string) : string :=
  match s with
  | EmptyString => EmptyString
  | String c rest => if stop c then EmptyString else String c (upTo stop rest)
  end.

Definition isLetter (c : ascii) : bool :=
  let n := nat_of_ascii (lowerChar c) in ((97 <=? n) && (n <=? 122))%nat.

Fixpoint allLetters (s : string) : bool :=
  match s with
  | EmptyString => true
  | String c rest => isLetter c && allLetters rest
  end.

Definition endsHost (c : ascii) : bool :=
  existsb (Ascii.eqb c) ["/"; "?"; "#"; ":"]%char.

(** URLs of the form scheme://host, followed by a port, a path, a query
    or a fragment. *)
Definition parseURL (s : string) : option URL :=
  match index 0 "://" s with
  | None => None
  | Some n =>
      let scheme := substring 0 n s in
      let rest := substring (n + 3) (String.length s - (n + 3)) s in
      let host := upTo endsHost rest in
      if (0 <? n)%nat && allLetters scheme && negb (String.eqb host "")
      then Some (mkURL (cat [toLowerCase scheme; ":"]) (toLowerCase host))
      else None
  end.

(** The text of a value, as [JSON.stringify] writes it when no string needs
    an escape. *)
Fixpoint stringify (v : JsValue) : string :=
  match v with
  | JUndefined => "undefined"
  | JNull => "null"
  | JBool true => "true"
  | JBool false => "false"
  | JNum n => showNum n
  | JStr s => cat [quote; s; quote]
  | JArr items => cat ["["; join "," (map stringify items); "]"]
  | JObj props =>
      cat ["{";
           join "," (map (fun kv => match kv with
                                    | (k, x) => cat [quote; k; quote; ":"; stringify x]
                                    end) props);
           "}"]
  end.

Definition segment (time : float) (activity : string)
           (resistance cadence elapsed : float) : WorkoutSegment :=
  mkSegment time activity resistance cadence "Steady" elapsed.

(** A well-formed timeline: warm-up, intervals, cool-down. *)
Definition timeline : WorkoutDetails :=
  [ segment 5 "Warm-up" 5 80 5;
    segment 10 "Intervals" 12 95 15;
    segment 5 "Cool-down" 4 70 20 ].

(** A timeline the loader accepts and the validator does not: the warm-up
    has resistance 0. *)
Definition easyTimeline : WorkoutDetails :=
  [ segment 5 "Warm-up" 0 80 5;
    segment 5 "Cool-down" 4 70 10 ].

(** A timeline the loader refuses: the resistance of its second segment
    is 25. *)
Definition steepTimeline : WorkoutDetails :=
  [ segment 5 "Warm-up" 5 80 5;
    segment 10 "Hill Climb" 25 60 15 ].

Definition documents : list JsValue :=
  [ JArr (map segmentObject timeline);
    JArr (map segmentObject easyTimeline);
    JArr (map segmentObject steepTimeline) ].

(** A parser that reads the documents above. *)
Definition JSON_parse (text : string) : outcome string JsValue :=
  match find (fun v => String.eqb (stringify v) text) documents with
  | Some v => Returned v
  | None => Thrown "Unexpected token"
  end.

Definition platform : Platform :=
  Build_Platform showNum parseURL JSON_parse.

(** A file system with the three documents and a directory. *)
Definition fs : FileSystem :=
  {| absolute := fun p => p;
     entryAt := fun p =>
       if String.eqb p "/data/timeline.json"
       then Regular (stringify (JArr (map segmentObject timeline)))
       else if String.eqb p "/data/easy.json"
       then Regular (stringify (JArr (map segmentObject easyTimeline)))
       else if String.eqb p "/data/steep.json"
       then Regular (stringify (JArr (map segmentObject steepTimeline)))
       else if String.eqb p "/data" then NotRegular
       else Absent |}.

End Reference.

(* ================================================================= *)
(** ** A sample catalogue

    Two files for [loadWorkouts] and [loadVideos], each with one good
    element followed by one that lacks a field. *)

Module Sample.

Definition workouts : list Workout :=
  [ mkWorkout "Hill Ride" "https://cycling.s3.amazonaws.com/hill.png"
              "https://raw.githubusercontent.com/rides/hill.json" ].

Definition videos : list Video :=
  [ mkVideo "Coast Road" "An easy hour" "https://cycling.s3.amazonaws.com/coast.png"
            "https://cycling.s3.amazonaws.com/coast.mp4" ].

(** An element with a title and nothing else. *)
Definition titleOnly : JsValue := JObj [ ("Title", JStr "A") ].

Definition workoutsFile : JsValue := JArr (map workoutObject workouts ++ [titleOnly]).

Definition videosFile : JsValue := JArr (map videoObject videos ++ [titleOnly]).

Definition documents : list JsValue := [ workoutsFile; videosFile ].

Definition JSON_parse (text : string) : outcome string JsValue :=
  match find (fun v => String.eqb (Reference.stringify v) text) documents with
  | Some v => Returned v
  | None => Thrown "Unexpected token"
  end.

Definition platform : Platform :=
  Build_Platform Reference.showNum Reference.parseURL JSON_parse.

Definition fs : FileSystem :=
  {| absolute := fun p => p;
     entryAt := fun p =>
       if String.eqb p "/data/workouts.json"
       then Regular (Reference.stringify workoutsFile)
       else if String.eqb p "/data/videos.json"
       then Regular (Reference.stringify videosFile)
       else Absent |}.

End Sample.

(* ================================================================= *)
(** ** Vocabulary of the properties *)

(** A report is sound when it is invalid exactly if it holds an error. *)
Definition sound (r : ValidationResult) : Prop :=
  valid r = false <-> errors r <> [].

(** A step of a validator only adds messages, and clears [valid] when it
    adds an error: what it does to a report is what it does to the empty
    report, appended. *)
Definition appends (check : ValidationResult -> ValidationResult) : Prop :=
  forall r,
    errors (check r) = errors r ++ errors (check newResult)
    /\ warnings (check r) = warnings r ++ warnings (check newResult)
    /\ valid (check r) = valid r && valid (check newResult).

(** The loop counter [i] after [k] increments from 0. *)
Definition counter (k : nat) : float := Nat.iter k (fun i => (i + 1)%float) 0%float.

(** The sum of the [Time] fields of [items], added from the left starting
    at 0; an element without a finite [Time] adds nothing. *)
Definition runningSum (items : list JsValue) : float :=
  fold_left
    (fun sum item =>
       match getProp item "Time" with
       | JNum t => if isFinite t then (sum + t)%float else sum
       | _ => sum
       end)
    items 0%float.

Section Vocabulary.

Context {P : Platform}.

(** The errors each check of a segment contributes. *)
Definition timeErrors s i := errors (checkTime s i newResult).
Definition activityErrors s i := errors (checkActivity s i newResult).
Definition resistanceErrors s i := errors (checkResistance s i newResult).
Definition cadenceErrors s i := errors (checkCadence s i newResult).
Definition strokeErrors s i := errors (checkStroke s i newResult).
Definition elapsedErrors s i prev := errors (checkElapsed s i prev newResult).

(** A message of the segment at [index] about one of its fields. *)
Definition about (index : float) (field message : string) : Prop :=
  exists rest, message = cat [segLabel index; ": "; field; rest].

(** The errors of the segments [rest] of an array, which follow the
    segments [pre]: each segment is validated under its index and the sum
    of the [Time] fields of the segments before it. *)
Fixpoint segmentErrors (pre rest : list JsValue) : list string :=
  match rest with
  | [] => []
  | item :: rest' =>
      errors (validateSegment item (counter (List.length pre)) (runningSum pre))
      ++ segmentErrors (pre ++ [item]) rest'
  end.

(** The reports the loop of [validateWorkoutDetails] folds, from index [i]
    and running sum [prev]. *)
Fixpoint reportsFrom (items : list JsValue) (i prev : float)
  : list ValidationResult :=
  match items with
  | [] => []
  | item :: rest =>
      validateSegment item i prev
      :: reportsFrom rest (i + 1)%float (nextElapsed item prev)
  end.

Definition errorsFrom (items : list JsValue) (i prev : float) : list string :=
  List.concat (map errors (reportsFrom items i prev)).

End Vocabulary.

(** *** The loader's checks, in the words of the specification *)

(** What is wrong with an element of a workout-details array. *)
Inductive Defect : Type :=
| NotObject
| Mistyped (field : string)
| OutOfRange (field : string).

(** A numeric field is mistyped when it is missing or no finite number, and
    out of range when [bad] holds of it. *)
Definition numberDefect (item : JsValue) (field : string) (bad : float -> bool)
  : option Defect :=
  match getProp item field with
  | JNum x =>
      if isFinite x then (if bad x then Some (OutOfRange field) else None)
      else Some (Mistyped field)
  | _ => Some (Mistyped field)
  end.

Definition stringDefect (item : JsValue) (field : string) : option Defect :=
  match getProp item field with
  | JStr _ => None
  | _ => Some (Mistyped field)
  end.

Fixpoint firstSome {A} (l : list (option A)) : option A :=
  match l with
  | [] => None
  | Some a :: _ => Some a
  | None :: rest => firstSome rest
  end.

(** The first defect of an element for [loadWorkoutDetails]: none when it
    is an object with a positive finite [Time], a string [Activity], a
    finite [Resistance] within 0 and 20, a finite [Cadence] within 0 and
    150, a string [Stroke instruction] and a finite [Elapsed Time] that is
    not negative. *)
Definition defect (item : JsValue) : option Defect :=
  if notAnObject item then Some NotObject
  else
    firstSome
      [ numberDefect item "Time" (fun t => (t <=? 0)%float);
        stringDefect item "Activity";
        numberDefect item "Resistance"
                     (fun r => (r <? 0)%float || (20 <? r)%float);
        numberDefect item "Cadence"
                     (fun c => (c <? 0)%float || (150 <? c)%float);
        stringDefect item "Stroke instruction";
        numberDefect item "Elapsed Time" (fun e => (e <? 0)%float) ].

(** The first element that has a defect, with its index (counted from [k])
    and its defect. *)
Fixpoint firstDefect (items : list JsValue) (k : nat)
  : option (nat * JsValue * Defect) :=
  match items with
  | [] => None
  | item :: rest =>
      match defect item with
      | Some d => Some (k, item, d)
      | None => firstDefect rest (S k)
      end
  end.

(** The ranges a loaded segment is within. *)
Definition loaderRanges (s : WorkoutSegment) : bool :=
  isFinite (Time s) && negb (Time s <=? 0)%float
  && isFinite (Resistance s)
  && negb (Resistance s <? 0)%float && negb (20 <? Resistance s)%float
  && isFinite (Cadence s)
  && negb (Cadence s <? 0)%float && negb (150 <? Cadence s)%float
  && isFinite (Elapsed_Time s) && negb (Elapsed_Time s <? 0)%float.

(** What [fetchWorkoutDetails] asks of an element [item] to read it as the
    segment [s]: the six fields have their types, and [Time] is not at or
    below 0. *)
Definition fetchable (item : JsValue) (s : WorkoutSegment) : Prop :=
  notAnObject item = false
  /\ getProp item "Time" = JNum (Time s) /\ (Time s <=? 0)%float = false
  /\ getProp item "Activity" = JStr (Activity s)
  /\ getProp item "Resistance" = JNum (Resistance s)
  /\ getProp item "Cadence" = JNum (Cadence s)
  /\ getProp item "Stroke instruction" = JStr (Stroke_instruction s)
  /\ getProp item "Elapsed Time" = JNum (Elapsed_Time s).

Definition numberOf (v : JsValue) : float :=
  match v with JNum x => x | _ => nan end.

Definition stringOf (v : JsValue) : string :=
  match v with JStr x => x | _ => "" end.

(** The typed segment of an element without a defect. *)
Definition typedSegment (item : JsValue) : WorkoutSegment :=
  mkSegment (numberOf (getProp item "Time"))
            (stringOf (getProp item "Activity"))
            (numberOf (getProp item "Resistance"))
            (numberOf (getProp item "Cadence"))
            (stringOf (getProp item "Stroke instruction"))
            (numberOf (getProp item "Elapsed Time")).

(** The stricter checks of the validator on loaded segments that follow an
    elapsed time [prev]: each has a [Time] of at least 1, an [Activity] that
    is not blank, a [Resistance] of at least 1, a [Cadence] of at least 30,
    and an [Elapsed Time] that is the sum of the [Time] fields up to it. *)
Fixpoint strictFrom (prev : float) (segments : WorkoutDetails) : bool :=
  match segments with
  | [] => true
  | s :: rest =>
      negb (Time s <? 1)%float
      && negb (String.eqb (trim (Activity s)) "")
      && negb (Resistance s <? 1)%float
      && negb (Cadence s <? 30)%float
      && (Elapsed_Time s =? prev + Time s)%float
      && strictFrom (prev + Time s)%float rest
  end.

Section LoaderVocabulary.

Context {P : Platform}.

(** A message names the index [i] and the field [field]. *)
Definition names (message : string) (i : float) (field : string) : Prop :=
  exists rest,
    message = cat ["Segment at index "; showNum i; " has invalid '"; field; "'";
                   rest].

(** What [loadWorkoutDetails] throws for a defect of the element at [i]. *)
Definition defectError (path : string) (i : float) (item : JsValue) (d : Defect)
  : DataLoadError :=
  match d with
  | NotObject =>
      mkLoadError (cat ["Segment at index "; showNum i; " is not an object"])
                  path None
  | Mistyped field =>
      invalidField path i field
        (if String.eqb field "Activity" || String.eqb field "Stroke instruction"
         then "a string" else "a number")
        (getProp item field)
  | OutOfRange field =>
      invalidValue path i field (numberOf (getProp item field))
        (if String.eqb field "Time" then "must be positive"
         else if String.eqb field "Resistance" then "expected 0-20"
         else if String.eqb field "Cadence" then "expected 0-150"
         else "must be non-negative")
  end.

End LoaderVocabulary.

(** *** The outcomes of an attempt *)

(** A failure other than a response with one of the [nonRetriable] codes: a
    rejected call (no connection, a timeout), a response that is not 2xx
    with another code, a body that cannot be read. *)
Definition retriableFailure (o : FetchOutcome) : bool :=
  match o with
  | Rejected _ => true
  | Response status _ text =>
      if ok status then match text with
                        | Thrown _ => true
                        | Returned _ => false
                        end
      else negb (existsb (Z.eqb status) nonRetriable)
  end.

(** A URL that parses, with the scheme http or https. *)
Definition fetchable_url {P : Platform} (url : string) : Prop :=
  exists parsed,
    parseURL url = Some parsed
    /\ includes ["http:"; "https:"] (protocol parsed) = true.

(** *** URLs *)

(** A string of white space only; the empty string is one. *)
Fixpoint blank (s : string) : bool :=
  match s with
  | EmptyString => true
  | String c rest => isWhiteSpace c && blank rest
  end.

(** The host is one of the allowed domains, or a subdomain of one: it ends
    with a dot followed by the domain. Letter case does not count. *)
Definition hostMatches (host : string) (allowed : list string) : Prop :=
  exists domain,
    In domain allowed
    /\ (toLowerCase host = toLowerCase domain
        \/ exists sub, toLowerCase host = (sub ++ "." ++ toLowerCase domain)%string).

(** *** A timeline the validator passes *)

Definition noErrors (messages : list string) : bool :=
  match messages with
  | [] => true
  | _ :: _ => false
  end.

Definition timeOk (s : WorkoutSegment) : bool :=
  isFinite (Time s) && negb (Time s <? 1)%float.

Definition activityOk (s : WorkoutSegment) : bool :=
  negb (String.eqb (trim (Activity s)) "").

Definition resistanceOk (s : WorkoutSegment) : bool :=
  isFinite (Resistance s)
  && negb ((Resistance s <? 1)%float || (20 <? Resistance s)%float).

Definition cadenceOk (s : WorkoutSegment) : bool :=
  isFinite (Cadence s)
  && negb ((Cadence s <? 30)%float || (150 <? Cadence s)%float).

(** The elapsed time is finite and not negative, and equal to the sum
    expected unless it is above 120 (or the duration is not finite). *)
Definition elapsedOk (prev : float) (s : WorkoutSegment) : bool :=
  isFinite (Elapsed_Time s) && negb (Elapsed_Time s <? 0)%float
  && ((120 <? Elapsed_Time s)%float || negb (isFinite (Time s))
      || (Elapsed_Time s =? prev + Time s)%float).

Definition segmentPasses (prev : float) (s : WorkoutSegment) : bool :=
  timeOk s && activityOk s && resistanceOk s && cadenceOk s && elapsedOk prev s.

(** Every segment passes, each under the sum of the finite durations before
    it. *)
Fixpoint timelinePasses (prev : float) (segments : WorkoutDetails) : bool :=
  match segments with
  | [] => true
  | s :: rest =>
      segmentPasses prev s
      && timelinePasses (if isFinite (Time s) then (prev + Time s)%float else prev)
                        rest
  end.

(** *** The warnings about the ends of a workout *)

Definition startWarning (a : string) : string :=
  cat ["Workout does not start with a Warm-up (starts with '"; a; "')"].

Definition endWarning (a : string) : string :=
  cat ["Workout does not end with a Cool-down (ends with '"; a; "')"].

(** *** Workouts and videos the loader accepts *)

(** An element the loader reads as the workout [w]: an object whose three
    fields are the strings of [w]. *)
Definition workoutShaped (item : JsValue) (w : Workout) : Prop :=
  notAnObject item = false
  /\ getProp item "Title" = JStr (wTitle w)
  /\ getProp item "Image" = JStr (wImage w)
  /\ getProp item "Workout_URL" = JStr (Workout_URL w).

Definition videoShaped (item : JsValue) (v : Video) : Prop :=
  notAnObject item = false
  /\ getProp item "Title" = JStr (vTitle v)
  /\ getProp item "Subtitle" = JStr (Subtitle v)
  /\ getProp item "Image" = JStr (vImage v)
  /\ getProp item "Video" = JStr (vVideo v).

(** *** The schedule of the retries *)

(** [n] failed attempts from the attempt [from] on, each followed by its
    wait: the delay, doubled with every attempt. *)
Fixpoint backoff (url : string) (timeout delay from : Z) (n : nat) : list Event :=
  match n with
  | O => []
  | S n =>
      Fetch url timeout :: Sleep (delay * 2 ^ from)
      :: backoff url timeout delay (from + 1) n
  end.

(** The time a run sleeps in all. *)
Fixpoint waited (trace : list Event) : Z :=
  match trace with
  | [] => 0
  | Sleep ms :: rest => ms + waited rest
  | Fetch _ _ :: rest => waited rest
  end.

(* ================================================================= *)
(** * Properties *)

(** ** Reports: [valid] against [errors] *)

Lemma sound_newResult : sound newResult.
Proof. unfold sound; simpl; split; [discriminate | congruence]. Qed.

Lemma sound_fail m r : sound (fail m r).
Proof.
  unfold sound, fail, pushError, pushErrors, setInvalid; simpl.
  split; [ intros _ | reflexivity ].
  destruct (errors r); discriminate.
Qed.

Lemma sound_pushWarnings ms r : sound r -> sound (pushWarnings ms r).
Proof. unfold sound, pushWarnings; simpl; trivial. Qed.

Lemma sound_pushWarning m r : sound r -> sound (pushWarning m r).
Proof. apply sound_pushWarnings. Qed.

Lemma sound_invalid_pushErrors ms r :
  ms <> [] -> sound (pushErrors ms (setInvalid r)).
Proof.
  unfold sound, pushErrors, setInvalid; simpl; intros Hms.
  split; [ intros _ | reflexivity ].
  intros H; apply app_eq_nil in H; tauto.
Qed.

Lemma sound_pushErrors_nil r : sound r -> sound (pushErrors [] r).
Proof. unfold sound, pushErrors; simpl; now rewrite app_nil_r. Qed.

Lemma prefixed_nil p ms : prefixed p ms = [] -> ms = [].
Proof. destruct ms; [ reflexivity | discriminate ]. Qed.

Lemma sound_errors_nil r : sound r -> errors r = [] -> valid r = true.
Proof.
  unfold sound; intros [H _] E; destruct (valid r); [ reflexivity | ].
  now destruct (H eq_refl).
Qed.

Lemma sound_valid_true r : sound r -> valid r = true -> errors r = [].
Proof.
  unfold sound; intros [_ H] V; destruct (errors r) as [| e es]; [ reflexivity | ].
  rewrite H in V; [ discriminate | discriminate ].
Qed.

Create HintDb sound.
#[local] Hint Resolve sound_newResult sound_fail sound_pushWarnings
  sound_pushWarning : sound.

(** Merging a sound sub-report the way the validators do keeps soundness;
    [f] is the renaming of the messages. *)
Lemma sound_merge (f : list string -> list string) sub r :
  (forall ms, f ms = [] -> ms = []) -> f [] = [] ->
  sound sub -> sound r ->
  sound (pushErrors (f (errors sub))
           (if negb (valid sub) then setInvalid r else r)).
Proof.
  intros Hf Hnil Hsub Hr.
  destruct (valid sub) eqn:V; simpl.
  - rewrite (sound_valid_true Hsub V), Hnil. now apply sound_pushErrors_nil.
  - apply sound_invalid_pushErrors. intros E; apply Hf in E.
    now apply Hsub in E.
Qed.

(** The same for a field check, which copies the errors only of an invalid
    sub-report. *)
Lemma sound_merge_invalid (f : list string -> list string) sub r :
  (forall ms, f ms = [] -> ms = []) ->
  sound sub -> sound r ->
  sound (if negb (valid sub)
         then pushErrors (f (errors sub)) (setInvalid r) else r).
Proof.
  intros Hf Hsub Hr.
  destruct (valid sub) eqn:V; simpl; [ assumption | ].
  apply sound_invalid_pushErrors. intros E; apply Hf in E.
  now apply Hsub in E.
Qed.

Section ValidatorFacts.

Context {P : Platform}.

Ltac crunch :=
  repeat match goal with
         | |- sound (match ?x with _ => _ end) => destruct x
         | |- sound (if ?b then _ else _) => destruct b
         end; auto with sound.

Lemma validateUrl_sound url allowed : sound (validateUrl url allowed).
Proof. unfold validateUrl; crunch. Qed.

Lemma checkTitle_sound o r : sound r -> sound (checkTitle o r).
Proof. intros; unfold checkTitle; crunch. Qed.

Lemma checkUrlField_sound o field label domains extra r :
  (forall u r', sound r' -> sound (extra u r')) ->
  sound r -> sound (checkUrlField o field label domains extra r).
Proof.
  intros Hextra Hr; unfold checkUrlField.
  destruct (getProp o field); auto with sound.
  apply Hextra, sound_pushWarnings.
  apply (sound_merge_invalid (prefixed label));
    [ apply prefixed_nil | apply validateUrl_sound | exact Hr ].
Qed.

Lemma validateWorkout_sound w : sound (validateWorkout w).
Proof.
  unfold validateWorkout.
  destruct (notAnObject w); auto with sound.
  apply checkUrlField_sound; [ intros; crunch | ].
  apply checkUrlField_sound; [ trivial | ].
  apply checkTitle_sound; auto with sound.
Qed.

Lemma validateVideo_sound v : sound (validateVideo v).
Proof.
  unfold validateVideo.
  destruct (notAnObject v); auto with sound.
  apply checkUrlField_sound; [ intros; crunch | ].
  apply checkUrlField_sound; [ trivial | ].
  assert (sound (checkTitle v newResult))
    by (apply checkTitle_sound; auto with sound).
  crunch.
Qed.

Lemma checkTime_sound s i r : sound r -> sound (checkTime s i r).
Proof. intros; unfold checkTime; crunch. Qed.

Lemma checkActivity_sound s i r : sound r -> sound (checkActivity s i r).
Proof. intros; unfold checkActivity; crunch. Qed.

Lemma checkResistance_sound s i r : sound r -> sound (checkResistance s i r).
Proof. intros; unfold checkResistance; crunch. Qed.

Lemma checkCadence_sound s i r : sound r -> sound (checkCadence s i r).
Proof. intros; unfold checkCadence; crunch. Qed.

Lemma checkStroke_sound s i r : sound r -> sound (checkStroke s i r).
Proof. intros; unfold checkStroke; crunch. Qed.

Lemma checkElapsed_sound s i prev r : sound r -> sound (checkElapsed s i prev r).
Proof. intros; unfold checkElapsed; crunch. Qed.

Lemma validateSegment_sound s i prev : sound (validateSegment s i prev).
Proof.
  unfold validateSegment.
  destruct (notAnObject s); auto with sound.
  apply checkElapsed_sound, checkStroke_sound, checkCadence_sound,
    checkResistance_sound, checkActivity_sound, checkTime_sound,
    sound_newResult.
Qed.

Lemma absorb_sound sub r : sound sub -> sound r -> sound (absorb sub r).
Proof.
  intros Hsub Hr; unfold absorb.
  apply sound_pushWarnings.
  now apply (sound_merge (fun ms => ms)).
Qed.

Lemma checkEnds_sound items r : sound r -> sound (checkEnds items r).
Proof.
  intros Hr; unfold checkEnds; cbv zeta.
  match goal with
  | |- sound (match _ with JStr a => if _ then _ ?r1 else _ | _ => _ end) =>
      assert (sound r1) by crunch
  end.
  crunch.
Qed.

(** The loop returns a sound report, or throws at a [null] or [undefined]
    element. *)
Lemma segmentsLoop_sound items : forall i prev r,
  sound r ->
  match segmentsLoop items i prev r with
  | Returned r' => sound r'
  | Thrown _ => existsb nullish items = true
  end.
Proof.
  induction items as [| item rest IH]; intros i prev r Hr; simpl.
  - assumption.
  - destruct (nullish item) eqn:N; [ reflexivity | ].
    apply IH. auto using absorb_sound, validateSegment_sound.
Qed.

Lemma validateWorkoutDetails_sound d :
  match validateWorkoutDetails d with
  | Returned r => sound r
  | Thrown _ => exists items, d = JArr items /\ existsb nullish items = true
  end.
Proof.
  unfold validateWorkoutDetails.
  destruct d as [| | b | n | s | items | props]; try apply sound_fail.
  destruct items as [| item rest]; [ apply sound_fail | ].
  pose proof (segmentsLoop_sound (item :: rest) 0 0 sound_newResult) as H.
  unfold bind. destruct (segmentsLoop (item :: rest) 0 0 newResult).
  - now apply checkEnds_sound.
  - now exists (item :: rest).
Qed.

Lemma itemsLoop_sound validate kind items :
  (forall v, sound (validate v)) ->
  forall i r, sound r -> sound (itemsLoop validate kind items i r).
Proof.
  intros Hv; induction items as [| item rest IH]; intros i r Hr; simpl; [ assumption | ].
  apply IH, sound_pushWarnings.
  apply (sound_merge (prefixed _));
    [ apply prefixed_nil | reflexivity | apply Hv | exact Hr ].
Qed.

Lemma validateWorkoutsList_sound ws : sound (validateWorkoutsList ws).
Proof.
  unfold validateWorkoutsList.
  destruct ws as [| | b | n | s | items | props]; try apply sound_fail.
  apply itemsLoop_sound; [ apply validateWorkout_sound | ].
  destruct items; auto with sound.
Qed.

Lemma validateVideosList_sound vs : sound (validateVideosList vs).
Proof.
  unfold validateVideosList.
  destruct vs as [| | b | n | s | items | props]; try apply sound_fail.
  apply itemsLoop_sound; [ apply validateVideo_sound | ].
  destruct items; auto with sound.
Qed.

End ValidatorFacts.

(** ** The checks of a segment add to the report *)

Lemma appends_fail m : appends (fail m).
Proof. intros r; simpl; now rewrite app_nil_r, andb_false_r. Qed.

Lemma appends_pushWarning m : appends (pushWarning m).
Proof. intros r; simpl; now rewrite app_nil_r, andb_true_r. Qed.

Lemma appends_id : appends (fun r => r).
Proof. intros r; simpl; now rewrite !app_nil_r, andb_true_r. Qed.

Lemma appends_compose f g : appends f -> appends g -> appends (fun r => g (f r)).
Proof.
  intros Hf Hg r.
  destruct (Hg (f r)) as (E1 & W1 & V1), (Hf r) as (E2 & W2 & V2),
    (Hg (f newResult)) as (E3 & W3 & V3).
  rewrite E1, W1, V1, E2, W2, V2, E3, W3, V3, <- !app_assoc, <- andb_assoc.
  auto.
Qed.

Section SegmentFacts.

Context {P : Platform}.

Ltac split_check :=
  repeat match goal with
         | |- appends (fun r => match ?x with _ => _ end) => destruct x
         | |- appends (fun r => if ?b then _ else _) => destruct b
         end;
  first [ apply appends_fail | apply appends_pushWarning | apply appends_id ].

Lemma checkTime_appends s i : appends (checkTime s i).
Proof. unfold checkTime; split_check. Qed.

Lemma checkActivity_appends s i : appends (checkActivity s i).
Proof. unfold checkActivity; split_check. Qed.

Lemma checkResistance_appends s i : appends (checkResistance s i).
Proof. unfold checkResistance; split_check. Qed.

Lemma checkCadence_appends s i : appends (checkCadence s i).
Proof. unfold checkCadence; split_check. Qed.

Lemma checkStroke_appends s i : appends (checkStroke s i).
Proof. unfold checkStroke; split_check. Qed.

Lemma checkElapsed_appends s i prev : appends (checkElapsed s i prev).
Proof. unfold checkElapsed; split_check. Qed.

(** The report of an object: the contributions of the six checks, in the
    order of the checks. *)
Lemma validateSegment_errors s i prev :
  notAnObject s = false ->
  errors (validateSegment s i prev)
  = timeErrors s i ++ activityErrors s i ++ resistanceErrors s i
    ++ cadenceErrors s i ++ strokeErrors s i ++ elapsedErrors s i prev.
Proof.
  intros Hobj; unfold validateSegment; rewrite Hobj; cbv zeta.
  rewrite (proj1 (checkElapsed_appends s i prev _)),
    (proj1 (checkStroke_appends s i _)), (proj1 (checkCadence_appends s i _)),
    (proj1 (checkResistance_appends s i _)), (proj1 (checkActivity_appends s i _)).
  now rewrite <- !app_assoc.
Qed.

Lemma validateSegment_valid s i prev :
  notAnObject s = false ->
  valid (validateSegment s i prev)
  = valid (checkTime s i newResult) && valid (checkActivity s i newResult)
    && valid (checkResistance s i newResult) && valid (checkCadence s i newResult)
    && valid (checkStroke s i newResult) && valid (checkElapsed s i prev newResult).
Proof.
  intros Hobj; unfold validateSegment; rewrite Hobj; cbv zeta.
  rewrite (proj2 (proj2 (checkElapsed_appends s i prev _))),
    (proj2 (proj2 (checkStroke_appends s i _))),
    (proj2 (proj2 (checkCadence_appends s i _))),
    (proj2 (proj2 (checkResistance_appends s i _))),
    (proj2 (proj2 (checkActivity_appends s i _))).
  reflexivity.
Qed.

Lemma append_cancel p : forall x y, (p ++ x = p ++ y)%string -> x = y.
Proof.
  induction p as [| c p IH]; simpl; intros x y H; [ exact H | ].
  injection H as H. now apply IH.
Qed.

(** Messages about fields of different initials differ. *)
Lemma about_initial i c f d g m :
  about i (String c f) m -> about i (String d g) m -> c = d.
Proof.
  intros [rest ->] [rest' H]. unfold cat, segLabel, cat in H. simpl in H.
  repeat (injection H as H).
  apply append_cancel in H. now injection H.
Qed.

Ltac about_all :=
  repeat match goal with
         | |- In _ (errors (match ?x with _ => _ end)) -> _ => destruct x
         | |- In _ (errors (if ?b then _ else _)) -> _ => destruct b
         end;
  simpl; intros H; repeat (destruct H as [<- | H]); try contradiction;
  eexists; reflexivity.

Lemma timeErrors_about s i m : In m (timeErrors s i) -> about i "Time" m.
Proof. unfold timeErrors, checkTime. about_all. Qed.

Lemma activityErrors_about s i m :
  In m (activityErrors s i) -> about i "Activity" m.
Proof. unfold activityErrors, checkActivity. about_all. Qed.

Lemma resistanceErrors_about s i m :
  In m (resistanceErrors s i) -> about i "Resistance" m.
Proof.
  unfold resistanceErrors, checkResistance, resistanceTooLow, resistanceTooHigh.
  about_all.
Qed.

Lemma cadenceErrors_about s i m : In m (cadenceErrors s i) -> about i "Cadence" m.
Proof. unfold cadenceErrors, checkCadence. about_all. Qed.

Lemma strokeErrors_about s i m :
  In m (strokeErrors s i) -> about i "Stroke instruction" m.
Proof. unfold strokeErrors, checkStroke. about_all. Qed.

Lemma elapsedErrors_about s i prev m :
  In m (elapsedErrors s i prev) -> about i "Elapsed Time" m.
Proof.
  unfold elapsedErrors, checkElapsed, elapsedNotFinite, elapsedNegative,
    elapsedMismatch.
  about_all.
Qed.

(** In the report of an object, the errors about [Resistance] are those of
    the Resistance check. *)
Lemma resistance_errors_of_check s i prev m :
  notAnObject s = false ->
  In m (errors (validateSegment s i prev)) -> about i "Resistance" m ->
  In m (resistanceErrors s i).
Proof.
  intros Hobj Hin Habout. rewrite validateSegment_errors in Hin by assumption.
  repeat (apply in_app_or in Hin as [Hin | Hin]); try assumption.
  - apply timeErrors_about in Hin.
    discriminate (about_initial Hin Habout).
  - apply activityErrors_about in Hin.
    discriminate (about_initial Hin Habout).
  - apply cadenceErrors_about in Hin.
    discriminate (about_initial Hin Habout).
  - apply strokeErrors_about in Hin.
    discriminate (about_initial Hin Habout).
  - apply elapsedErrors_about in Hin.
    discriminate (about_initial Hin Habout).
Qed.

Lemma resistanceErrors_in_report s i prev m :
  notAnObject s = false ->
  In m (resistanceErrors s i) -> In m (errors (validateSegment s i prev)).
Proof.
  intros Hobj Hin. rewrite validateSegment_errors by assumption.
  apply in_or_app; right. apply in_or_app; right. apply in_or_app; now left.
Qed.

End SegmentFacts.

(** C7. For a segment object whose [Resistance] is a finite number [r],
    the report of [validateSegment] holds an error about [Resistance]
    exactly when [r < 1] or [r > 20], and it is then invalid: the error of a
    resistance below the minimum in the first case, of one above the
    maximum in the second. So 21 and 0 fail, and 20 and 1 pass the
    Resistance check. *)
Theorem resistance_checked_in_1_20 (P : Platform) seg idx prev r :
  notAnObject seg = false ->
  getProp seg "Resistance" = JNum r ->
  isFinite r = true ->
  let report := validateSegment seg idx prev in
  let flagged := exists m, In m (errors report) /\ about idx "Resistance" m in
  (flagged <-> (r <? 1)%float = true \/ (20 <? r)%float = true)
  /\ ((r <? 1)%float = true \/ (20 <? r)%float = true -> valid report = false)
  /\ ((r <? 1)%float = true -> In (resistanceTooLow idx r) (errors report))
  /\ ((r <? 1)%float = false -> (20 <? r)%float = true ->
      In (resistanceTooHigh idx r) (errors report))
  /\ (r = 21%float -> flagged /\ valid report = false)
  /\ (r = 20%float -> ~ flagged)
  /\ (r = 0%float -> flagged /\ valid report = false)
  /\ (r = 1%float -> ~ flagged).
Proof.
  intros Hobj Hr Hfin report flagged.
  assert (Hown : resistanceErrors seg idx
                 = if (r <? 1)%float then [resistanceTooLow idx r]
                   else if (20 <? r)%float then [resistanceTooHigh idx r] else []).
  { unfold resistanceErrors, checkResistance. rewrite Hr, Hfin. simpl.
    unfold CONSTRAINTS.minResistance, CONSTRAINTS.maxResistance.
    destruct (r <? 1)%float; [ reflexivity | ].
    destruct (20 <? r)%float; reflexivity. }
  assert (Hbad : (r <? 1)%float = true \/ (20 <? r)%float = true ->
                 valid report = false).
  { intros Hout. unfold report. rewrite validateSegment_valid by assumption.
    assert (V : valid (checkResistance seg idx newResult) = false).
    { unfold checkResistance. rewrite Hr, Hfin. simpl.
      unfold CONSTRAINTS.minResistance, CONSTRAINTS.maxResistance.
      destruct (r <? 1)%float; [ reflexivity | ].
      destruct (20 <? r)%float; [ reflexivity | ].
      destruct Hout; discriminate. }
    rewrite V. now rewrite !andb_false_r. }
  assert (Hiff : flagged <-> (r <? 1)%float = true \/ (20 <? r)%float = true).
  { unfold flagged, report. split.
    - intros (m & Hin & Habout).
      pose proof (resistance_errors_of_check _ _ Hobj Hin Habout) as Hm.
      rewrite Hown in Hm.
      destruct (r <? 1)%float; [ now left | ].
      destruct (20 <? r)%float; [ now right | contradiction ].
    - intros Hout.
      assert (Hne : exists m, In m (resistanceErrors seg idx)).
      { rewrite Hown. destruct (r <? 1)%float; [ eexists; now left | ].
        destruct (20 <? r)%float; [ eexists; now left | ].
        destruct Hout; discriminate. }
      destruct Hne as [m Hm]. exists m. split.
      + now apply resistanceErrors_in_report.
      + now apply (resistanceErrors_about seg). }
  split; [ exact Hiff | ].
  split; [ exact Hbad | ].
  split.
  { intros Hlow. apply resistanceErrors_in_report; [ assumption | ].
    rewrite Hown, Hlow. now left. }
  split.
  { intros Hlow Hhigh. apply resistanceErrors_in_report; [ assumption | ].
    rewrite Hown, Hlow, Hhigh. now left. }
  split.
  { intros E. assert (Hout : (r <? 1)%float = true \/ (20 <? r)%float = true)
      by (subst r; now right).
    split; [ now apply Hiff | now apply Hbad ]. }
  split.
  { intros E Hf. apply Hiff in Hf. subst r. destruct Hf; discriminate. }
  split.
  { intros E. assert (Hout : (r <? 1)%float = true \/ (20 <? r)%float = true)
      by (subst r; now left).
    split; [ now apply Hiff | now apply Hbad ]. }
  intros E Hf. apply Hiff in Hf. subst r. destruct Hf; discriminate.
Qed.

(** C7 on a segment of the reference platform whose resistance is 21. *)
Lemma resistance_checked_witness :
  let P := Reference.platform in
  let seg := segmentObject (Reference.segment 5 "Sprint" 21 80 5) in
  notAnObject seg = false
  /\ getProp seg "Resistance" = JNum 21
  /\ isFinite 21 = true
  /\ In (resistanceTooHigh 0 21) (errors (validateSegment seg 0 0))
  /\ resistanceTooHigh 0 21 = "Segment 0: Resistance 21 exceeds maximum 20"
  /\ valid (validateSegment seg 0 0) = false.
Proof.
  intros P seg.
  destruct (@resistance_checked_in_1_20 P seg 0%float 0%float 21%float
              eq_refl eq_refl eq_refl)
    as (_ & Hinvalid & _ & Hhigh & _).
  split; [ reflexivity | ]. split; [ reflexivity | ]. split; [ reflexivity | ].
  split; [ exact (Hhigh eq_refl eq_refl) | ].
  split; [ reflexivity | ].
  apply Hinvalid. now right.
Defined.

(** ** The loop of validateWorkoutDetails *)

Lemma lookup_assign_same k x props : lookup k (assign k x props) = x.
Proof.
  induction props as [| [k' v] rest IH]; simpl.
  - now rewrite String.eqb_refl.
  - destruct (String.eqb k k') eqn:E; simpl; rewrite E; [ reflexivity | exact IH ].
Qed.

Lemma lookup_assign_other k k' x props :
  String.eqb k' k = false -> lookup k' (assign k x props) = lookup k' props.
Proof.
  intros Hne; induction props as [| [k0 v] rest IH]; simpl.
  - now rewrite Hne.
  - destruct (String.eqb k k0) eqn:E; simpl.
    + apply String.eqb_eq in E; subst k0. now rewrite Hne.
    + now rewrite IH.
Qed.

Lemma counter_snoc (pre : list JsValue) item :
  counter (List.length (pre ++ [item])) = (counter (List.length pre) + 1)%float.
Proof. rewrite length_app, Nat.add_1_r; reflexivity. Qed.

Lemma runningSum_snoc pre item :
  runningSum (pre ++ [item]) = nextElapsed item (runningSum pre).
Proof. unfold runningSum; now rewrite fold_left_app. Qed.

Section LoopFacts.

Context {P : Platform}.

Lemma absorb_errors sub r : errors (absorb sub r) = errors r ++ errors sub.
Proof. unfold absorb; destruct (valid sub); reflexivity. Qed.

Lemma checkEnds_errors items r : errors (checkEnds items r) = errors r.
Proof.
  unfold checkEnds; cbv zeta.
  repeat match goal with
         | |- context [match ?x with _ => _ end] => destruct x; simpl
         end; reflexivity.
Qed.

Lemma segmentsLoop_returns items : forall i prev r,
  existsb nullish items = false ->
  exists r', segmentsLoop items i prev r = Returned r'
             /\ errors r' = errors r ++ errorsFrom items i prev.
Proof.
  induction items as [| item rest IH]; intros i prev r Hnull; simpl in *.
  - exists r; now rewrite app_nil_r.
  - apply orb_false_iff in Hnull as [Hitem Hrest]. rewrite Hitem.
    destruct (IH (i + 1)%float (nextElapsed item prev)
                 (absorb (validateSegment item i prev) r) Hrest) as (r' & Hrun & He).
    exists r'; split; [ exact Hrun | ].
    rewrite He, absorb_errors, <- app_assoc. reflexivity.
Qed.

Lemma segmentsLoop_no_null items : forall i prev r r',
  segmentsLoop items i prev r = Returned r' -> existsb nullish items = false.
Proof.
  induction items as [| item rest IH]; intros i prev r r' H; simpl in *; [ reflexivity | ].
  destruct (nullish item); [ discriminate | ]. simpl. eauto.
Qed.

Lemma errorsFrom_segmentErrors rest : forall pre,
  errorsFrom rest (counter (List.length pre)) (runningSum pre) = segmentErrors pre rest.
Proof.
  unfold errorsFrom.
  induction rest as [| item rest IH]; intros pre; simpl; [ reflexivity | ].
  f_equal. rewrite <- IH, counter_snoc, runningSum_snoc. reflexivity.
Qed.

Lemma segmentErrors_app pre : forall pre0 rest,
  segmentErrors pre0 (pre ++ rest)
  = segmentErrors pre0 pre ++ segmentErrors (pre0 ++ pre) rest.
Proof.
  induction pre as [| item pre IH]; intros pre0 rest; simpl.
  - now rewrite app_nil_r.
  - rewrite IH, <- !app_assoc. reflexivity.
Qed.

(** The errors of later segments depend on the earlier ones only through
    their number and the sum of their [Time] fields. *)
Lemma segmentErrors_ext rest : forall pre pre',
  List.length pre = List.length pre' -> runningSum pre = runningSum pre' ->
  segmentErrors pre rest = segmentErrors pre' rest.
Proof.
  induction rest as [| item rest IH]; intros pre pre' Hlen Hsum; simpl; [ reflexivity | ].
  rewrite Hlen, Hsum. f_equal. apply IH.
  - rewrite !length_app, Hlen; reflexivity.
  - rewrite !runningSum_snoc, Hsum; reflexivity.
Qed.

(** On an array that is not empty, [validateWorkoutDetails] returns exactly
    when no element is [null] or [undefined], and its errors are those of
    the segments. *)
Lemma validateWorkoutDetails_returned items r :
  items <> [] -> validateWorkoutDetails (JArr items) = Returned r ->
  existsb nullish items = false /\ errors r = segmentErrors [] items.
Proof.
  intros Hne H. unfold validateWorkoutDetails in H.
  destruct items as [| item rest]; [ congruence | ].
  unfold bind in H.
  destruct (segmentsLoop (item :: rest) 0 0 newResult) as [r1 |] eqn:Hloop;
    [ | discriminate ].
  injection H as <-.
  pose proof (segmentsLoop_no_null _ _ _ _ Hloop) as Hnull.
  split; [ exact Hnull | ].
  destruct (segmentsLoop_returns (item :: rest) 0 0 newResult Hnull)
    as (r' & Hrun & He).
  rewrite Hloop in Hrun; injection Hrun as <-.
  rewrite checkEnds_errors, He. simpl errors at 1. simpl app at 1.
  exact (errorsFrom_segmentErrors (item :: rest) []).
Qed.

Lemma validateWorkoutDetails_returns items :
  items <> [] -> existsb nullish items = false ->
  exists r, validateWorkoutDetails (JArr items) = Returned r
            /\ errors r = segmentErrors [] items
            /\ (valid r = false <-> segmentErrors [] items <> []).
Proof.
  intros Hne Hnull.
  destruct (segmentsLoop_returns items 0 0 newResult Hnull) as (r1 & Hrun & _).
  assert (H : validateWorkoutDetails (JArr items) = Returned (checkEnds items r1)).
  { unfold validateWorkoutDetails. destruct items; [ congruence | ].
    unfold bind. now rewrite Hrun. }
  exists (checkEnds items r1). split; [ exact H | ].
  destruct (validateWorkoutDetails_returned Hne H) as [_ He].
  split; [ exact He | ].
  rewrite <- He.
  pose proof (validateWorkoutDetails_sound (JArr items)) as Hs.
  rewrite H in Hs. exact Hs.
Qed.

End LoopFacts.

(** ** Changing the elapsed time of one segment *)

Section ElapsedFacts.

Context {P : Platform}.

Variable o : list (string * JsValue).
Variable x : JsValue.

Let changed : JsValue := setProp (JObj o) "Elapsed Time" x.

Lemma changed_other field :
  String.eqb field "Elapsed Time" = false ->
  getProp changed field = getProp (JObj o) field.
Proof. intros H; simpl; now apply lookup_assign_other. Qed.

Lemma changed_elapsed : getProp changed "Elapsed Time" = x.
Proof. simpl; apply lookup_assign_same. Qed.

Lemma changed_timeErrors i : timeErrors changed i = timeErrors (JObj o) i.
Proof. unfold timeErrors, checkTime; now rewrite changed_other. Qed.

Lemma changed_activityErrors i : activityErrors changed i = activityErrors (JObj o) i.
Proof. unfold activityErrors, checkActivity; now rewrite changed_other. Qed.

Lemma changed_resistanceErrors i :
  resistanceErrors changed i = resistanceErrors (JObj o) i.
Proof. unfold resistanceErrors, checkResistance; now rewrite changed_other. Qed.

Lemma changed_cadenceErrors i : cadenceErrors changed i = cadenceErrors (JObj o) i.
Proof. unfold cadenceErrors, checkCadence; now rewrite changed_other. Qed.

Lemma changed_strokeErrors i : strokeErrors changed i = strokeErrors (JObj o) i.
Proof. unfold strokeErrors, checkStroke; now rewrite changed_other. Qed.

Lemma changed_nextElapsed prev : nextElapsed changed prev = nextElapsed (JObj o) prev.
Proof. unfold nextElapsed; now rewrite changed_other. Qed.

(** A segment without an error keeps all its checks but the last when its
    elapsed time changes. *)
Lemma changed_errors i prev :
  errors (validateSegment (JObj o) i prev) = [] ->
  errors (validateSegment changed i prev) = elapsedErrors changed i prev.
Proof.
  intros Hok.
  rewrite validateSegment_errors in Hok by reflexivity.
  rewrite validateSegment_errors by reflexivity.
  rewrite changed_timeErrors, changed_activityErrors, changed_resistanceErrors,
    changed_cadenceErrors, changed_strokeErrors.
  repeat (apply app_eq_nil in Hok; destruct Hok as [-> Hok]).
  reflexivity.
Qed.

End ElapsedFacts.

Section MutationFacts.

Context {P : Platform}.

Lemma timeErrors_nil s i :
  timeErrors s i = [] ->
  exists t, getProp s "Time" = JNum t /\ isFinite t = true.
Proof.
  unfold timeErrors, checkTime.
  destruct (getProp s "Time") as [| | b | t | str | l | props]; try discriminate.
  intros H. exists t; split; [ reflexivity | ].
  destruct (isFinite t); [ reflexivity | discriminate H ].
Qed.

(** The contribution of the Elapsed Time check for an elapsed time [w], in a
    segment of finite duration [t]. *)
Lemma elapsedErrors_number s i prev w t :
  getProp s "Elapsed Time" = JNum w ->
  getProp s "Time" = JNum t -> isFinite t = true ->
  elapsedErrors s i prev
  = if negb (isFinite w) then [elapsedNotFinite i]
    else if (w <? 0)%float then [elapsedNegative i w]
    else if (120 <? w)%float then []
    else if negb (w =? prev + t)%float then [elapsedMismatch i prev w t]
    else [].
Proof.
  intros Hw Ht Hfin. unfold elapsedErrors, checkElapsed.
  rewrite Hw, Ht, Hfin. unfold CONSTRAINTS.maxElapsedTime. cbv zeta.
  destruct (isFinite w); simpl; [ | reflexivity ].
  destruct (w <? 0)%float; [ reflexivity | ].
  destruct (120 <? w)%float; [ reflexivity | ].
  destruct (w =? prev + t)%float; reflexivity.
Qed.

(** A valid array of which one segment gets another elapsed time: the
    report holds the errors of the Elapsed Time check of that segment and
    no other. *)
Lemma one_elapsed_changed pre o post w r0 :
  validateWorkoutDetails (JArr (pre ++ JObj o :: post)) = Returned r0 ->
  valid r0 = true ->
  exists t r',
    getProp (JObj o) "Time" = JNum t /\ isFinite t = true
    /\ validateWorkoutDetails
         (JArr (pre ++ setProp (JObj o) "Elapsed Time" (JNum w) :: post))
       = Returned r'
    /\ errors r'
       = elapsedErrors (setProp (JObj o) "Elapsed Time" (JNum w))
                       (counter (List.length pre)) (runningSum pre)
    /\ (valid r' = false <-> errors r' <> []).
Proof.
  intros H0 V0.
  set (item' := setProp (JObj o) "Elapsed Time" (JNum w)).
  assert (Hne : forall it, pre ++ it :: post <> []) by (intros it; destruct pre; discriminate).
  destruct (validateWorkoutDetails_returned (Hne _) H0) as [Hnull He0].
  pose proof (validateWorkoutDetails_sound (JArr (pre ++ JObj o :: post))) as Hs.
  rewrite H0 in Hs. pose proof (sound_valid_true Hs V0) as Hnil.
  rewrite He0, segmentErrors_app in Hnil. simpl in Hnil.
  apply app_eq_nil in Hnil as [Hpre Hnil].
  apply app_eq_nil in Hnil as [Hitem Hpost].
  rewrite validateSegment_errors in Hitem by reflexivity.
  pose proof Hitem as Htime. apply app_eq_nil in Htime as [Htime _].
  destruct (timeErrors_nil _ _ Htime) as (t & Ht & Hfin).
  assert (Hnull' : existsb nullish (pre ++ item' :: post) = false).
  { rewrite existsb_app in *. simpl in *. exact Hnull. }
  destruct (validateWorkoutDetails_returns (Hne item') Hnull') as (r' & Hrun & He & Hv).
  exists t, r'. repeat split; try assumption.
  - rewrite He, segmentErrors_app. simpl. rewrite Hpre. simpl.
    rewrite (segmentErrors_ext post (pre ++ [item']) (pre ++ [JObj o])), Hpost, app_nil_r.
    + apply changed_errors. now rewrite validateSegment_errors by reflexivity.
    + now rewrite !length_app.
    + rewrite !runningSum_snoc. apply changed_nextElapsed.
  - rewrite He; apply Hv.
  - rewrite He; apply Hv.
Qed.

End MutationFacts.

(** C1, the failing input. A segment of 10 minutes whose elapsed time is
    130, validated with no time elapsed before it: the warning about the
    long workout stands in the way of the consistency check, and the report
    is valid with no error, although 130 is not 0 + 10. *)
Theorem long_workout_skips_consistency_check (P : Platform) :
  validateSegment (segmentObject (mkSegment 10 "Warm-up" 5 80 "Easy" 130)) 0 0
  = mkResult true [] [elapsedWarning 0 130]
  /\ (130 =? 0 + 10)%float = false.
Proof. split; reflexivity. Qed.

(** C2, as amended. The errors of [validateWorkoutDetails] on an array are
    those of its segments, each validated under the sum of the [Time]
    fields of the segments before it. So when one segment of a valid array
    gets another elapsed time [w], the report holds one error, of that
    segment: the consistency error when [w] is finite, within 0 and 120 and
    not the sum expected; the error of a negative, or of a not finite,
    elapsed time when [w] is one. *)
Theorem wrong_elapsed_time_fails_alone (P : Platform) :
  (forall items r,
      items <> [] -> validateWorkoutDetails (JArr items) = Returned r ->
      errors r = segmentErrors [] items)
  /\ (forall pre o post w r0,
         validateWorkoutDetails (JArr (pre ++ JObj o :: post)) = Returned r0 ->
         valid r0 = true ->
         let i := counter (List.length pre) in
         let prev := runningSum pre in
         exists t r',
           getProp (JObj o) "Time" = JNum t
           /\ validateWorkoutDetails
                (JArr (pre ++ setProp (JObj o) "Elapsed Time" (JNum w) :: post))
              = Returned r'
           /\ (isFinite w = true -> (w <? 0)%float = false ->
               (120 <? w)%float = false -> (w =? prev + t)%float = false ->
               valid r' = false /\ errors r' = [elapsedMismatch i prev w t])
           /\ (isFinite w = true -> (w <? 0)%float = true ->
               valid r' = false /\ errors r' = [elapsedNegative i w])
           /\ (isFinite w = false ->
               valid r' = false /\ errors r' = [elapsedNotFinite i])).
Proof.
  split.
  { intros items r Hne H. now apply validateWorkoutDetails_returned. }
  intros pre o post w r0 H0 V0 i prev.
  destruct (one_elapsed_changed pre o post w H0 V0)
    as (t & r' & Ht & Hfin & Hrun & He & Hv).
  exists t, r'. split; [ exact Ht | ]. split; [ exact Hrun | ].
  rewrite (elapsedErrors_number _ _ _ (w := w) (t := t)) in He;
    [ | apply changed_elapsed | rewrite changed_other; [ exact Ht | reflexivity ]
      | exact Hfin ].
  fold i prev in He.
  assert (Hbad : forall m, errors r' = [m] -> valid r' = false /\ errors r' = [m]).
  { intros m Hm. split; [ apply Hv; rewrite Hm; discriminate | exact Hm ]. }
  split; [ | split ].
  - intros F N L W. apply Hbad. now rewrite He, F, N, L, W.
  - intros F N. apply Hbad. now rewrite He, F, N.
  - intros F. apply Hbad. now rewrite He, F.
Qed.

(** The amended C2 on the reference timeline: the elapsed time of its
    second segment, 15, becomes 16. *)
Lemma wrong_elapsed_time_witness :
  let P := Reference.platform in
  let items := map segmentObject Reference.timeline in
  validateWorkoutDetails (JArr items) = Returned (mkResult true [] [])
  /\ exists r',
      validateWorkoutDetails
        (JArr (firstn 1 items
               ++ setProp (nth 1 items JNull) "Elapsed Time" (JNum 16)
               :: skipn 2 items))
      = Returned r'
      /\ valid r' = false
      /\ errors r' = [elapsedMismatch 1 5 16 10].
Proof.
  intros P items. split; [ reflexivity | ].
  destruct (proj2 (wrong_elapsed_time_fails_alone P)
                  (firstn 1 items)
                  [ ("Time", JNum 10); ("Activity", JStr "Intervals");
                    ("Resistance", JNum 12); ("Cadence", JNum 95);
                    ("Stroke instruction", JStr "Steady");
                    ("Elapsed Time", JNum 15) ]
                  (skipn 2 items) 16%float (mkResult true [] [])
                  eq_refl eq_refl)
    as (t & r' & Ht & Hrun & Hmismatch & _).
  injection Ht as <-.
  exists r'. split; [ exact Hrun | ].
  exact (Hmismatch eq_refl eq_refl eq_refl eq_refl).
Defined.

(** C2 as stated fails: the elapsed time of the first segment of the
    reference timeline becomes -5. The segment fails, with the error of a
    negative elapsed time; the consistency error is not reported. *)
Lemma negative_elapsed_time_not_a_consistency_error :
  let P := Reference.platform in
  let items := map segmentObject Reference.timeline in
  let changed :=
    setProp (nth 0 items JNull) "Elapsed Time" (JNum (-5)) :: skipn 1 items in
  validateWorkoutDetails (JArr items) = Returned (mkResult true [] [])
  /\ validateWorkoutDetails (JArr changed)
     = Returned (mkResult false [elapsedNegative 0 (-5)] [])
  /\ elapsedNegative 0 (-5) = "Segment 0: Elapsed Time -5 cannot be negative"
  /\ ~ In (elapsedMismatch 0 0 (-5) 5) [elapsedNegative 0 (-5)].
Proof.
  cbv zeta. repeat split; try reflexivity.
  vm_compute. intros [H | []]. discriminate H.
Qed.

(** ** The loader against its checks in words *)

Section LoaderFacts.

Context {P : Platform}.

Ltac close :=
  try (simpl;
       repeat match goal with
              | H : getProp _ _ = _ |- _ => rewrite H
              end;
       reflexivity).

Ltac field f :=
  match goal with
  | |- context [getProp ?item f] => destruct (getProp item f) eqn:?
  end; simpl; close.

Ltac test :=
  match goal with
  | |- context [if ?b then _ else _] => destruct b eqn:?
  end; simpl; close.

Lemma loadSegment_defect path i item :
  loadSegment path i item
  = match defect item with
    | None => Returned (typedSegment item)
    | Some d => Thrown (defectError path i item d)
    end.
Proof.
  unfold loadSegment, defect, typedSegment.
  destruct (notAnObject item); [ reflexivity | ].
  unfold finiteNumber, stringField, numberDefect, stringDefect, unless, bind.
  simpl.
  field "Time". test. test.
  field "Activity".
  field "Resistance". test. test.
  field "Cadence". test. test.
  field "Stroke instruction".
  field "Elapsed Time". test. test.
Qed.

Lemma firstSome_none {A} (l : list (option A)) :
  firstSome l = None -> Forall (fun x => x = None) l.
Proof.
  induction l as [| [a |] rest IH]; simpl; intros H; [ constructor | discriminate | ].
  constructor; auto.
Qed.

(** An element without a defect is read field by field into a segment
    within the loader's ranges. *)
Lemma defect_none item :
  defect item = None ->
  fetchable item (typedSegment item) /\ loaderRanges (typedSegment item) = true.
Proof.
  unfold defect, fetchable, loaderRanges, typedSegment.
  destruct (notAnObject item); [ discriminate | ].
  intros H; apply firstSome_none in H.
  repeat match goal with
         | H : Forall _ (_ :: _) |- _ => inversion H; subst; clear H
         end.
  unfold numberDefect, stringDefect in *; simpl.
  repeat match goal with
         | H : match getProp item ?f with _ => _ end = None |- _ =>
             destruct (getProp item f); try discriminate H
         end.
  simpl.
  repeat match goal with
         | H : (if isFinite ?x then _ else _) = None |- _ =>
             destruct (isFinite x); [ | discriminate H ]
         end.
  repeat match goal with
         | H : (if ?b then _ else _) = None |- _ =>
             destruct b eqn:?; [ discriminate H | clear H ]
         end.
  repeat match goal with
         | H : (_ || _) = false |- _ => apply orb_false_iff in H as [? ?]
         end.
  repeat match goal with
         | H : _ = false |- _ => rewrite H
         end.
  simpl. repeat split; reflexivity.
Qed.

Lemma firstDefect_spec items : forall k j item d,
  firstDefect items k = Some (j, item, d) ->
  (k <= j)%nat /\ nth_error items (j - k) = Some item /\ defect item = Some d
  /\ forall n item', (n < j - k)%nat -> nth_error items n = Some item' ->
                     defect item' = None.
Proof.
  induction items as [| it rest IH]; intros k j item d H; simpl in H; [ discriminate | ].
  destruct (defect it) as [d' |] eqn:Hd.
  - injection H as <- <- <-. rewrite Nat.sub_diag. repeat split; auto.
    intros n item' Hn; lia.
  - apply IH in H as (Hle & Hnth & Hdef & Hfirst).
    replace (j - k)%nat with (S (j - S k)) by lia.
    repeat split; auto; [ lia | ].
    intros [| n] item' Hn Hit; simpl in Hit.
    + now injection Hit as <-.
    + apply (Hfirst n); [ lia | exact Hit ].
Qed.

Lemma firstDefect_none items : forall k,
  firstDefect items k = None -> Forall (fun item => defect item = None) items.
Proof.
  induction items as [| it rest IH]; intros k H; simpl in H; [ constructor | ].
  destruct (defect it) eqn:Hd; [ discriminate | ].
  constructor; eauto.
Qed.

Lemma collect_load path items : forall k,
  collect (loadSegment path) items (counter k)
  = match firstDefect items k with
    | None => Returned (map typedSegment items)
    | Some (j, item, d) => Thrown (defectError path (counter j) item d)
    end.
Proof.
  induction items as [| it rest IH]; intros k; simpl; [ reflexivity | ].
  rewrite loadSegment_defect.
  destruct (defect it) as [d |]; simpl; [ reflexivity | ].
  change (counter k + 1)%float with (counter (S k)). rewrite IH.
  destruct (firstDefect rest (S k)) as [[[j item] d] |]; reflexivity.
Qed.

Lemma defectError_names path i item d :
  filePath (defectError path i item d) = path
  /\ match d with
     | NotObject =>
         leMessage (defectError path i item d)
         = cat ["Segment at index "; showNum i; " is not an object"]
     | Mistyped field | OutOfRange field =>
         names (leMessage (defectError path i item d)) i field
     end.
Proof.
  split; [ destruct d; reflexivity | ].
  destruct d as [| field | field]; [ reflexivity | | ]; unfold names; simpl.
  - eexists. unfold cat. simpl. reflexivity.
  - eexists. unfold cat. simpl. reflexivity.
Qed.

End LoaderFacts.

Section LoaderElapsed.

Context {P : Platform}.

(** An element without a defect keeps none under any elapsed time that is
    finite and not negative. *)
Lemma defect_any_elapsed o e :
  defect (JObj o) = None -> isFinite e = true -> (e <? 0)%float = false ->
  defect (setProp (JObj o) "Elapsed Time" (JNum e)) = None.
Proof.
  intros H Hfin Hneg. unfold defect in *.
  change (notAnObject (setProp (JObj o) "Elapsed Time" (JNum e))) with false.
  change (notAnObject (JObj o)) with false in H. cbv iota in *.
  apply firstSome_none in H.
  repeat match goal with
         | H : Forall _ (_ :: _) |- _ => inversion H; subst; clear H
         end.
  unfold numberDefect, stringDefect in *.
  rewrite changed_elapsed, !changed_other by reflexivity.
  repeat match goal with
         | H : _ = None |- _ => rewrite H; clear H
         end.
  rewrite Hfin, Hneg. reflexivity.
Qed.

End LoaderElapsed.

(** C8. When the file parses to an array, [loadWorkoutDetails] throws a
    [DataLoadError] if the array is empty, and otherwise looks for the first
    element with a defect (no object; a required field missing, of the
    wrong type or not finite; [Time] at or below 0; [Resistance] outside 0
    to 20; [Cadence] outside 0 to 150; a negative [Elapsed Time]): it throws
    an error for the file whose message names the index of that element and
    the field (the index only, for an element that is no object), and
    returns the typed segments when there is none. An accepted element
    stays accepted under any finite elapsed time that is not negative, and
    the defect of an element does not depend on the other elements. *)
Theorem loadWorkoutDetails_checks (P : Platform) fs path items :
  loadJsonFile fs path = Returned (JArr items) ->
  match items with
  | [] =>
      loadWorkoutDetails fs path
      = Thrown (mkLoadError "Workout details array is empty" path None)
  | _ :: _ =>
      match firstDefect items 0 with
      | None => loadWorkoutDetails fs path = Returned (map typedSegment items)
      | Some (k, item, d) =>
          nth_error items k = Some item /\ defect item = Some d
          /\ (forall j item', (j < k)%nat -> nth_error items j = Some item' ->
                              defect item' = None)
          /\ exists e,
               loadWorkoutDetails fs path = Thrown e /\ filePath e = path
               /\ match d with
                  | NotObject =>
                      leMessage e
                      = cat ["Segment at index "; showNum (counter k);
                             " is not an object"]
                  | Mistyped field | OutOfRange field =>
                      names (leMessage e) (counter k) field
                  end
      end
  end
  /\ (forall o e,
         defect (JObj o) = None -> isFinite e = true -> (e <? 0)%float = false ->
         defect (setProp (JObj o) "Elapsed Time" (JNum e)) = None).
Proof.
  intros Hfile. split; [ | intros o e; apply defect_any_elapsed ].
  unfold loadWorkoutDetails, bind. rewrite Hfile.
  destruct items as [| it rest]; [ reflexivity | ].
  unfold loadWorkoutDetailsOf.
  change 0%float with (counter 0). rewrite collect_load.
  destruct (firstDefect (it :: rest) 0) as [[[k item] d] |] eqn:Hfirst;
    [ | reflexivity ].
  apply firstDefect_spec in Hfirst as (_ & Hnth & Hdef & Hbefore).
  rewrite Nat.sub_0_r in *.
  repeat split; try assumption.
  exists (defectError path (counter k) item d).
  split; [ reflexivity | ]. apply defectError_names.
Qed.

(** C8 on the reference file system: the second segment of the file
    /data/steep.json has resistance 25. *)
Lemma loadWorkoutDetails_checks_witness :
  let P := Reference.platform in
  loadJsonFile Reference.fs "/data/steep.json"
  = Returned (JArr (map segmentObject Reference.steepTimeline))
  /\ exists e,
      loadWorkoutDetails Reference.fs "/data/steep.json" = Thrown e
      /\ names (leMessage e) 1 "Resistance".
Proof.
  intros P. split; [ reflexivity | ].
  destruct (loadWorkoutDetails_checks P Reference.fs "/data/steep.json"
              (items := map segmentObject Reference.steepTimeline) eq_refl)
    as [H _].
  destruct H as (_ & _ & _ & e & Hthrown & _ & Hnames).
  exists e. split; [ exact Hthrown | exact Hnames ].
Defined.

(** ** Validating what the loader returned *)

Section RoundTrip.

Context {P : Platform}.

Lemma loaded_ranges fs path segments :
  loadWorkoutDetails fs path = Returned segments ->
  segments <> [] /\ Forall (fun s => loaderRanges s = true) segments.
Proof.
  unfold loadWorkoutDetails, bind, loadWorkoutDetailsOf.
  destruct (loadJsonFile fs path) as [data |]; [ | discriminate ].
  destruct data as [| | b | n | s | items | props]; try discriminate.
  destruct items as [| it rest]; [ discriminate | ].
  change 0%float with (counter 0). rewrite collect_load.
  destruct (firstDefect (it :: rest) 0) as [[[k item] d] |] eqn:Hfirst;
    [ discriminate | ].
  intros H; injection H as <-. split; [ discriminate | ].
  apply firstDefect_none in Hfirst.
  change (typedSegment it :: map typedSegment rest)
    with (map typedSegment (it :: rest)).
  induction Hfirst as [| item l Hd _ IH]; simpl; constructor;
    [ now apply defect_none | exact IH ].
Qed.

(** A loaded segment that passes the stricter checks has no error. *)
Lemma loaded_segment_clean s i prev :
  loaderRanges s = true ->
  (Time s <? 1)%float = false ->
  String.eqb (trim (Activity s)) "" = false ->
  (Resistance s <? 1)%float = false ->
  (Cadence s <? 30)%float = false ->
  (Elapsed_Time s =? prev + Time s)%float = true ->
  errors (validateSegment (segmentObject s) i prev) = [].
Proof.
  unfold loaderRanges. intros Hr HT HA HR HC HE.
  repeat match goal with
         | H : _ && _ = true |- _ => apply andb_prop in H as [? ?]
         | H : negb _ = true |- _ => apply negb_true_iff in H
         end.
  unfold validateSegment, checkTime, checkActivity, checkResistance,
    checkCadence, checkStroke, checkElapsed.
  unfold CONSTRAINTS.minTime, CONSTRAINTS.maxTime, CONSTRAINTS.minResistance,
    CONSTRAINTS.maxResistance, CONSTRAINTS.minCadence, CONSTRAINTS.maxCadence,
    CONSTRAINTS.maxElapsedTime.
  simpl.
  repeat match goal with
         | H : _ = true |- _ => rewrite H
         | H : _ = false |- _ => rewrite H
         end.
  simpl.
  repeat match goal with
         | |- context [if ?b then _ else _] => destruct b; simpl
         end; reflexivity.
Qed.

Lemma loaded_nextElapsed s prev :
  loaderRanges s = true ->
  nextElapsed (segmentObject s) prev = (prev + Time s)%float.
Proof.
  unfold loaderRanges, nextElapsed; simpl. intros H.
  destruct (isFinite (Time s)); [ reflexivity | discriminate H ].
Qed.

Lemma strict_segments_clean segments : forall pre,
  Forall (fun s => loaderRanges s = true) segments ->
  strictFrom (runningSum pre) segments = true ->
  segmentErrors pre (map segmentObject segments) = [].
Proof.
  induction segments as [| s rest IH]; intros pre Hr Hs; simpl; [ reflexivity | ].
  inversion Hr as [| ? ? Hs0 Hrest]; subst.
  simpl in Hs.
  repeat match goal with
         | H : _ && _ = true |- _ => apply andb_prop in H as [? ?]
         | H : negb _ = true |- _ => apply negb_true_iff in H
         end.
  rewrite loaded_segment_clean by assumption. simpl.
  apply IH; [ assumption | ].
  now rewrite runningSum_snoc, loaded_nextElapsed.
Qed.

Lemma segmentObjects_not_null segments :
  existsb nullish (map segmentObject segments) = false.
Proof. induction segments; simpl; auto. Qed.

End RoundTrip.

(** C3, as amended. On what [loadWorkoutDetails] returned,
    [validateWorkoutDetails] returns a report; the report is valid and has
    no error when every loaded segment also passes the stricter checks of
    the validator: a [Time] of at least 1, an [Activity] that is not blank, a
    [Resistance] of at least 1, a [Cadence] of at least 30 and an [Elapsed
    Time] that is the sum of the [Time] fields up to it. *)
Theorem loaded_and_strict_validates (P : Platform) fs path segments :
  loadWorkoutDetails fs path = Returned segments ->
  exists r,
    validateWorkoutDetails (JArr (map segmentObject segments)) = Returned r
    /\ (strictFrom 0 segments = true -> valid r = true /\ errors r = []).
Proof.
  intros Hload. destruct (loaded_ranges _ _ Hload) as [Hne Hranges].
  assert (Hne' : map segmentObject segments <> [])
    by (destruct segments; [ congruence | discriminate ]).
  destruct (validateWorkoutDetails_returns Hne' (segmentObjects_not_null segments))
    as (r & Hrun & He & Hv).
  exists r. split; [ exact Hrun | ].
  intros Hstrict.
  assert (Hclean : segmentErrors [] (map segmentObject segments) = [])
    by (apply strict_segments_clean; assumption).
  split; [ | now rewrite He ].
  destruct (valid r); [ reflexivity | ].
  destruct Hv as [Hv _]. now destruct (Hv eq_refl).
Qed.

(** The amended C3 on the reference file /data/timeline.json. *)
Lemma loaded_and_strict_validates_witness :
  let P := Reference.platform in
  loadWorkoutDetails Reference.fs "/data/timeline.json" = Returned Reference.timeline
  /\ strictFrom 0 Reference.timeline = true
  /\ exists r,
      validateWorkoutDetails (JArr (map segmentObject Reference.timeline))
      = Returned r
      /\ valid r = true /\ errors r = [].
Proof.
  intros P. split; [ reflexivity | ]. split; [ reflexivity | ].
  destruct (loaded_and_strict_validates P Reference.fs "/data/timeline.json"
              (segments := Reference.timeline) eq_refl)
    as (r & Hrun & Hvalid).
  exists r. split; [ exact Hrun | exact (Hvalid eq_refl) ].
Defined.

(** C3 as stated fails: the loader accepts the reference file
    /data/easy.json, whose first segment has resistance 0, and the
    validator, which wants a resistance of at least 1, finds the loaded
    timeline invalid. *)
Lemma loaded_easy_timeline_is_invalid :
  let P := Reference.platform in
  loadWorkoutDetails Reference.fs "/data/easy.json" = Returned Reference.easyTimeline
  /\ validateWorkoutDetails (JArr (map segmentObject Reference.easyTimeline))
     = Returned (mkResult false [resistanceTooLow 0 0] [])
  /\ resistanceTooLow 0 0 = "Segment 0: Resistance 0 is less than minimum 1".
Proof. cbv zeta. repeat split; reflexivity. Qed.

(** ** The checks of fetchWorkoutDetails against those of loadWorkoutDetails *)

Section FetchFacts.

Context {P : Platform}.

Lemma fetchSegment_fetchable url i item s :
  fetchSegment url i item = Returned s <-> fetchable item s.
Proof.
  unfold fetchSegment, fetchable, bind. split.
  - intros H. destruct (notAnObject item); [ discriminate | ].
    destruct (getProp item "Time") as [| | | t | | |]; try discriminate.
    destruct (t <=? 0)%float eqn:Ht; [ discriminate | ].
    destruct (getProp item "Activity") as [| | | | a | |]; try discriminate.
    destruct (getProp item "Resistance") as [| | | r | | |]; try discriminate.
    destruct (getProp item "Cadence") as [| | | c | | |]; try discriminate.
    destruct (getProp item "Stroke instruction") as [| | | | st | |];
      try discriminate.
    destruct (getProp item "Elapsed Time") as [| | | e | | |]; try discriminate.
    injection H as <-. simpl. repeat split; assumption.
  - intros (Hobj & HT & Hpos & HA & HR & HC & HS & HE).
    rewrite Hobj, HT, Hpos, HA, HR, HC, HS, HE. now destruct s.
Qed.

Lemma load_then_fetch path url i item s :
  loadSegment path i item = Returned s -> fetchSegment url i item = Returned s.
Proof.
  rewrite loadSegment_defect. destruct (defect item) eqn:Hd; [ discriminate | ].
  intros H; injection H as <-.
  apply fetchSegment_fetchable. now apply defect_none.
Qed.

Lemma collect_load_then_fetch path url items : forall i segments,
  collect (loadSegment path) items i = Returned segments ->
  collect (fetchSegment url) items i = Returned segments.
Proof.
  induction items as [| item rest IH]; intros i segments; simpl; [ trivial | ].
  unfold bind.
  destruct (loadSegment path i item) as [s |] eqn:Hs; [ | discriminate ].
  rewrite (@load_then_fetch path url i item s Hs).
  destruct (collect (loadSegment path) rest (i + 1)%float) as [l |] eqn:Hl;
    [ | discriminate ].
  now rewrite (IH _ _ Hl).
Qed.

End FetchFacts.

(** C10. Whatever the checks of [loadWorkoutDetails] accept, those of
    [fetchWorkoutDetails] accept, with the same segments; not conversely.
    [fetchWorkoutDetails] reads an element exactly when it is an object
    whose six fields have their types and whose [Time] is not at or below
    0: it accepts a resistance of 100, a negative elapsed time, a [Time]
    that is not a number ([NaN]) and an empty array, all of which
    [loadWorkoutDetails] refuses. *)
Theorem fetch_checks_are_looser (P : Platform) path url :
  (forall data segments,
      loadWorkoutDetailsOf path data = Returned segments ->
      fetchWorkoutDetailsOf url data = Returned segments)
  /\ (forall i item s,
         loadSegment path i item = Returned s ->
         fetchSegment url i item = Returned s)
  /\ (forall i item s, fetchSegment url i item = Returned s <-> fetchable item s)
  /\ (forall i,
         let heavy := mkSegment 5 "Sprint" 100 80 "Push" 5 in
         fetchSegment url i (segmentObject heavy) = Returned heavy
         /\ loadSegment path i (segmentObject heavy)
            = Thrown (invalidValue path i "Resistance" 100 "expected 0-20"))
  /\ (forall i,
         let early := mkSegment 5 "Sprint" 10 80 "Push" (-3) in
         fetchSegment url i (segmentObject early) = Returned early
         /\ loadSegment path i (segmentObject early)
            = Thrown (invalidValue path i "Elapsed Time" (-3) "must be non-negative"))
  /\ (forall i,
         let timeless := mkSegment nan "Sprint" 10 80 "Push" 5 in
         fetchSegment url i (segmentObject timeless) = Returned timeless
         /\ loadSegment path i (segmentObject timeless)
            = Thrown (invalidField path i "Time" "a number" (JNum nan)))
  /\ (fetchWorkoutDetailsOf url (JArr []) = Returned []
      /\ loadWorkoutDetailsOf path (JArr [])
         = Thrown (mkLoadError "Workout details array is empty" path None)).
Proof.
  split.
  { intros data segments. unfold loadWorkoutDetailsOf, fetchWorkoutDetailsOf.
    destruct data as [| | b | n | s | items | props]; try discriminate.
    destruct items as [| item rest]; [ discriminate | ].
    apply collect_load_then_fetch. }
  split; [ intros i item s; apply load_then_fetch | ].
  split; [ intros i item s; apply fetchSegment_fetchable | ].
  repeat split; reflexivity.
Qed.

(** C10 on the reference timeline. *)
Lemma fetch_checks_are_looser_witness :
  let P := Reference.platform in
  let data := JArr (map segmentObject Reference.timeline) in
  loadWorkoutDetailsOf "/data/timeline.json" data = Returned Reference.timeline
  /\ fetchWorkoutDetailsOf "https://raw.githubusercontent.com/timeline.json" data
     = Returned Reference.timeline.
Proof.
  intros P data. split; [ reflexivity | ].
  exact (proj1 (fetch_checks_are_looser P "/data/timeline.json"
                  "https://raw.githubusercontent.com/timeline.json")
               data Reference.timeline eq_refl).
Defined.

(** ** The retry loop *)

Section RetryFacts.

Variable net : Network.
Variable url : string.
Variable timeout retries delay : Z.

#[local] Abbreviation loop := (retryLoop net url timeout retries delay).

Lemma attemptsOf_cons_fetch u t trace :
  attemptsOf (Fetch u t :: trace) = S (attemptsOf trace).
Proof. reflexivity. Qed.

Lemma attemptsOf_wait (b : bool) ms trace :
  attemptsOf ((if b then [Sleep ms] else []) ++ trace) = attemptsOf trace.
Proof. now destruct b. Qed.

(** One iteration of the loop, the attempt [a] being within [retries]. *)
Lemma loop_step fuel a last :
  (a <= retries)%Z ->
  loop (S fuel) a last
  = match attemptOnce net url a with
    | Returned body => (Returned body, [Fetch url timeout])
    | Thrown error =>
        if isNonRetriable error then (Thrown error, [Fetch url timeout])
        else
          (fst (loop fuel (a + 1)%Z (Some error)),
           Fetch url timeout
           :: (if (a <? retries)%Z then [Sleep (delay * 2 ^ a)%Z] else [])
              ++ snd (loop fuel (a + 1)%Z (Some error)))
    end.
Proof.
  intros Ha. simpl. apply Z.leb_le in Ha. rewrite Ha.
  destruct (attemptOnce net url a) as [body | error]; [ reflexivity | ].
  destruct (isNonRetriable error); [ reflexivity | ].
  now destruct (retryLoop net url timeout retries delay fuel (a + 1) (Some error)).
Qed.

Lemma loop_stop fuel a last :
  (retries < a)%Z -> loop fuel a last = (Thrown (exhausted url retries last), []).
Proof.
  intros Ha. destruct fuel; simpl; [ reflexivity | ].
  apply Z.leb_gt in Ha. now rewrite Ha.
Qed.

(** The fuel [Z.to_nat (retries + 1 - attempt)] is enough: more changes
    nothing. *)
Lemma retryLoop_fuel fuel : forall fuel' a last,
  (Z.to_nat (retries + 1 - a) <= fuel)%nat ->
  (Z.to_nat (retries + 1 - a) <= fuel')%nat ->
  loop fuel a last = loop fuel' a last.
Proof.
  induction fuel as [| fuel IH]; intros fuel' a last H H'.
  - rewrite !loop_stop by lia. reflexivity.
  - destruct (Z_le_gt_dec a retries) as [Ha | Ha]; [ | now rewrite !loop_stop by lia ].
    destruct fuel' as [| fuel']; [ lia | ].
    rewrite !loop_step by assumption.
    destruct (attemptOnce net url a) as [body | error]; [ reflexivity | ].
    destruct (isNonRetriable error); [ reflexivity | ].
    rewrite (IH fuel' (a + 1)%Z) by lia. reflexivity.
Qed.

Ltac count := unfold attemptsOf; simpl; lia.

Lemma attempts_bounded fuel : forall a last,
  (attemptsOf (snd (loop fuel a last)) <= fuel)%nat.
Proof.
  induction fuel as [| fuel IH]; intros a last; [ count | ].
  destruct (Z_le_gt_dec a retries) as [Ha | Ha];
    [ | rewrite loop_stop by lia; count ].
  rewrite loop_step by assumption.
  destruct (attemptOnce net url a) as [body | error]; [ count | ].
  destruct (isNonRetriable error); [ count | ].
  simpl snd. rewrite attemptsOf_cons_fetch, attemptsOf_wait.
  specialize (IH (a + 1)%Z (Some error)). lia.
Qed.

Lemma nonRetriable_not_ok status :
  existsb (Z.eqb status) nonRetriable = true ->
  ok status = false /\ (status =? 0)%Z = false.
Proof.
  unfold nonRetriable; simpl. intros H.
  repeat (apply orb_prop in H as [H | H];
          [ apply Z.eqb_eq in H; subst; split; reflexivity | ]).
  discriminate.
Qed.

Lemma attemptOnce_nonRetriable a status statusText text :
  net a = Response status statusText text ->
  existsb (Z.eqb status) nonRetriable = true ->
  exists m,
    attemptOnce net url a = Thrown (NetworkError m url (Some status) None)
    /\ isNonRetriable (NetworkError m url (Some status) None) = true.
Proof.
  intros Hnet Hin. destruct (nonRetriable_not_ok _ Hin) as [Hok Hz].
  unfold attemptOnce. rewrite Hnet, Hok. cbn [negb].
  eexists; split; [ reflexivity | ].
  unfold isNonRetriable. now rewrite Hz, Hin.
Qed.

(** An attempt that is made and answered with one of the [nonRetriable]
    codes is the last, and the error of its response is thrown. *)
Lemma loop_nonRetriable fuel : forall a last k status statusText text,
  (k < attemptsOf (snd (loop fuel a last)))%nat ->
  net (a + Z.of_nat k)%Z = Response status statusText text ->
  existsb (Z.eqb status) nonRetriable = true ->
  attemptsOf (snd (loop fuel a last)) = S k
  /\ exists m,
      fst (loop fuel a last) = Thrown (NetworkError m url (Some status) None).
Proof.
  induction fuel as [| fuel IH]; intros a last k status statusText text Hk Hnet Hin;
    [ unfold attemptsOf in Hk; simpl in Hk; lia | ].
  destruct (Z_le_gt_dec a retries) as [Ha | Ha];
    [ | rewrite loop_stop in Hk by lia; unfold attemptsOf in Hk; simpl in Hk; lia ].
  rewrite loop_step in * by assumption.
  destruct k as [| k].
  - rewrite Z.add_0_r in Hnet.
    destruct (attemptOnce_nonRetriable Hnet Hin) as (m & Hrun & Hnon).
    rewrite Hrun, Hnon. split; [ reflexivity | ]. now exists m.
  - destruct (attemptOnce net url a) as [body | error]; [ unfold attemptsOf in Hk; simpl in Hk; lia | ].
    destruct (isNonRetriable error); [ unfold attemptsOf in Hk; simpl in Hk; lia | ].
    simpl fst; simpl snd in *.
    rewrite attemptsOf_cons_fetch, attemptsOf_wait in *.
    replace (a + Z.of_nat (S k))%Z with (a + 1 + Z.of_nat k)%Z in Hnet by lia.
    destruct (IH (a + 1)%Z (Some error) k status statusText text) as [Hn Hthrown];
      [ lia | assumption | assumption | ].
    split; [ now rewrite Hn | exact Hthrown ].
Qed.

Lemma retriable_attempt a :
  retriableFailure (net a) = true ->
  exists e, attemptOnce net url a = Thrown e /\ isNonRetriable e = false.
Proof.
  unfold retriableFailure, attemptOnce.
  destruct (net a) as [m | status statusText text]; [ eauto | ].
  destruct (ok status).
  - destruct text as [body | m]; [ discriminate | cbn [negb]; eauto ].
  - intros H. cbn [negb]. eexists; split; [ reflexivity | ].
    unfold isNonRetriable. apply negb_true_iff in H. now rewrite H, andb_false_r.
Qed.

(** When every attempt left fails in a way that is retried, all of them
    are made, and the error thrown wraps the failure of the last one. *)
Lemma loop_exhausted fuel : forall a last,
  (forall j, (a <= j <= retries)%Z -> retriableFailure (net j) = true) ->
  (Z.to_nat (retries + 1 - a) <= fuel)%nat ->
  attemptsOf (snd (loop fuel a last)) = Z.to_nat (retries + 1 - a)
  /\ exists last',
      fst (loop fuel a last) = Thrown (exhausted url retries last')
      /\ ((a <= retries)%Z ->
          exists e, attemptOnce net url retries = Thrown e /\ last' = Some e)
      /\ ((retries < a)%Z -> last' = last).
Proof.
  induction fuel as [| fuel IH]; intros a last Hall Hfuel.
  - rewrite loop_stop by lia. simpl. split; [ count | ].
    exists last. split; [ reflexivity | ]. split; [ lia | trivial ].
  - destruct (Z_le_gt_dec a retries) as [Ha | Ha].
    + rewrite loop_step by assumption.
      destruct (retriable_attempt a) as (e & Hrun & Hretry); [ apply Hall; lia | ].
      rewrite Hrun, Hretry. simpl fst; simpl snd.
      rewrite attemptsOf_cons_fetch, attemptsOf_wait.
      destruct (IH (a + 1)%Z (Some e)) as (Hn & last' & Hthrown & Hin & Hout);
        [ intros j Hj; apply Hall; lia | lia | ].
      split; [ rewrite Hn; lia | ].
      exists last'. split; [ exact Hthrown | ]. split; [ | lia ].
      intros _. destruct (Z_le_gt_dec (a + 1) retries) as [Hmore | Hlast].
      * now apply Hin.
      * assert (a = retries) by lia; subst a.
        exists e. split; [ exact Hrun | apply Hout; lia ].
    + rewrite loop_stop by lia. simpl. split; [ count | ].
      exists last. split; [ reflexivity | ]. split; [ lia | trivial ].
Qed.

End RetryFacts.

Section FetchWithRetryFacts.

Context {P : Platform}.

Variable net : Network.
Variable url : string.
Variable config : FetchConfig.

Let timeout := orDefault (timeoutMs config) DEFAULT_FETCH_CONFIG.timeoutMs.
Let tries := orDefault (retries config) DEFAULT_FETCH_CONFIG.retries.
Let delay := orDefault (retryDelayMs config) DEFAULT_FETCH_CONFIG.retryDelayMs.

(** A URL that is refused costs no attempt; another starts the loop. *)
Lemma fetchWithRetry_cases :
  (~ fetchable_url url
   /\ exists m, fetchWithRetry net url config
                = (Thrown (NetworkError m url None None), []))
  \/ (fetchable_url url
      /\ fetchWithRetry net url config
         = retryLoop net url timeout tries delay (Z.to_nat (tries + 1)) 0%Z None).
Proof.
  unfold fetchWithRetry, fetchable_url.
  destruct (parseURL url) as [parsed |] eqn:Hparse.
  - destruct (includes ["http:"; "https:"] (protocol parsed)) eqn:Hscheme;
      cbn [negb].
    + right. split; [ now exists parsed | reflexivity ].
    + left. split; [ | eauto ].
      intros (parsed' & Heq & Hin). injection Heq as <-. congruence.
  - left. split; [ | eauto ].
    intros (parsed' & Heq & _). discriminate.
Qed.

End FetchWithRetryFacts.

(** C4. With a number of retries that is not negative, [fetchWithRetry]
    makes at most [retries + 1] attempts. An attempt that is made and
    answered with one of the codes 400, 401, 403, 404, 405 and 422 is the
    last one, and the [NetworkError] of that code is thrown; so an endpoint
    that always answers 404 is tried once. When every attempt fails
    otherwise (the call is rejected, by the network or by the timeout; the
    response has another code outside 2xx; the body cannot be read), all
    [retries + 1] attempts are made and the [NetworkError] thrown wraps the
    failure of the last one. A URL that does not parse or has another
    scheme than http and https is refused before any attempt. *)
Theorem fetchWithRetry_attempts (P : Platform) net url config :
  let tries := orDefault (retries config) DEFAULT_FETCH_CONFIG.retries in
  (0 <= tries)%Z ->
  let result := fst (fetchWithRetry net url config) in
  let trace := snd (fetchWithRetry net url config) in
  (Z.of_nat (attemptsOf trace) <= tries + 1)%Z
  /\ (forall k status statusText text,
         (k < attemptsOf trace)%nat ->
         net (Z.of_nat k) = Response status statusText text ->
         In status nonRetriable ->
         attemptsOf trace = S k
         /\ exists m, result = Thrown (NetworkError m url (Some status) None))
  /\ (fetchable_url url ->
      (forall j, exists statusText text, net j = Response 404 statusText text) ->
      attemptsOf trace = 1%nat
      /\ exists m, result = Thrown (NetworkError m url (Some 404%Z) None))
  /\ (fetchable_url url ->
      (forall j, (0 <= j <= tries)%Z -> retriableFailure (net j) = true) ->
      Z.of_nat (attemptsOf trace) = (tries + 1)%Z
      /\ exists e,
          attemptOnce net url tries = Thrown e
          /\ result = Thrown (exhausted url tries (Some e)))
  /\ (~ fetchable_url url ->
      attemptsOf trace = 0%nat
      /\ exists m, result = Thrown (NetworkError m url None None)).
Proof.
  intros tries Htries result trace. subst result trace.
  destruct (fetchWithRetry_cases net url config)
    as [(Hbad & m & ->) | (Hgood & ->)]; fold tries.
  - simpl. unfold attemptsOf; simpl.
    repeat split; try lia; try (intros; lia); try contradiction; eauto.
  - set (timeout := orDefault (timeoutMs config) DEFAULT_FETCH_CONFIG.timeoutMs).
    set (delay := orDefault (retryDelayMs config) DEFAULT_FETCH_CONFIG.retryDelayMs).
    set (fuel := Z.to_nat (tries + 1)).
    assert (Hnon : forall k status statusText text,
               (k < attemptsOf (snd (retryLoop net url timeout tries delay fuel 0 None)))%nat ->
               net (Z.of_nat k) = Response status statusText text ->
               In status nonRetriable ->
               attemptsOf (snd (retryLoop net url timeout tries delay fuel 0 None)) = S k
               /\ exists m,
                   fst (retryLoop net url timeout tries delay fuel 0 None)
                   = Thrown (NetworkError m url (Some status) None)).
    { intros k status statusText text Hk Hnet Hin.
      eapply loop_nonRetriable; [ exact Hk | exact Hnet | ].
      apply existsb_exists. exists status. split; [ exact Hin | apply Z.eqb_refl ]. }
    split.
    { pose proof (attempts_bounded net url timeout tries delay fuel 0 None).
      subst fuel. lia. }
    split; [ exact Hnon | ].
    split.
    { intros _ H404. destruct (H404 0%Z) as (statusText & text & Hnet).
      apply (Hnon 0%nat 404%Z statusText text);
        [ | exact Hnet | unfold nonRetriable; simpl; tauto ].
      assert (Hfuel : fuel = S (Z.to_nat tries)) by (subst fuel; lia).
      rewrite Hfuel, loop_step by lia.
      destruct (@attemptOnce_nonRetriable net url 0 404 statusText text Hnet eq_refl)
        as (m & Hrun & Hlast).
      rewrite Hrun, Hlast. unfold attemptsOf; simpl; lia. }
    split; [ | intros Hbad; contradiction ].
    intros _ Hall.
    destruct (@loop_exhausted net url timeout tries delay fuel 0 None Hall)
      as (Hn & last' & Hthrown & Hin & _); [ subst fuel; lia | ].
    split; [ rewrite Hn; lia | ].
    destruct (Hin Htries) as (e & Hrun & ->).
    exists e. split; [ exact Hrun | exact Hthrown ].
Qed.

(** C4 on an endpoint that always answers 404, with the default
    configuration of three retries. *)
Lemma fetchWithRetry_attempts_witness :
  let P := Reference.platform in
  let net : Network := fun _ => Response 404 "Not Found" (Returned "missing") in
  let url := "https://raw.githubusercontent.com/rides/none.json" in
  let config := mkConfig None None None in
  (0 <= orDefault (retries config) DEFAULT_FETCH_CONFIG.retries)%Z
  /\ attemptsOf (snd (fetchWithRetry net url config)) = 1%nat
  /\ exists m,
      fst (fetchWithRetry net url config)
      = Thrown (NetworkError m url (Some 404%Z) None).
Proof.
  intros P net url config.
  assert (H : (0 <= orDefault (retries config) DEFAULT_FETCH_CONFIG.retries)%Z)
    by (simpl; unfold DEFAULT_FETCH_CONFIG.retries; lia).
  split; [ exact H | ].
  refine (proj1 (proj2 (proj2 (fetchWithRetry_attempts P net url config H))) _ _).
  - exists (mkURL "https:" "raw.githubusercontent.com"). split; reflexivity.
  - intros j. exists "Not Found", (Returned "missing"). reflexivity.
Defined.

(** ** Comparisons of numbers *)

Lemma SFcompare_Lt_swap x y :
  SFcompare x y = Some Lt -> SFcompare y x = Some Gt.
Proof.
  destruct x as [sx | sx | | sx mx ex], y as [sy | sy | | sy my ey]; simpl;
    try discriminate;
    try (destruct sx; try destruct sy; (discriminate || reflexivity)).
  destruct sx, sy; try discriminate; try reflexivity;
    rewrite (Z.compare_antisym ex ey);
    destruct (ex ?= ey)%Z; simpl; try discriminate; try reflexivity;
    change (Pos.compare_cont Eq my mx) with (Pos.compare my mx);
    change (Pos.compare_cont Eq mx my) with (Pos.compare mx my);
    rewrite (Pos.compare_antisym mx my);
    destruct (Pos.compare mx my); simpl; (discriminate || reflexivity).
Qed.

(** [x < y] excludes [y <= x]. *)
Lemma ltb_not_leb x y : (x <? y)%float = true -> (y <=? x)%float = false.
Proof.
  rewrite ltb_spec, leb_spec. unfold SFltb, SFleb.
  destruct (SFcompare (Prim2SF x) (Prim2SF y)) as [[| |] |] eqn:H; try discriminate.
  intros _. now rewrite (SFcompare_Lt_swap _ _ H).
Qed.

(** ** getCurrentSegment *)

Lemma scan_find segments e :
  scan segments e = find (fun s => (e <=? Elapsed_Time s)%float) segments.
Proof.
  induction segments as [| s rest IH]; simpl; [ reflexivity | ].
  now rewrite IH.
Qed.

(** C5, as amended. For an [elapsedMinutes] that is not negative,
    [getCurrentSegment] returns the first segment whose elapsed time is at
    least [elapsedMinutes], and null when there is none: when the array is
    empty, or [elapsedMinutes] exceeds the elapsed time of every segment.
    For a negative [elapsedMinutes] it returns the first segment of the
    array, whatever its elapsed time, and null for the empty array. On
    segments of elapsed times 5 and 10: at 7 the second, at 15 null, at -1
    the first. *)
Theorem getCurrentSegment_cases segments elapsedMinutes :
  ((elapsedMinutes <? 0)%float = false ->
   getCurrentSegment segments elapsedMinutes
   = find (fun s => (elapsedMinutes <=? Elapsed_Time s)%float) segments)
  /\ ((elapsedMinutes <? 0)%float = false ->
      Forall (fun s => (Elapsed_Time s <? elapsedMinutes)%float = true) segments ->
      getCurrentSegment segments elapsedMinutes = None)
  /\ ((elapsedMinutes <? 0)%float = true ->
      getCurrentSegment segments elapsedMinutes = hd_error segments)
  /\ getCurrentSegment [] elapsedMinutes = None
  /\ (forall first second,
         Elapsed_Time first = 5%float -> Elapsed_Time second = 10%float ->
         getCurrentSegment [first; second] 7 = Some second
         /\ getCurrentSegment [first; second] 15 = None
         /\ getCurrentSegment [first; second] (-1) = Some first).
Proof.
  assert (Hscan : (elapsedMinutes <? 0)%float = false ->
                  getCurrentSegment segments elapsedMinutes
                  = find (fun s => (elapsedMinutes <=? Elapsed_Time s)%float)
                         segments).
  { intros Hneg. unfold getCurrentSegment. rewrite Hneg, scan_find.
    destruct segments; reflexivity. }
  split; [ exact Hscan | ].
  split.
  { intros Hneg Hall. rewrite (Hscan Hneg). clear Hscan.
    induction Hall as [| s rest Hs _ IH]; simpl; [ reflexivity | ].
    rewrite (ltb_not_leb Hs). exact IH. }
  split.
  { intros Hneg. unfold getCurrentSegment. rewrite Hneg.
    destruct segments; reflexivity. }
  split; [ reflexivity | ].
  intros first second H5 H10. unfold getCurrentSegment; simpl.
  rewrite H5, H10. repeat split; reflexivity.
Qed.

(** The amended C5 on the reference timeline, 12 minutes into the workout:
    the intervals, which end at minute 15. *)
Lemma getCurrentSegment_cases_witness :
  (12 <? 0)%float = false
  /\ getCurrentSegment Reference.timeline 12
     = Some (Reference.segment 10 "Intervals" 12 95 15).
Proof.
  split; [ reflexivity | ].
  rewrite (proj1 (getCurrentSegment_cases Reference.timeline 12) eq_refl).
  reflexivity.
Defined.

(** C5 as stated fails on a segment with a negative elapsed time, which
    [fetchWorkoutDetails] lets through: at -1 minutes the elapsed time -5 of
    the only segment is exceeded, and no segment has an elapsed time of at
    least -1, yet the segment is returned. *)
Lemma negative_minutes_return_first_segment :
  let s := Reference.segment 5 "Warm-up" 5 80 (-5) in
  getCurrentSegment [s] (-1) = Some s
  /\ (Elapsed_Time s <? -1)%float = true
  /\ find (fun x => (-1 <=? Elapsed_Time x)%float) [s] = None.
Proof. cbv zeta. repeat split; reflexivity. Qed.

(** ** Strings *)

Lemma trimStart_blank s : blank s = true -> trimStart s = "".
Proof.
  induction s as [| c rest IH]; simpl; [ reflexivity | ].
  destruct (isWhiteSpace c); [ exact IH | discriminate ].
Qed.

Lemma trimStart_solid s :
  blank s = false ->
  exists c rest, trimStart s = String c rest /\ isWhiteSpace c = false.
Proof.
  induction s as [| c rest IH]; simpl; [ discriminate | ].
  destruct (isWhiteSpace c) eqn:Hc; [ exact IH | eauto ].
Qed.

Lemma trimStart_keeps_solid c v : forall u,
  isWhiteSpace c = false -> trimStart (u ++ String c v)%string <> "".
Proof.
  induction u as [| d u IH]; simpl; intros Hc.
  - now rewrite Hc.
  - destruct (isWhiteSpace d); [ now apply IH | discriminate ].
Qed.

Lemma rev_empty s : Str.rev s = "" -> s = "".
Proof.
  destruct s as [| c rest]; simpl; [ reflexivity | ].
  destruct (Str.rev rest); discriminate.
Qed.

(** The test [!url || url.trim() === ""] holds of the blank strings. *)
Lemma empty_or_trims_to_empty url :
  String.eqb url "" || String.eqb (trim url) "" = blank url.
Proof.
  destruct (blank url) eqn:Hb.
  - unfold trim, trimEnd. rewrite (trimStart_blank _ Hb). simpl.
    apply orb_true_r.
  - destruct (trimStart_solid _ Hb) as (c & rest & Hs & Hc).
    apply orb_false_iff. split.
    + destruct url; [ discriminate | reflexivity ].
    + apply String.eqb_neq. unfold trim, trimEnd. rewrite Hs. simpl.
      intros H. apply rev_empty in H. revert H.
      apply trimStart_keeps_solid. exact Hc.
Qed.

Lemma substring_all s : substring 0 (String.length s) s = s.
Proof. induction s; simpl; [ reflexivity | now f_equal ]. Qed.

Lemma substring_suffix suffix : forall p,
  substring (String.length p) (String.length suffix) (p ++ suffix)%string = suffix.
Proof.
  induction p as [| c p IH]; simpl; [ apply substring_all | exact IH ].
Qed.

Lemma length_append s t :
  String.length (s ++ t)%string = (String.length s + String.length t)%nat.
Proof. induction s; simpl; [ reflexivity | now f_equal ]. Qed.

Lemma substring_split s : forall n,
  (n <= String.length s)%nat ->
  s = (substring 0 n s ++ substring n (String.length s - n) s)%string.
Proof.
  induction s as [| c s IH]; intros n Hn; simpl in *.
  - destruct n; reflexivity.
  - destruct n as [| n]; simpl.
    + now rewrite substring_all.
    + f_equal. apply IH. lia.
Qed.

(** [s.endsWith(suffix)]: [s] is something followed by [suffix]. *)
Lemma endsWith_spec s suffix :
  endsWith s suffix = true <-> exists p, s = (p ++ suffix)%string.
Proof.
  unfold endsWith. split.
  - intros H. apply andb_prop in H as [Hlen Heq].
    apply Nat.leb_le in Hlen. apply String.eqb_eq in Heq.
    exists (substring 0 (String.length s - String.length suffix) s).
    assert (Hn : (String.length s - String.length suffix <= String.length s)%nat)
      by lia.
    pose proof (substring_split s Hn) as Hsplit.
    replace (String.length s - (String.length s - String.length suffix))%nat
      with (String.length suffix) in Hsplit by lia.
    rewrite Heq in Hsplit. exact Hsplit.
  - intros [p ->]. rewrite length_append.
    replace (String.length p + String.length suffix - String.length suffix)%nat
      with (String.length p) by lia.
    rewrite substring_suffix, String.eqb_refl, andb_true_r.
    apply Nat.leb_le. lia.
Qed.

Lemma domainAllowed_spec host allowed :
  domainAllowed (toLowerCase host) allowed = true <-> hostMatches host allowed.
Proof.
  unfold domainAllowed, hostMatches. rewrite existsb_exists.
  split; intros (domain & Hin & H); exists domain; (split; [ exact Hin | ]).
  - apply orb_prop in H as [H | H].
    + left. now apply String.eqb_eq.
    + right. apply endsWith_spec in H. exact H.
  - apply orb_true_iff. destruct H as [H | H].
    + left. now apply String.eqb_eq.
    + right. apply endsWith_spec. exact H.
Qed.

(** ** validateUrl *)

Section UrlFacts.

Context {P : Platform}.

(** [validateUrl] on a URL that is not blank and parses. *)
Lemma validateUrl_parsed url allowed parsed :
  blank url = false -> parseURL url = Some parsed ->
  validateUrl url allowed
  = if negb (includes ["http:"; "https:"] (protocol parsed)) then
      fail (cat ["Invalid protocol: "; protocol parsed;
                 " (expected http or https)"]) newResult
    else
      let result :=
        if String.eqb (protocol parsed) "http:"
        then pushWarning "URL uses insecure HTTP protocol" newResult
        else newResult in
      match allowed with
      | Some (d :: ds) =>
          if negb (domainAllowed (toLowerCase (hostname parsed)) (d :: ds)) then
            fail (cat ["Domain '"; toLowerCase (hostname parsed);
                       "' is not in allowed list: "; join ", " (d :: ds)]) result
          else result
      | _ => result
      end.
Proof.
  intros Hb Hp. unfold validateUrl.
  rewrite empty_or_trims_to_empty, Hb, Hp.
  destruct allowed as [[| d ds] |]; reflexivity.
Qed.

Lemma includes_http scheme :
  includes ["http:"; "https:"] scheme = true
  <-> scheme = "http:" \/ scheme = "https:".
Proof.
  unfold includes; simpl. rewrite orb_false_r, orb_true_iff, !String.eqb_eq.
  reflexivity.
Qed.

(** The check of the host against the allowed domains, on a report without
    an error. *)
Lemma domain_check host domains message r :
  valid r = true -> errors r = [] ->
  let r' := if negb (domainAllowed (toLowerCase host) domains)
            then fail message r else r in
  (hostMatches host domains -> valid r' = true /\ errors r' = [])
  /\ (~ hostMatches host domains -> valid r' = false /\ errors r' = [message]).
Proof.
  intros Hv He r'. subst r'.
  destruct (domainAllowed (toLowerCase host) domains) eqn:Hd; cbn [negb].
  - apply domainAllowed_spec in Hd. split; [ now split | contradiction ].
  - split.
    + intros Hm. apply domainAllowed_spec in Hm. congruence.
    + intros _. simpl. now rewrite He.
Qed.

End UrlFacts.

(** C6. [validateUrl] fails with one error on a blank string, on a string
    that does not parse as a URL, and on a URL of another scheme than http
    and https. On a URL of one of these schemes it warns of an insecure
    protocol exactly for http, and, when a list of allowed domains that is
    not empty is given, it succeeds if the host is one of the domains or
    ends with a dot followed by one (whatever the letter case) and fails
    with one error if not; without such a list it succeeds. With a parser
    that reads them as their scheme and host: "ftp://x.com" fails with the
    protocol error, "http://x.com" succeeds with the warning of an insecure
    protocol, "https://sub.github.com" succeeds for the domain
    "github.com". *)
Theorem validateUrl_cases (P : Platform) url allowed :
  (blank url = true ->
   validateUrl url allowed = mkResult false ["URL is empty"] [])
  /\ (blank url = false -> parseURL url = None ->
      validateUrl url allowed
      = mkResult false [cat ["Invalid URL format: "; url]] [])
  /\ (forall parsed,
         blank url = false -> parseURL url = Some parsed ->
         protocol parsed <> "http:" -> protocol parsed <> "https:" ->
         validateUrl url allowed
         = mkResult false
             [cat ["Invalid protocol: "; protocol parsed;
                   " (expected http or https)"]] [])
  /\ (forall parsed,
         blank url = false -> parseURL url = Some parsed ->
         protocol parsed = "http:" \/ protocol parsed = "https:" ->
         let r := validateUrl url allowed in
         (protocol parsed = "http:" ->
          warnings r = ["URL uses insecure HTTP protocol"])
         /\ (protocol parsed = "https:" -> warnings r = [])
         /\ match allowed with
            | Some (d :: ds) =>
                (hostMatches (hostname parsed) (d :: ds) ->
                 valid r = true /\ errors r = [])
                /\ (~ hostMatches (hostname parsed) (d :: ds) ->
                    valid r = false
                    /\ errors r
                       = [cat ["Domain '"; toLowerCase (hostname parsed);
                               "' is not in allowed list: "; join ", " (d :: ds)]])
            | _ => valid r = true /\ errors r = []
            end)
  /\ (parseURL "ftp://x.com" = Some (mkURL "ftp:" "x.com") ->
      validateUrl "ftp://x.com" None
      = mkResult false ["Invalid protocol: ftp: (expected http or https)"] [])
  /\ (parseURL "http://x.com" = Some (mkURL "http:" "x.com") ->
      validateUrl "http://x.com" None
      = mkResult true [] ["URL uses insecure HTTP protocol"])
  /\ (parseURL "https://sub.github.com" = Some (mkURL "https:" "sub.github.com") ->
      validateUrl "https://sub.github.com" (Some ["github.com"])
      = mkResult true [] []).
Proof.
  split.
  { intros Hb. unfold validateUrl. now rewrite empty_or_trims_to_empty, Hb. }
  split.
  { intros Hb Hp. unfold validateUrl.
    now rewrite empty_or_trims_to_empty, Hb, Hp. }
  split.
  { intros parsed Hb Hp Hhttp Hhttps.
    rewrite (@validateUrl_parsed P url allowed parsed Hb Hp).
    destruct (includes ["http:"; "https:"] (protocol parsed)) eqn:Hin;
      [ | reflexivity ].
    apply includes_http in Hin. tauto. }
  split.
  { intros parsed Hb Hp Hscheme r. subst r.
    rewrite (@validateUrl_parsed P url allowed parsed Hb Hp).
    rewrite (proj2 (includes_http (protocol parsed)) Hscheme). cbn [negb].
    cbv zeta.
    assert (Hr : valid (if String.eqb (protocol parsed) "http:"
                        then pushWarning "URL uses insecure HTTP protocol" newResult
                        else newResult) = true
                 /\ errors (if String.eqb (protocol parsed) "http:"
                            then pushWarning "URL uses insecure HTTP protocol"
                                             newResult
                            else newResult) = [])
      by (destruct (String.eqb (protocol parsed) "http:"); now split).
    destruct Hr as [Hv He].
    split; [ | split ].
    - intros Hh. rewrite Hh. cbn [String.eqb Ascii.eqb Bool.eqb andb].
      destruct allowed as [[| d ds] |]; try reflexivity.
      now destruct (negb _).
    - intros Hh. rewrite Hh. cbn [String.eqb Ascii.eqb Bool.eqb andb].
      destruct allowed as [[| d ds] |]; try reflexivity.
      now destruct (negb _).
    - destruct allowed as [[| d ds] |]; [ now split | | now split ].
      now apply domain_check. }
  split.
  { intros Hp. now rewrite (@validateUrl_parsed P "ftp://x.com" None _ eq_refl Hp). }
  split.
  { intros Hp. now rewrite (@validateUrl_parsed P "http://x.com" None _ eq_refl Hp). }
  intros Hp.
  now rewrite (@validateUrl_parsed P "https://sub.github.com" (Some ["github.com"])
                 _ eq_refl Hp).
Qed.

(** C6 on the reference platform: the three URLs of the claim. *)
Lemma validateUrl_cases_witness :
  let P := Reference.platform in
  validateUrl "ftp://x.com" None
  = mkResult false ["Invalid protocol: ftp: (expected http or https)"] []
  /\ validateUrl "http://x.com" None
     = mkResult true [] ["URL uses insecure HTTP protocol"]
  /\ validateUrl "https://sub.github.com" (Some ["github.com"])
     = mkResult true [] []
  /\ hostMatches "sub.github.com" ["github.com"].
Proof.
  intros P.
  destruct (validateUrl_cases P "https://sub.github.com" (Some ["github.com"]))
    as (_ & _ & _ & _ & Hftp & Hhttp & Hsub).
  split; [ exact (Hftp eq_refl) | ].
  split; [ exact (Hhttp eq_refl) | ].
  split; [ exact (Hsub eq_refl) | ].
  exists "github.com". split; [ now left | ].
  right. exists "sub". reflexivity.
Defined.

(** ** Two runs of validateWorkoutDetails *)

(** An array that holds [null] is not reported on: reading the [Time] of
    the element throws. *)
Remark validateWorkoutDetails_null_throws (P : Platform) :
  validateWorkoutDetails (JArr [JNull]) = Thrown nullProperty.
Proof. reflexivity. Qed.

(** The slip of C1 within an array: the elapsed time of the second segment
    of the reference timeline becomes 130, and the report stays valid, with
    a warning only. *)
Remark long_elapsed_time_goes_unreported :
  let P := Reference.platform in
  let items := map segmentObject Reference.timeline in
  validateWorkoutDetails
    (JArr (firstn 1 items
           ++ setProp (nth 1 items JNull) "Elapsed Time" (JNum 130)
           :: skipn 2 items))
  = Returned (mkResult true [] [elapsedWarning 1 130]).
Proof. reflexivity. Qed.

(** C9. Every validator returns a report that is invalid exactly when its
    list of errors is not empty, whatever its warnings: [validateUrl],
    [validateWorkout], [validateVideo], [validateSegment],
    [validateWorkoutsList] and [validateVideosList] on every input, and
    [validateWorkoutDetails] on every input on which it returns; it returns
    unless the input is an array that holds [null] or [undefined], where
    reading the element's [Time] throws. *)
Theorem validators_valid_iff_no_errors (P : Platform) :
  (forall url allowed,
      let r := validateUrl url allowed in valid r = false <-> errors r <> [])
  /\ (forall w, let r := validateWorkout w in valid r = false <-> errors r <> [])
  /\ (forall v, let r := validateVideo v in valid r = false <-> errors r <> [])
  /\ (forall s i prev,
         let r := validateSegment s i prev in valid r = false <-> errors r <> [])
  /\ (forall d,
         match validateWorkoutDetails d with
         | Returned r => valid r = false <-> errors r <> []
         | Thrown _ => exists items, d = JArr items /\ existsb nullish items = true
         end)
  /\ (forall ws,
         let r := validateWorkoutsList ws in valid r = false <-> errors r <> [])
  /\ (forall vs,
         let r := validateVideosList vs in valid r = false <-> errors r <> []).
Proof.
  repeat split; intros;
    try (apply validateUrl_sound; assumption);
    try (apply validateWorkout_sound; assumption);
    try (apply validateVideo_sound; assumption);
    try (apply validateSegment_sound; assumption);
    try (apply validateWorkoutsList_sound; assumption);
    try (apply validateVideosList_sound; assumption).
  apply validateWorkoutDetails_sound.
Qed.

(* ================================================================= *)
(** * Further properties of the code *)

(** ** validateWorkoutDetails on typed segments *)

Lemma noErrors_app a b : noErrors (a ++ b) = noErrors a && noErrors b.
Proof. destruct a; reflexivity. Qed.

Lemma noErrors_nil l : noErrors l = true <-> l = [].
Proof. destruct l; split; (reflexivity || discriminate). Qed.

Section TypedSegments.

Context {P : Platform}.

Variable s : WorkoutSegment.
Variable i : float.

Lemma typed_timeErrors : noErrors (timeErrors (segmentObject s) i) = timeOk s.
Proof.
  unfold timeErrors, checkTime, timeOk, CONSTRAINTS.minTime, CONSTRAINTS.maxTime.
  simpl. destruct (isFinite (Time s)); [ | reflexivity ].
  destruct (Time s <? 1)%float; [ reflexivity | ].
  destruct (60 <? Time s)%float; reflexivity.
Qed.

Lemma typed_activityErrors :
  noErrors (activityErrors (segmentObject s) i) = activityOk s.
Proof.
  unfold activityErrors, checkActivity, activityOk. simpl.
  destruct (String.eqb (trim (Activity s)) ""); [ reflexivity | ].
  match goal with
  | |- context [if ?b then _ else _] => destruct b
  end; reflexivity.
Qed.

Lemma typed_resistanceErrors :
  noErrors (resistanceErrors (segmentObject s) i) = resistanceOk s.
Proof.
  unfold resistanceErrors, checkResistance, resistanceOk,
    CONSTRAINTS.minResistance, CONSTRAINTS.maxResistance.
  simpl. destruct (isFinite (Resistance s)); [ | reflexivity ].
  destruct (Resistance s <? 1)%float; [ reflexivity | ].
  destruct (20 <? Resistance s)%float; reflexivity.
Qed.

Lemma typed_cadenceErrors :
  noErrors (cadenceErrors (segmentObject s) i) = cadenceOk s.
Proof.
  unfold cadenceErrors, checkCadence, cadenceOk,
    CONSTRAINTS.minCadence, CONSTRAINTS.maxCadence.
  simpl. destruct (isFinite (Cadence s)); [ | reflexivity ].
  destruct (Cadence s <? 30)%float; [ reflexivity | ].
  destruct (150 <? Cadence s)%float; reflexivity.
Qed.

Lemma typed_strokeErrors : strokeErrors (segmentObject s) i = [].
Proof. reflexivity. Qed.

Lemma typed_elapsedErrors prev :
  noErrors (elapsedErrors (segmentObject s) i prev) = elapsedOk prev s.
Proof.
  unfold elapsedErrors, checkElapsed, elapsedOk, CONSTRAINTS.maxElapsedTime.
  simpl. destruct (isFinite (Elapsed_Time s)); [ | reflexivity ].
  destruct (Elapsed_Time s <? 0)%float; [ reflexivity | ].
  destruct (120 <? Elapsed_Time s)%float; [ reflexivity | ].
  destruct (isFinite (Time s)); [ | reflexivity ].
  destruct (Elapsed_Time s =? prev + Time s)%float; reflexivity.
Qed.

Lemma typed_segment_passes prev :
  noErrors (errors (validateSegment (segmentObject s) i prev)) = segmentPasses prev s.
Proof.
  rewrite validateSegment_errors by reflexivity.
  rewrite !noErrors_app, typed_timeErrors, typed_activityErrors,
    typed_resistanceErrors, typed_cadenceErrors, typed_strokeErrors,
    typed_elapsedErrors.
  unfold segmentPasses. simpl. now rewrite !andb_assoc.
Qed.

Lemma typed_nextElapsed prev :
  nextElapsed (segmentObject s) prev
  = if isFinite (Time s) then (prev + Time s)%float else prev.
Proof. reflexivity. Qed.

End TypedSegments.

Lemma typed_timeline_passes (P : Platform) segments : forall pre,
  noErrors (segmentErrors pre (map segmentObject segments))
  = timelinePasses (runningSum pre) segments.
Proof.
  induction segments as [| s rest IH]; intros pre; simpl; [ reflexivity | ].
  rewrite noErrors_app, typed_segment_passes, IH, runningSum_snoc,
    typed_nextElapsed.
  reflexivity.
Qed.

(** X1. On an array of typed segments that is not empty,
    [validateWorkoutDetails] returns a report, and the report is valid
    exactly when every segment passes: a finite [Time] of at least 1, an
    [Activity] that is not blank, a finite [Resistance] within 1 to 20, a
    finite [Cadence] within 30 to 150, and a finite [Elapsed Time] that is
    not negative and is either above 120 or equal to the sum of the [Time]
    fields up to the segment. *)
Theorem typed_timeline_valid_iff_passes (P : Platform) segments :
  segments <> [] ->
  exists r,
    validateWorkoutDetails (JArr (map segmentObject segments)) = Returned r
    /\ valid r = timelinePasses 0 segments
    /\ (errors r = [] <-> timelinePasses 0 segments = true).
Proof.
  intros Hne.
  assert (Hne' : map segmentObject segments <> [])
    by (destruct segments; [ congruence | discriminate ]).
  destruct (validateWorkoutDetails_returns Hne' (segmentObjects_not_null segments))
    as (r & Hrun & He & Hv).
  exists r. split; [ exact Hrun | ].
  pose proof (typed_timeline_passes P segments []) as Hpass.
  change (runningSum []) with 0%float in Hpass.
  rewrite <- He in Hpass, Hv.
  split.
  - rewrite <- Hpass. destruct (valid r), (errors r); simpl; try reflexivity.
    + destruct Hv as [_ Hv]. discriminate Hv. discriminate.
    + destruct Hv as [Hv _]. now destruct (Hv eq_refl).
  - rewrite <- Hpass. apply iff_sym, noErrors_nil.
Qed.

(** X1 on the reference timeline. *)
Lemma typed_timeline_valid_witness :
  let P := Reference.platform in
  Reference.timeline <> []
  /\ exists r,
      validateWorkoutDetails (JArr (map segmentObject Reference.timeline))
      = Returned r
      /\ valid r = true.
Proof.
  intros P.
  assert (Hne : Reference.timeline <> []) by discriminate.
  split; [ exact Hne | ].
  destruct (typed_timeline_valid_iff_passes P Hne) as (r & Hrun & Hvalid & _).
  exists r. split; [ exact Hrun | exact Hvalid ].
Defined.

(** ** When validateWorkoutDetails throws, and what it says of the ends *)

(** Sound reports with the same errors are both valid or both invalid. *)
Lemma sound_same_errors r1 r2 :
  sound r1 -> sound r2 -> errors r1 = errors r2 -> valid r1 = valid r2.
Proof.
  unfold sound. intros [H1 H1'] [H2 H2'] He. rewrite He in *.
  destruct (valid r1), (valid r2); try reflexivity.
  - apply H1', H2. reflexivity.
  - symmetry. apply H2', H1. reflexivity.
Qed.

Section DetailsFacts.

Context {P : Platform}.

Lemma segmentsLoop_throws items : forall i prev r,
  existsb nullish items = true ->
  segmentsLoop items i prev r = Thrown nullProperty.
Proof.
  induction items as [| item rest IH]; intros i prev r H; simpl in *;
    [ discriminate | ].
  destruct (nullish item); [ reflexivity | ]. now apply IH.
Qed.

Lemma nullish_spec item : nullish item = true <-> item = JNull \/ item = JUndefined.
Proof.
  destruct item; simpl; split; intros H; try discriminate; auto;
    destruct H; discriminate.
Qed.

Lemma checkEnds_warnings items r :
  warnings (checkEnds items r)
  = warnings r
    ++ match getProp (nth 0 items JUndefined) "Activity" with
       | JStr a => if String.eqb a "Warm-up" then [] else [startWarning a]
       | _ => []
       end
    ++ match getProp (nth (List.length items - 1) items JUndefined) "Activity" with
       | JStr a => if String.eqb a "Cool-down" then [] else [endWarning a]
       | _ => []
       end.
Proof.
  unfold checkEnds; cbv zeta.
  destruct (getProp (nth 0 items JUndefined) "Activity")
    as [| | ? | ? | first | ? | ?];
    destruct (getProp (nth (List.length items - 1) items JUndefined) "Activity")
      as [| | ? | ? | last | ? | ?];
    try destruct (String.eqb first "Warm-up");
    try destruct (String.eqb last "Cool-down");
    simpl; rewrite ?app_nil_r, <- ?app_assoc; reflexivity.
Qed.

End DetailsFacts.

(** X2. [validateWorkoutDetails] throws exactly on an array that holds
    [null] or [undefined]; on every other input it returns a report. *)
Theorem validateWorkoutDetails_throws_iff (P : Platform) data :
  (exists e, validateWorkoutDetails data = Thrown e)
  <-> exists items item,
        data = JArr items /\ In item items
        /\ (item = JNull \/ item = JUndefined).
Proof.
  split.
  - intros [e He].
    pose proof (validateWorkoutDetails_sound data) as Hs. rewrite He in Hs.
    destruct Hs as (items & -> & Hnull).
    apply existsb_exists in Hnull as (item & Hin & Hitem).
    exists items, item. repeat split; try assumption. now apply nullish_spec.
  - intros (items & item & -> & Hin & Hitem).
    assert (Hnull : existsb nullish items = true).
    { apply existsb_exists. exists item. split; [ exact Hin | ].
      now apply nullish_spec. }
    exists nullProperty. unfold validateWorkoutDetails.
    destruct items as [| first rest]; [ destruct Hin | ].
    unfold bind. now rewrite (segmentsLoop_throws _ 0 0 newResult Hnull).
Qed.

(** X3. A workout of a single segment cannot both start with a warm-up and
    end with a cool-down: when the [Activity] of the only element of the
    array is a string, the report warns about the start or about the end,
    and these warnings change neither its errors nor its validity. *)
Theorem single_segment_is_warned (P : Platform) item a :
  nullish item = false ->
  getProp item "Activity" = JStr a ->
  exists r,
    validateWorkoutDetails (JArr [item]) = Returned r
    /\ (In (startWarning a) (warnings r) \/ In (endWarning a) (warnings r))
    /\ errors r = errors (validateSegment item 0 0)
    /\ valid r = valid (validateSegment item 0 0).
Proof.
  intros Hnull Ha.
  unfold validateWorkoutDetails, bind. simpl segmentsLoop. rewrite Hnull.
  eexists. split; [ reflexivity | ].
  split; [ | split ].
  - rewrite checkEnds_warnings. simpl nth. rewrite Ha.
    destruct (String.eqb a "Warm-up") eqn:Hw.
    + apply String.eqb_eq in Hw; subst a. right.
      apply in_or_app; right. now left.
    + left. apply in_or_app; right. apply in_or_app; left. now left.
  - rewrite checkEnds_errors, absorb_errors. reflexivity.
  - apply sound_same_errors.
    + apply checkEnds_sound, absorb_sound;
        [ apply validateSegment_sound | apply sound_newResult ].
    + apply validateSegment_sound.
    + rewrite checkEnds_errors, absorb_errors. reflexivity.
Qed.

(** X3 on a single interval of the reference platform. *)
Lemma single_segment_witness :
  let P := Reference.platform in
  let item := segmentObject (Reference.segment 5 "Intervals" 10 90 5) in
  nullish item = false
  /\ getProp item "Activity" = JStr "Intervals"
  /\ exists r,
      validateWorkoutDetails (JArr [item]) = Returned r
      /\ (In (startWarning "Intervals") (warnings r)
          \/ In (endWarning "Intervals") (warnings r)).
Proof.
  intros P item. split; [ reflexivity | ]. split; [ reflexivity | ].
  destruct (@single_segment_is_warned P item "Intervals" eq_refl eq_refl)
    as (r & Hrun & Hwarn & _).
  exists r. split; [ exact Hrun | exact Hwarn ].
Defined.

(** ** The validators of lists *)

Section ListFacts.

Context {P : Platform}.

Variable validate : JsValue -> ValidationResult.
Variable kind : string.

Lemma prefixed_length p ms : List.length (prefixed p ms) = List.length ms.
Proof. apply length_map. Qed.

Lemma itemsLoop_valid items : forall i r,
  valid (itemsLoop validate kind items i r)
  = valid r && forallb (fun item => valid (validate item)) items.
Proof.
  induction items as [| item rest IH]; intros i r; simpl.
  - now rewrite andb_true_r.
  - rewrite IH. simpl. destruct (valid (validate item)); simpl.
    + reflexivity.
    + now rewrite andb_false_r.
Qed.

Lemma itemsLoop_count items : forall i r,
  List.length (errors (itemsLoop validate kind items i r))
  = (List.length (errors r)
     + list_sum (map (fun item => List.length (errors (validate item))) items))%nat.
Proof.
  induction items as [| item rest IH]; intros i r; simpl; [ lia | ].
  rewrite IH. simpl. rewrite length_app, prefixed_length.
  destruct (valid (validate item)); simpl; lia.
Qed.

(** The errors of the loop from the index [counter k]: those it started
    with, and the errors of each element under its index. *)
Lemma itemsLoop_errors items : forall k r e,
  In e (errors (itemsLoop validate kind items (counter k) r))
  <-> In e (errors r)
      \/ exists j item m,
           nth_error items j = Some item /\ In m (errors (validate item))
           /\ e = cat [cat [kind; " "; showNum (counter (k + j)); ": "]; m].
Proof.
  induction items as [| item rest IH]; intros k r e; simpl.
  - split; [ now left | ].
    intros [H | (j & it & m & Hnth & _)]; [ exact H | ].
    destruct j; discriminate.
  - change (counter k + 1)%float with (counter (S k)). rewrite IH. simpl.
    assert (Hbase : forall r0,
               errors (if negb (valid (validate item)) then setInvalid r0 else r0)
               = errors r0) by (intros r0; now destruct (valid (validate item))).
    rewrite Hbase, in_app_iff. unfold prefixed. rewrite in_map_iff.
    split.
    + intros [[H | (m & <- & Hm)] | (j & it & m & Hnth & Hm & ->)].
      * now left.
      * right. exists 0%nat, item, m. rewrite Nat.add_0_r. auto.
      * right. exists (S j), it, m.
        replace (k + S j)%nat with (S (k + j)) by lia.
        repeat split; assumption || reflexivity.
    + intros [H | (j & it & m & Hnth & Hm & ->)]; [ now left; left | ].
      destruct j as [| j]; simpl in Hnth.
      * injection Hnth as <-. left; right. exists m.
        rewrite Nat.add_0_r. auto.
      * right. exists j, it, m.
        replace (k + S j)%nat with (S (k + j)) by lia.
        repeat split; assumption || reflexivity.
Qed.

End ListFacts.

(** X4. [validateWorkoutsList] and [validateVideosList] on an array: the
    report is valid exactly when every element is valid for
    [validateWorkout] (or [validateVideo]); its errors are the errors of the
    elements, each under the index of its element, so as many as the
    elements have together; an empty array is valid, with one warning. *)
Theorem list_validators_aggregate (P : Platform) items :
  let workouts := validateWorkoutsList (JArr items) in
  let videos := validateVideosList (JArr items) in
  valid workouts = forallb (fun w => valid (validateWorkout w)) items
  /\ List.length (errors workouts)
     = list_sum (map (fun w => List.length (errors (validateWorkout w))) items)
  /\ (forall e,
         In e (errors workouts)
         <-> exists j w m,
               nth_error items j = Some w /\ In m (errors (validateWorkout w))
               /\ e = cat [cat ["Workout"; " "; showNum (counter j); ": "]; m])
  /\ valid videos = forallb (fun v => valid (validateVideo v)) items
  /\ List.length (errors videos)
     = list_sum (map (fun v => List.length (errors (validateVideo v))) items)
  /\ (forall e,
         In e (errors videos)
         <-> exists j v m,
               nth_error items j = Some v /\ In m (errors (validateVideo v))
               /\ e = cat [cat ["Video"; " "; showNum (counter j); ": "]; m])
  /\ validateWorkoutsList (JArr [])
     = mkResult true [] ["Workouts array is empty"]
  /\ validateVideosList (JArr []) = mkResult true [] ["Videos array is empty"].
Proof.
  intros workouts videos. subst workouts videos.
  unfold validateWorkoutsList, validateVideosList.
  assert (Hstart : forall w : string,
             valid (match items with
                    | [] => pushWarning w newResult
                    | _ :: _ => newResult
                    end) = true
             /\ errors (match items with
                        | [] => pushWarning w newResult
                        | _ :: _ => newResult
                        end) = [])
    by (intros w; destruct items; split; reflexivity).
  change 0%float with (counter 0).
  repeat split;
    try (rewrite itemsLoop_valid, (proj1 (Hstart _)); reflexivity);
    try (rewrite itemsLoop_count, (proj2 (Hstart _)); reflexivity).
  - intros H. apply itemsLoop_errors in H. rewrite (proj2 (Hstart _)) in H.
    destruct H as [[] | H]. exact H.
  - intros H. apply itemsLoop_errors. now right.
  - intros H. apply itemsLoop_errors in H. rewrite (proj2 (Hstart _)) in H.
    destruct H as [[] | H]. exact H.
  - intros H. apply itemsLoop_errors. now right.
Qed.

(** ** validateWorkout and validateVideo *)

Lemma trim_blank s : String.eqb (trim s) "" = blank s.
Proof.
  rewrite <- empty_or_trims_to_empty.
  destruct s; [ reflexivity | ]. reflexivity.
Qed.

Lemma appends_pushWarnings ws : appends (pushWarnings ws).
Proof. intros r; simpl; now rewrite app_nil_r, andb_true_r. Qed.

Lemma appends_invalid_pushErrors (b : bool) es :
  appends (fun r => if b then pushErrors es (setInvalid r) else r).
Proof.
  intros r; destruct b; simpl.
  - now rewrite app_nil_r, andb_false_r.
  - now rewrite !app_nil_r, andb_true_r.
Qed.

Section RecordFacts.

Context {P : Platform}.

Lemma checkTitle_appends o : appends (checkTitle o).
Proof.
  unfold checkTitle.
  destruct (getProp o "Title"); try apply appends_fail.
  destruct (String.eqb (trim s) ""); [ apply appends_fail | apply appends_id ].
Qed.

Lemma checkUrlField_appends o field label domains extra :
  (forall u, appends (extra u)) ->
  appends (checkUrlField o field label domains extra).
Proof.
  intros Hextra. unfold checkUrlField.
  destruct (getProp o field) as [| | ? | ? | u | ? | ?]; try apply appends_fail.
  cbv zeta.
  apply (appends_compose
           (f := fun r => pushWarnings
                            (prefixed label (warnings (validateUrl u (Some domains))))
                            (if negb (valid (validateUrl u (Some domains)))
                             then pushErrors
                                    (prefixed label
                                       (errors (validateUrl u (Some domains))))
                                    (setInvalid r)
                             else r))
           (g := extra u)); [ | apply Hextra ].
  apply (appends_compose
           (f := fun r => if negb (valid (validateUrl u (Some domains)))
                          then pushErrors
                                 (prefixed label
                                    (errors (validateUrl u (Some domains))))
                                 (setInvalid r)
                          else r)
           (g := pushWarnings
                   (prefixed label (warnings (validateUrl u (Some domains)))))).
  - apply appends_invalid_pushErrors.
  - apply appends_pushWarnings.
Qed.

(** The validity of a URL field: a string that [validateUrl] accepts for
    the domains, provided [extra] only warns. *)
Lemma checkUrlField_valid o field label domains extra :
  (forall u r, valid (extra u r) = valid r) ->
  valid (checkUrlField o field label domains extra newResult)
  = match getProp o field with
    | JStr u => valid (validateUrl u (Some domains))
    | _ => false
    end.
Proof.
  intros Hextra. unfold checkUrlField.
  destruct (getProp o field) as [| | ? | ? | u | ? | ?]; try reflexivity.
  cbv zeta. rewrite Hextra. simpl.
  now destruct (valid (validateUrl u (Some domains))).
Qed.

Lemma checkTitle_valid o :
  valid (checkTitle o newResult)
  = match getProp o "Title" with
    | JStr t => negb (blank t)
    | _ => false
    end.
Proof.
  unfold checkTitle.
  destruct (getProp o "Title") as [| | ? | ? | t | ? | ?]; try reflexivity.
  rewrite trim_blank. now destruct (blank t).
Qed.

End RecordFacts.

(** X5. [validateWorkout] finds a value valid exactly when it is an object
    whose [Title] is a string that is not blank, whose [Image] is a string
    that [validateUrl] accepts for the domains amazonaws.com, github.com
    and githubusercontent.com, and whose [Workout_URL] is a string that
    [validateUrl] accepts for github.com, githubusercontent.com and
    raw.githubusercontent.com. A [Workout_URL] without the extension .json
    is warned about and stays valid. *)
Theorem workout_valid_iff (P : Platform) w :
  valid (validateWorkout w) = true
  <-> notAnObject w = false
      /\ exists title image url,
           getProp w "Title" = JStr title /\ blank title = false
           /\ getProp w "Image" = JStr image
           /\ valid (validateUrl image
                       (Some ["amazonaws.com"; "github.com"; "githubusercontent.com"]))
              = true
           /\ getProp w "Workout_URL" = JStr url
           /\ valid (validateUrl url
                       (Some ["github.com"; "githubusercontent.com";
                              "raw.githubusercontent.com"]))
              = true.
Proof.
  unfold validateWorkout.
  destruct (notAnObject w); [ split; [ discriminate | intros [H _]; discriminate ] | ].
  cbv zeta.
  match goal with
  | |- valid (checkUrlField w ?f2 ?l2 ?d2 ?x2
                (checkUrlField w ?f1 ?l1 ?d1 ?x1 (checkTitle w newResult))) = true <-> _ =>
      assert (Hx2 : forall u, appends (x2 u))
        by (intros u; destruct (negb (String.eqb u "")
                                && negb (endsWith (toLowerCase u) ".json"));
            [ apply appends_pushWarning | apply appends_id ]);
      assert (Hv2 : forall u r, valid (x2 u r) = valid r)
        by (intros u r; simpl;
            now destruct (negb (String.eqb u "")
                          && negb (endsWith (toLowerCase u) ".json")));
      rewrite (proj2 (proj2 (@checkUrlField_appends P w f2 l2 d2 x2 Hx2 _)));
      rewrite (proj2 (proj2 (@checkUrlField_appends P w f1 l1 d1 x1
                               (fun u => appends_id) _)));
      rewrite (@checkUrlField_valid P w f2 l2 d2 x2 Hv2);
      rewrite (@checkUrlField_valid P w f1 l1 d1 x1 (fun _ _ => eq_refl))
  end.
  rewrite checkTitle_valid.
  destruct (getProp w "Title") as [| | ? | ? | title | ? | ?];
    try (split; [ discriminate | intros (_ & t & i & u & H & _); discriminate ]).
  destruct (getProp w "Image") as [| | ? | ? | image | ? | ?];
    try (rewrite andb_false_r; split;
         [ discriminate | intros (_ & t & i & u & _ & _ & H & _); discriminate ]).
  destruct (getProp w "Workout_URL") as [| | ? | ? | url | ? | ?];
    try (rewrite andb_false_r; split;
         [ discriminate
         | intros (_ & t & i & u & _ & _ & _ & _ & H & _); discriminate ]).
  rewrite !andb_true_iff, negb_true_iff. split.
  - intros [[Ht Hi] Hu]. split; [ reflexivity | ].
    exists title, image, url. repeat split; assumption.
  - intros (_ & t & i & u & Et & Ht & Ei & Hi & Eu & Hu).
    injection Et as <-. injection Ei as <-. injection Eu as <-. auto.
Qed.

(** X6. [validateVideo] finds a value valid exactly when it is an object
    whose [Title] is a string that is not blank, whose [Subtitle] is a
    string (it may be blank), whose [Image] is a string that [validateUrl]
    accepts for the domains amazonaws.com, github.com and
    githubusercontent.com, and whose [Video] is a string that [validateUrl]
    accepts for amazonaws.com. A [Video] without a known extension is
    warned about and stays valid. *)
Theorem video_valid_iff (P : Platform) v :
  valid (validateVideo v) = true
  <-> notAnObject v = false
      /\ exists title subtitle image video,
           getProp v "Title" = JStr title /\ blank title = false
           /\ getProp v "Subtitle" = JStr subtitle
           /\ getProp v "Image" = JStr image
           /\ valid (validateUrl image
                       (Some ["amazonaws.com"; "github.com"; "githubusercontent.com"]))
              = true
           /\ getProp v "Video" = JStr video
           /\ valid (validateUrl video (Some ["amazonaws.com"])) = true.
Proof.
  unfold validateVideo.
  destruct (notAnObject v); [ split; [ discriminate | intros [H _]; discriminate ] | ].
  cbv zeta.
  match goal with
  | |- valid (checkUrlField v ?f2 ?l2 ?d2 ?x2
                (checkUrlField v ?f1 ?l1 ?d1 ?x1 ?r0)) = true <-> _ =>
      assert (Hx2 : forall u, appends (x2 u))
        by (intros u; cbv beta zeta;
            destruct (negb (existsb (fun ext => endsWith (toLowerCase u) ext)
                                    videoExtensions));
            [ apply appends_pushWarning | apply appends_id ]);
      assert (Hv2 : forall u r, valid (x2 u r) = valid r)
        by (intros u r; cbv beta zeta;
            now destruct (negb (existsb (fun ext => endsWith (toLowerCase u) ext)
                                        videoExtensions)));
      rewrite (proj2 (proj2 (@checkUrlField_appends P v f2 l2 d2 x2 Hx2 _)));
      rewrite (proj2 (proj2 (@checkUrlField_appends P v f1 l1 d1 x1
                               (fun u => appends_id) _)));
      rewrite (@checkUrlField_valid P v f2 l2 d2 x2 Hv2);
      rewrite (@checkUrlField_valid P v f1 l1 d1 x1 (fun _ _ => eq_refl))
  end.
  assert (Hsub : valid (match getProp v "Subtitle" with
                        | JStr _ => checkTitle v newResult
                        | other =>
                            fail (cat ["Subtitle must be a string, got "; typeof other])
                                 (checkTitle v newResult)
                        end)
                 = valid (checkTitle v newResult)
                   && match getProp v "Subtitle" with
                      | JStr _ => true
                      | _ => false
                      end)
    by (destruct (getProp v "Subtitle"); simpl;
        rewrite ?andb_false_r, ?andb_true_r; reflexivity).
  rewrite Hsub, checkTitle_valid. clear Hsub.
  destruct (getProp v "Title") as [| | ? | ? | title | ? | ?];
    try (split; [ discriminate | intros (_ & t & s & i & u & H & _); discriminate ]).
  destruct (getProp v "Subtitle") as [| | ? | ? | subtitle | ? | ?];
    try (rewrite andb_false_r; split;
         [ discriminate
         | intros (_ & t & s & i & u & _ & _ & H & _); discriminate ]).
  destruct (getProp v "Image") as [| | ? | ? | image | ? | ?];
    try (rewrite andb_false_r; split;
         [ discriminate
         | intros (_ & t & s & i & u & _ & _ & _ & H & _); discriminate ]).
  destruct (getProp v "Video") as [| | ? | ? | video | ? | ?];
    try (rewrite andb_false_r; split;
         [ discriminate
         | intros (_ & t & s & i & u & _ & _ & _ & _ & _ & H & _); discriminate ]).
  rewrite !andb_true_iff, negb_true_iff. split.
  - intros [[[Ht _] Hi] Hu]. split; [ reflexivity | ].
    exists title, subtitle, image, video. repeat split; assumption.
  - intros (_ & t & s & i & u & Et & Ht & Es & Ei & Hi & Eu & Hu).
    injection Et as <-. injection Ei as <-. injection Eu as <-. auto.
Qed.

(** ** The other checks of validateSegment *)

Section MoreSegmentFacts.

Context {P : Platform}.

Lemma validateSegment_warnings s i prev :
  notAnObject s = false ->
  warnings (validateSegment s i prev)
  = warnings (checkTime s i newResult) ++ warnings (checkActivity s i newResult)
    ++ warnings (checkResistance s i newResult)
    ++ warnings (checkCadence s i newResult)
    ++ warnings (checkStroke s i newResult)
    ++ warnings (checkElapsed s i prev newResult).
Proof.
  intros Hobj; unfold validateSegment; rewrite Hobj; cbv zeta.
  rewrite (proj1 (proj2 (checkElapsed_appends s i prev _))),
    (proj1 (proj2 (checkStroke_appends s i _))),
    (proj1 (proj2 (checkCadence_appends s i _))),
    (proj1 (proj2 (checkResistance_appends s i _))),
    (proj1 (proj2 (checkActivity_appends s i _))).
  now rewrite <- !app_assoc.
Qed.

Ltac at_most :=
  repeat match goal with
         | |- context [match ?x with _ => _ end] => destruct x
         end;
  simpl; lia.

Lemma timeErrors_one s i : (List.length (timeErrors s i) <= 1)%nat.
Proof. unfold timeErrors, checkTime. at_most. Qed.

Lemma activityErrors_one s i : (List.length (activityErrors s i) <= 1)%nat.
Proof. unfold activityErrors, checkActivity. at_most. Qed.

Lemma resistanceErrors_one s i : (List.length (resistanceErrors s i) <= 1)%nat.
Proof. unfold resistanceErrors, checkResistance. at_most. Qed.

Lemma cadenceErrors_one s i : (List.length (cadenceErrors s i) <= 1)%nat.
Proof. unfold cadenceErrors, checkCadence. at_most. Qed.

Lemma strokeErrors_one s i : (List.length (strokeErrors s i) <= 1)%nat.
Proof. unfold strokeErrors, checkStroke. at_most. Qed.

Lemma elapsedErrors_one s i prev : (List.length (elapsedErrors s i prev) <= 1)%nat.
Proof. unfold elapsedErrors, checkElapsed. at_most. Qed.

Lemma checkTime_warnings_one s i :
  (List.length (warnings (checkTime s i newResult)) <= 1)%nat.
Proof. unfold checkTime. at_most. Qed.

Lemma checkActivity_warnings_one s i :
  (List.length (warnings (checkActivity s i newResult)) <= 1)%nat.
Proof. unfold checkActivity. at_most. Qed.

Lemma checkResistance_warnings_none s i :
  warnings (checkResistance s i newResult) = [].
Proof.
  unfold checkResistance.
  repeat match goal with
         | |- context [match ?x with _ => _ end] => destruct x
         end; reflexivity.
Qed.

Lemma checkCadence_warnings_none s i : warnings (checkCadence s i newResult) = [].
Proof.
  unfold checkCadence.
  repeat match goal with
         | |- context [match ?x with _ => _ end] => destruct x
         end; reflexivity.
Qed.

Lemma checkStroke_warnings_none s i : warnings (checkStroke s i newResult) = [].
Proof. unfold checkStroke. now destruct (getProp s "Stroke instruction"). Qed.

Lemma checkElapsed_warnings_one s i prev :
  (List.length (warnings (checkElapsed s i prev newResult)) <= 1)%nat.
Proof. unfold checkElapsed. at_most. Qed.

(** In the report of an object, the errors about a field are those of the
    check of the field. *)
Lemma cadence_errors_of_check s i prev m :
  notAnObject s = false ->
  In m (errors (validateSegment s i prev)) -> about i "Cadence" m ->
  In m (cadenceErrors s i).
Proof.
  intros Hobj Hin Habout. rewrite validateSegment_errors in Hin by assumption.
  repeat (apply in_app_or in Hin as [Hin | Hin]); try assumption.
  - apply timeErrors_about in Hin. discriminate (about_initial Hin Habout).
  - apply activityErrors_about in Hin. discriminate (about_initial Hin Habout).
  - apply resistanceErrors_about in Hin. discriminate (about_initial Hin Habout).
  - apply strokeErrors_about in Hin. discriminate (about_initial Hin Habout).
  - apply elapsedErrors_about in Hin. discriminate (about_initial Hin Habout).
Qed.

Lemma time_errors_of_check s i prev m :
  notAnObject s = false ->
  In m (errors (validateSegment s i prev)) -> about i "Time" m ->
  In m (timeErrors s i).
Proof.
  intros Hobj Hin Habout. rewrite validateSegment_errors in Hin by assumption.
  repeat (apply in_app_or in Hin as [Hin | Hin]); try assumption.
  - apply activityErrors_about in Hin. discriminate (about_initial Hin Habout).
  - apply resistanceErrors_about in Hin. discriminate (about_initial Hin Habout).
  - apply cadenceErrors_about in Hin. discriminate (about_initial Hin Habout).
  - apply strokeErrors_about in Hin. discriminate (about_initial Hin Habout).
  - apply elapsedErrors_about in Hin. discriminate (about_initial Hin Habout).
Qed.

Lemma cadenceErrors_in_report s i prev m :
  notAnObject s = false ->
  In m (cadenceErrors s i) -> In m (errors (validateSegment s i prev)).
Proof.
  intros Hobj Hin. rewrite validateSegment_errors by assumption.
  do 3 (apply in_or_app; right). apply in_or_app; now left.
Qed.

Lemma timeErrors_in_report s i prev m :
  notAnObject s = false ->
  In m (timeErrors s i) -> In m (errors (validateSegment s i prev)).
Proof.
  intros Hobj Hin. rewrite validateSegment_errors by assumption.
  apply in_or_app; now left.
Qed.

End MoreSegmentFacts.

(** X7. [validateSegment] reports at most one error for each of the six
    fields and at most one warning for each of [Time], [Activity] and
    [Elapsed Time]: at most six errors and three warnings. For a value that
    is no object it reports one error, and no warning. *)
Theorem segment_report_is_bounded (P : Platform) s i prev :
  let report := validateSegment s i prev in
  (List.length (errors report) <= 6)%nat
  /\ (List.length (warnings report) <= 3)%nat
  /\ (notAnObject s = true ->
      report
      = mkResult false [cat [segLabel i; " must be an object, got "; typeof s]] []).
Proof.
  intros report. subst report.
  destruct (notAnObject s) eqn:Hobj.
  - unfold validateSegment. rewrite Hobj. simpl.
    repeat split; lia || reflexivity.
  - rewrite validateSegment_errors, validateSegment_warnings by assumption.
    rewrite !length_app, checkResistance_warnings_none, checkCadence_warnings_none,
      checkStroke_warnings_none.
    pose proof (timeErrors_one s i). pose proof (activityErrors_one s i).
    pose proof (resistanceErrors_one s i). pose proof (cadenceErrors_one s i).
    pose proof (strokeErrors_one s i). pose proof (elapsedErrors_one s i prev).
    pose proof (checkTime_warnings_one s i).
    pose proof (checkActivity_warnings_one s i).
    pose proof (checkElapsed_warnings_one s i prev).
    simpl. repeat split; lia || discriminate.
Qed.

(** X8. For a segment object whose [Cadence] is a finite number [c], the
    report of [validateSegment] holds an error about [Cadence] exactly when
    [c < 30] or [c > 150], and it is then invalid. *)
Theorem cadence_checked_in_30_150 (P : Platform) seg idx prev c :
  notAnObject seg = false ->
  getProp seg "Cadence" = JNum c ->
  isFinite c = true ->
  let report := validateSegment seg idx prev in
  ((exists m, In m (errors report) /\ about idx "Cadence" m)
   <-> (c <? 30)%float = true \/ (150 <? c)%float = true)
  /\ ((c <? 30)%float = true \/ (150 <? c)%float = true -> valid report = false).
Proof.
  intros Hobj Hc Hfin report. subst report.
  assert (Hown : cadenceErrors seg idx = []
                 <-> ~ ((c <? 30)%float = true \/ (150 <? c)%float = true)).
  { unfold cadenceErrors, checkCadence. rewrite Hc, Hfin. simpl.
    unfold CONSTRAINTS.minCadence, CONSTRAINTS.maxCadence.
    destruct (c <? 30)%float; [ split; [ discriminate | intros H; destruct H; auto ] | ].
    destruct (150 <? c)%float; [ split; [ discriminate | intros H; destruct H; auto ] | ].
    split; [ intros _ [H | H]; discriminate | reflexivity ]. }
  split; [ split | ].
  - intros (m & Hin & Habout).
    pose proof (cadence_errors_of_check _ _ Hobj Hin Habout) as Hm.
    destruct (c <? 30)%float; [ now left | ].
    destruct (150 <? c)%float; [ now right | ].
    rewrite (proj2 Hown) in Hm; [ destruct Hm | intros [H | H]; discriminate ].
  - intros Hout.
    destruct (cadenceErrors seg idx) as [| m rest] eqn:He.
    + now apply Hown in Hout.
    + exists m. split.
      * apply cadenceErrors_in_report; [ assumption | rewrite He; now left ].
      * apply (cadenceErrors_about seg). rewrite He. now left.
  - intros Hout.
    pose proof (validateSegment_sound seg idx prev) as Hs. apply Hs.
    destruct (cadenceErrors seg idx) as [| m rest] eqn:He.
    + now apply Hown in Hout.
    + intros Hnil.
      assert (Hin : In m (errors (validateSegment seg idx prev)))
        by (apply cadenceErrors_in_report; [ assumption | rewrite He; now left ]).
      rewrite Hnil in Hin. destruct Hin.
Qed.

(** X8 on a segment of the reference platform whose cadence is 20. *)
Lemma cadence_checked_witness :
  let P := Reference.platform in
  let seg := segmentObject (Reference.segment 5 "Recovery" 5 20 5) in
  notAnObject seg = false /\ getProp seg "Cadence" = JNum 20
  /\ isFinite 20 = true
  /\ valid (validateSegment seg 0 0) = false.
Proof.
  intros P seg.
  split; [ reflexivity | ]. split; [ reflexivity | ]. split; [ reflexivity | ].
  apply (proj2 (@cadence_checked_in_30_150 P seg 0%float 0%float 20%float
                  eq_refl eq_refl eq_refl)).
  now left.
Defined.

(** X9. For a segment object whose [Time] is a finite number [t], the
    report of [validateSegment] holds an error about [Time] exactly when
    [t < 1]. A [Time] above 60 is warned about and is no error: the [Time]
    check then leaves the report valid. *)
Theorem time_checked_from_1 (P : Platform) seg idx prev t :
  notAnObject seg = false ->
  getProp seg "Time" = JNum t ->
  isFinite t = true ->
  let report := validateSegment seg idx prev in
  ((exists m, In m (errors report) /\ about idx "Time" m) <-> (t <? 1)%float = true)
  /\ ((t <? 1)%float = false -> (60 <? t)%float = true ->
      checkTime seg idx newResult
      = mkResult true []
          [cat [segLabel idx; ": Time "; showNum t; " exceeds typical maximum ";
                showNum CONSTRAINTS.maxTime]]
      /\ exists w, In w (warnings report)
                   /\ w = cat [segLabel idx; ": Time "; showNum t;
                               " exceeds typical maximum ";
                               showNum CONSTRAINTS.maxTime]).
Proof.
  intros Hobj Ht Hfin report. subst report.
  assert (Hown : timeErrors seg idx
                 = if (t <? 1)%float
                   then [cat [segLabel idx; ": Time "; showNum t;
                              " is less than minimum "; showNum CONSTRAINTS.minTime]]
                   else []).
  { unfold timeErrors, checkTime. rewrite Ht, Hfin. simpl.
    unfold CONSTRAINTS.minTime, CONSTRAINTS.maxTime.
    destruct (t <? 1)%float; [ reflexivity | ].
    destruct (60 <? t)%float; reflexivity. }
  split; [ split | ].
  - intros (m & Hin & Habout).
    pose proof (time_errors_of_check _ _ Hobj Hin Habout) as Hm.
    rewrite Hown in Hm. destruct (t <? 1)%float; [ reflexivity | destruct Hm ].
  - intros Hlow. rewrite Hlow in Hown. eexists. split.
    + apply timeErrors_in_report; [ assumption | rewrite Hown; now left ].
    + apply (timeErrors_about seg idx). rewrite Hown. now left.
  - intros Hlow Hhigh.
    assert (Hcheck : checkTime seg idx newResult
                     = mkResult true []
                         [cat [segLabel idx; ": Time "; showNum t;
                               " exceeds typical maximum ";
                               showNum CONSTRAINTS.maxTime]]).
    { unfold checkTime. rewrite Ht, Hfin. simpl.
      unfold CONSTRAINTS.minTime, CONSTRAINTS.maxTime. now rewrite Hlow, Hhigh. }
    split; [ exact Hcheck | ].
    eexists. split; [ | reflexivity ].
    rewrite validateSegment_warnings by assumption. rewrite Hcheck.
    apply in_or_app; left. now left.
Qed.

(** X9 on a segment of the reference platform that lasts 90 minutes. *)
Lemma time_checked_witness :
  let P := Reference.platform in
  let seg := segmentObject (Reference.segment 90 "Endurance" 5 80 90) in
  notAnObject seg = false /\ getProp seg "Time" = JNum 90 /\ isFinite 90 = true
  /\ ~ (exists m, In m (errors (validateSegment seg 0 0)) /\ about 0 "Time" m).
Proof.
  intros P seg.
  split; [ reflexivity | ]. split; [ reflexivity | ]. split; [ reflexivity | ].
  intros H.
  apply (proj1 (@time_checked_from_1 P seg 0%float 0%float 90%float
                  eq_refl eq_refl eq_refl)) in H.
  discriminate H.
Defined.

(** ** The assertion helpers against the validators *)

(** X10. [assertNumberInRange] returns [x] only for the finite number [x]
    that is neither below [min] nor above [max], and what it throws carries
    the field name and the value. With the bounds 1 and 20 it returns on
    the [Resistance] of a segment exactly when the Resistance check of
    [validateSegment] reports nothing, and with 30 and 150 on its [Cadence]
    exactly when the Cadence check reports nothing. *)
Theorem assertNumberInRange_agrees (P : Platform) seg i :
  (forall v fieldName min max x,
      assertNumberInRange v fieldName min max = Returned x ->
      v = JNum x /\ isFinite x = true
      /\ (x <? min)%float = false /\ (max <? x)%float = false)
  /\ (forall v fieldName min max e,
         assertNumberInRange v fieldName min max = Thrown e ->
         veField e = fieldName /\ veValue e = v)
  /\ ((exists x,
          assertNumberInRange (getProp seg "Resistance") "Resistance" 1 20
          = Returned x)
      <-> resistanceErrors seg i = [])
  /\ ((exists x,
          assertNumberInRange (getProp seg "Cadence") "Cadence" 30 150 = Returned x)
      <-> cadenceErrors seg i = []).
Proof.
  split.
  { intros v fieldName min max x. unfold assertNumberInRange.
    destruct v as [| | ? | y | ? | ? | ?]; try discriminate.
    destruct (isFinite y) eqn:Hfin; [ | discriminate ]. simpl.
    destruct (y <? min)%float eqn:Hlow; [ discriminate | ].
    destruct (max <? y)%float eqn:Hhigh; [ discriminate | ].
    intros H; injection H as <-. auto. }
  split.
  { intros v fieldName min max e. unfold assertNumberInRange.
    destruct v as [| | ? | y | ? | ? | ?];
      try (intros H; injection H as <-; split; reflexivity).
    destruct (isFinite y); simpl;
      [ | intros H; injection H as <-; split; reflexivity ].
    destruct ((y <? min)%float || (max <? y)%float);
      [ intros H; injection H as <-; split; reflexivity | discriminate ]. }
  split.
  - unfold resistanceErrors, checkResistance, assertNumberInRange,
      CONSTRAINTS.minResistance, CONSTRAINTS.maxResistance.
    destruct (getProp seg "Resistance") as [| | ? | y | ? | ? | ?];
      try (split; [ intros [x H]; discriminate | discriminate ]).
    destruct (isFinite y); simpl;
      [ | split; [ intros [x H]; discriminate | discriminate ] ].
    destruct (y <? 1)%float; simpl;
      [ split; [ intros [x H]; discriminate | discriminate ] | ].
    destruct (20 <? y)%float; simpl;
      [ split; [ intros [x H]; discriminate | discriminate ] | ].
    split; [ reflexivity | eauto ].
  - unfold cadenceErrors, checkCadence, assertNumberInRange,
      CONSTRAINTS.minCadence, CONSTRAINTS.maxCadence.
    destruct (getProp seg "Cadence") as [| | ? | y | ? | ? | ?];
      try (split; [ intros [x H]; discriminate | discriminate ]).
    destruct (isFinite y); simpl;
      [ | split; [ intros [x H]; discriminate | discriminate ] ].
    destruct (y <? 30)%float; simpl;
      [ split; [ intros [x H]; discriminate | discriminate ] | ].
    destruct (150 <? y)%float; simpl;
      [ split; [ intros [x H]; discriminate | discriminate ] | ].
    split; [ reflexivity | eauto ].
Qed.

(** X11. [assertNonEmptyString] returns [x] only for the string [x] that is
    not blank; on the [Title] of a value it returns exactly when the Title
    check of [validateWorkout] and [validateVideo] leaves the report valid.
    [assertDefined] returns its argument unless it is [null] or
    [undefined]; [validateWorkoutDetails] returns a report on an array
    exactly when [assertDefined] returns on every element. *)
Theorem assert_string_and_defined_agree (P : Platform) :
  (forall v fieldName x,
      assertNonEmptyString v fieldName = Returned x -> v = JStr x /\ blank x = false)
  /\ (forall o,
         (exists x, assertNonEmptyString (getProp o "Title") "Title" = Returned x)
         <-> valid (checkTitle o newResult) = true)
  /\ (forall v fieldName,
         assertDefined v fieldName = Returned v
         \/ ((v = JNull \/ v = JUndefined)
             /\ exists e, assertDefined v fieldName = Thrown e
                          /\ veField e = fieldName))
  /\ (forall items fieldName,
         (exists r, validateWorkoutDetails (JArr items) = Returned r)
         <-> Forall (fun item => assertDefined item fieldName = Returned item) items).
Proof.
  split.
  { intros v fieldName x. unfold assertNonEmptyString.
    destruct v as [| | ? | ? | y | ? | ?]; try discriminate.
    rewrite trim_blank. destruct (blank y) eqn:Hb; [ discriminate | ].
    intros H; injection H as <-. auto. }
  split.
  { intros o. rewrite checkTitle_valid. unfold assertNonEmptyString.
    destruct (getProp o "Title") as [| | ? | ? | y | ? | ?];
      try (split; [ intros [x H]; discriminate | discriminate ]).
    rewrite trim_blank. destruct (blank y); simpl.
    - split; [ intros [x H]; discriminate | discriminate ].
    - split; [ reflexivity | eauto ]. }
  split.
  { intros v fieldName. destruct v; simpl; auto; right; (split; [ auto | ]);
      eexists; split; reflexivity. }
  intros items fieldName. split.
  - intros [r Hr].
    assert (Hnull : existsb nullish items = false).
    { destruct (existsb nullish items) eqn:E; [ | reflexivity ].
      assert (Hthrow : exists e, validateWorkoutDetails (JArr items) = Thrown e).
      { exists nullProperty. unfold validateWorkoutDetails.
        destruct items as [| first rest]; [ discriminate | ].
        unfold bind. now rewrite (segmentsLoop_throws _ 0 0 newResult E). }
      destruct Hthrow as [e He]. congruence. }
    clear Hr. induction items as [| item rest IH]; constructor.
    + simpl in Hnull. apply orb_false_iff in Hnull as [Hitem _].
      destruct item; try reflexivity; discriminate.
    + apply IH. simpl in Hnull. now apply orb_false_iff in Hnull as [_ H].
  - intros Hall.
    assert (Hnull : existsb nullish items = false).
    { induction Hall as [| item rest Hitem _ IH]; simpl; [ reflexivity | ].
      rewrite IH, orb_false_r. destruct item; try reflexivity; discriminate. }
    destruct items as [| first rest]; [ simpl; eauto | ].
    destruct (@validateWorkoutDetails_returns P (first :: rest)) as (r & Hr & _);
      [ discriminate | exact Hnull | eauto ].
Qed.

(** ** loadWorkouts and loadVideos *)

Section CatalogueFacts.

Context {P : Platform}.

Section GatherFacts.

Variable A : Type.
Variable body : float -> JsValue -> outcome DataLoadError A.
Variable shaped : JsValue -> A -> Prop.
Hypothesis body_returns : forall i item a, body i item = Returned a <-> shaped item a.

Lemma gather_returns items : forall i loaded,
  gather body items i = Returned loaded <-> Forall2 shaped items loaded.
Proof.
  induction items as [| item rest IH]; intros i loaded; simpl.
  - split.
    + intros H; injection H as <-. constructor.
    + intros H; inversion H; reflexivity.
  - unfold bind. destruct (body i item) as [a | e] eqn:Hbody.
    + destruct (gather body rest (i + 1)%float) as [others | e] eqn:Hrest.
      * split.
        -- intros H; injection H as <-. constructor.
           ++ now apply (proj1 (body_returns i _ _)).
           ++ now apply (proj1 (IH (i + 1)%float _)).
        -- intros H; inversion H as [| ? a' ? others' Ha Hothers]; subst.
           apply (proj2 (body_returns i _ _)) in Ha.
           apply (proj2 (IH (i + 1)%float _)) in Hothers. congruence.
      * split; [ discriminate | ].
        intros H; inversion H as [| ? a' ? others' Ha Hothers]; subst.
        apply (proj2 (IH (i + 1)%float _)) in Hothers. congruence.
    + split; [ discriminate | ].
      intros H; inversion H as [| ? a' ? others' Ha Hothers]; subst.
      apply (proj2 (body_returns i _ _)) in Ha. congruence.
Qed.

(** The loop stops at the first element [body] refuses, with the error
    [body] throws under the index of that element. *)
Lemma gather_first_failure good loaded bad rest e : forall k,
  Forall2 shaped good loaded ->
  body (counter (k + List.length good)) bad = Thrown e ->
  gather body (good ++ bad :: rest) (counter k) = Thrown e.
Proof.
  intros k Hgood. revert k.
  induction Hgood as [| item a good loaded Hitem _ IH]; intros k Hbad; simpl in *.
  - rewrite Nat.add_0_r in Hbad. unfold bind. now rewrite Hbad.
  - unfold bind.
    rewrite (proj2 (body_returns (counter k) _ _) Hitem).
    change (counter k + 1)%float with (counter (S k)).
    rewrite IH; [ reflexivity | ].
    now replace (S k + List.length good)%nat with (k + S (List.length good))%nat by lia.
Qed.

Lemma gather_thrown (Q : DataLoadError -> Prop) items :
  (forall i item e, body i item = Thrown e -> Q e) ->
  forall i e, gather body items i = Thrown e -> Q e.
Proof.
  intros Hbody. induction items as [| item rest IH]; intros i e; simpl.
  - discriminate.
  - unfold bind. destruct (body i item) as [a | e'] eqn:Hitem.
    + destruct (gather body rest (i + 1)%float) as [others | e'] eqn:Hrest.
      * discriminate.
      * intros H; injection H as <-. eapply IH, Hrest.
    + intros H; injection H as <-. eapply Hbody, Hitem.
Qed.

End GatherFacts.

Lemma loadWorkout_returns path i item w :
  loadWorkout path i item = Returned w <-> workoutShaped item w.
Proof.
  unfold loadWorkout, workoutShaped.
  destruct (notAnObject item); [ split; [ discriminate | intros [H _]; discriminate ] | ].
  destruct (getProp item "Title") as [| | ? | ? | title | ? | ?];
    try (split; [ discriminate | intros (_ & H & _); discriminate ]).
  destruct (getProp item "Image") as [| | ? | ? | image | ? | ?];
    try (split; [ discriminate | intros (_ & _ & H & _); discriminate ]).
  destruct (getProp item "Workout_URL") as [| | ? | ? | url | ? | ?];
    try (split; [ discriminate | intros (_ & _ & _ & H); discriminate ]).
  destruct w as [t im u]; simpl. split.
  - intros H; injection H as <- <- <-. auto.
  - intros (_ & Ht & Hi & Hu). congruence.
Qed.

Lemma loadVideo_returns path i item v :
  loadVideo path i item = Returned v <-> videoShaped item v.
Proof.
  unfold loadVideo, videoShaped.
  destruct (notAnObject item); [ split; [ discriminate | intros [H _]; discriminate ] | ].
  destruct (getProp item "Title") as [| | ? | ? | title | ? | ?];
    try (split; [ discriminate | intros (_ & H & _); discriminate ]).
  destruct (getProp item "Subtitle") as [| | ? | ? | subtitle | ? | ?];
    try (split; [ discriminate | intros (_ & _ & H & _); discriminate ]).
  destruct (getProp item "Image") as [| | ? | ? | image | ? | ?];
    try (split; [ discriminate | intros (_ & _ & _ & H & _); discriminate ]).
  destruct (getProp item "Video") as [| | ? | ? | video | ? | ?];
    try (split; [ discriminate | intros (_ & _ & _ & _ & H); discriminate ]).
  destruct v as [t s im vd]; simpl. split.
  - intros H; injection H as <- <- <- <-. auto.
  - intros (_ & Ht & Hs & Hi & Hv). congruence.
Qed.

Lemma loadWorkout_thrown path i item e :
  loadWorkout path i item = Thrown e -> filePath e = path /\ leCause e = None.
Proof.
  unfold loadWorkout.
  destruct (notAnObject item); [ intros H; injection H as <-; auto | ].
  destruct (getProp item "Title"); try (intros H; injection H as <-; auto).
  destruct (getProp item "Image"); try (intros H; injection H as <-; auto).
  destruct (getProp item "Workout_URL"); try (intros H; injection H as <-; auto).
  discriminate.
Qed.

Lemma loadVideo_thrown path i item e :
  loadVideo path i item = Thrown e -> filePath e = path /\ leCause e = None.
Proof.
  unfold loadVideo.
  destruct (notAnObject item); [ intros H; injection H as <-; auto | ].
  destruct (getProp item "Title"); try (intros H; injection H as <-; auto).
  destruct (getProp item "Subtitle"); try (intros H; injection H as <-; auto).
  destruct (getProp item "Image"); try (intros H; injection H as <-; auto).
  destruct (getProp item "Video"); try (intros H; injection H as <-; auto).
  discriminate.
Qed.

Lemma workoutObject_shaped w : workoutShaped (workoutObject w) w.
Proof. destruct w; repeat split. Qed.

Lemma videoObject_shaped v : videoShaped (videoObject v) v.
Proof. destruct v; repeat split. Qed.

(** What [validateWorkout] finds valid has the shape of a workout. *)
Lemma valid_workout_shaped item :
  valid (validateWorkout item) = true -> exists w, workoutShaped item w.
Proof.
  unfold validateWorkout, workoutShaped.
  destruct (notAnObject item); [ discriminate | ].
  cbv zeta.
  match goal with
  | |- valid (checkUrlField item ?f2 ?l2 ?d2 ?x2
                (checkUrlField item ?f1 ?l1 ?d1 ?x1 (checkTitle item newResult))) = true
       -> _ =>
      assert (Hx2 : forall u, appends (x2 u))
        by (intros u; destruct (negb (String.eqb u "")
                                && negb (endsWith (toLowerCase u) ".json"));
            [ apply appends_pushWarning | apply appends_id ]);
      assert (Hv2 : forall u r, valid (x2 u r) = valid r)
        by (intros u r; simpl;
            now destruct (negb (String.eqb u "")
                          && negb (endsWith (toLowerCase u) ".json")));
      rewrite (proj2 (proj2 (@checkUrlField_appends P item f2 l2 d2 x2 Hx2 _)));
      rewrite (proj2 (proj2 (@checkUrlField_appends P item f1 l1 d1 x1
                               (fun u => appends_id) _)));
      rewrite (@checkUrlField_valid P item f2 l2 d2 x2 Hv2);
      rewrite (@checkUrlField_valid P item f1 l1 d1 x1 (fun _ _ => eq_refl))
  end.
  rewrite checkTitle_valid.
  destruct (getProp item "Title") as [| | ? | ? | title | ? | ?]; try discriminate.
  destruct (getProp item "Image") as [| | ? | ? | image | ? | ?];
    try (rewrite andb_false_r; discriminate).
  destruct (getProp item "Workout_URL") as [| | ? | ? | url | ? | ?];
    try (rewrite andb_false_r; discriminate).
  intros _. exists (mkWorkout title image url). auto.
Qed.

Lemma valid_video_shaped item :
  valid (validateVideo item) = true -> exists v, videoShaped item v.
Proof.
  unfold validateVideo, videoShaped.
  destruct (notAnObject item); [ discriminate | ].
  cbv zeta.
  match goal with
  | |- valid (checkUrlField item ?f2 ?l2 ?d2 ?x2
                (checkUrlField item ?f1 ?l1 ?d1 ?x1 ?r0)) = true -> _ =>
      assert (Hx2 : forall u, appends (x2 u))
        by (intros u; cbv beta zeta;
            destruct (negb (existsb (fun ext => endsWith (toLowerCase u) ext)
                                    videoExtensions));
            [ apply appends_pushWarning | apply appends_id ]);
      assert (Hv2 : forall u r, valid (x2 u r) = valid r)
        by (intros u r; cbv beta zeta;
            now destruct (negb (existsb (fun ext => endsWith (toLowerCase u) ext)
                                        videoExtensions)));
      rewrite (proj2 (proj2 (@checkUrlField_appends P item f2 l2 d2 x2 Hx2 _)));
      rewrite (proj2 (proj2 (@checkUrlField_appends P item f1 l1 d1 x1
                               (fun u => appends_id) _)));
      rewrite (@checkUrlField_valid P item f2 l2 d2 x2 Hv2);
      rewrite (@checkUrlField_valid P item f1 l1 d1 x1 (fun _ _ => eq_refl))
  end.
  assert (Hsub : valid (match getProp item "Subtitle" with
                        | JStr _ => checkTitle item newResult
                        | other =>
                            fail (cat ["Subtitle must be a string, got "; typeof other])
                                 (checkTitle item newResult)
                        end)
                 = valid (checkTitle item newResult)
                   && match getProp item "Subtitle" with
                      | JStr _ => true
                      | _ => false
                      end)
    by (destruct (getProp item "Subtitle"); simpl;
        rewrite ?andb_false_r, ?andb_true_r; reflexivity).
  rewrite Hsub, checkTitle_valid. clear Hsub.
  destruct (getProp item "Title") as [| | ? | ? | title | ? | ?]; try discriminate.
  destruct (getProp item "Subtitle") as [| | ? | ? | subtitle | ? | ?];
    try (rewrite andb_false_r; discriminate).
  destruct (getProp item "Image") as [| | ? | ? | image | ? | ?];
    try (rewrite andb_false_r; discriminate).
  destruct (getProp item "Video") as [| | ? | ? | video | ? | ?];
    try (rewrite andb_false_r; discriminate).
  intros _. exists (mkVideo title subtitle image video). auto.
Qed.

Lemma all_shaped (A : Type) (accepts : JsValue -> bool) (shaped : JsValue -> A -> Prop)
      items :
  (forall item, accepts item = true -> exists a, shaped item a) ->
  forallb accepts items = true -> exists loaded, Forall2 shaped items loaded.
Proof.
  intros Hone. induction items as [| item rest IH]; simpl.
  - exists []. constructor.
  - intros H. apply andb_true_iff in H as [Hitem Hrest].
    destruct (Hone _ Hitem) as [a Ha]. destruct (IH Hrest) as [loaded Hloaded].
    exists (a :: loaded). now constructor.
Qed.

Lemma Forall2_map_left (A : Type) (shaped : JsValue -> A -> Prop) (object : A -> JsValue)
      loaded :
  (forall a, shaped (object a) a) -> Forall2 shaped (map object loaded) loaded.
Proof. intros H. induction loaded; simpl; constructor; auto. Qed.

End CatalogueFacts.

(** X12. [loadWorkouts], on the parsed content of the file: it returns the
    workouts [ws] exactly when the content is an array whose elements are
    objects with the strings of [ws] as [Title], [Image] and [Workout_URL],
    one for one and in order (other fields are dropped). So it reads back
    the objects of any list of workouts, the empty one included, and it
    loads every array that [validateWorkoutsList] finds valid. *)
Theorem loadWorkouts_returns_iff (P : Platform) path data ws :
  (loadWorkoutsOf path data = Returned ws
   <-> exists items, data = JArr items /\ Forall2 workoutShaped items ws)
  /\ loadWorkoutsOf path (JArr (map workoutObject ws)) = Returned ws
  /\ (valid (validateWorkoutsList data) = true ->
      exists loaded, loadWorkoutsOf path data = Returned loaded).
Proof.
  split; [ | split ].
  - destruct data as [| | ? | ? | ? | items | ?];
      try (split; [ discriminate | intros (items & H & _); discriminate ]).
    simpl. rewrite (@gather_returns _ _ _ (@loadWorkout_returns P path)). split.
    + intros H. now exists items.
    + intros (items' & E & H). now injection E as ->.
  - simpl. apply (@gather_returns _ _ _ (@loadWorkout_returns P path)).
    apply (@Forall2_map_left _ workoutShaped workoutObject ws workoutObject_shaped).
  - destruct data as [| | ? | ? | ? | items | ?]; try discriminate.
    unfold validateWorkoutsList. rewrite itemsLoop_valid. intros H.
    apply andb_true_iff in H as [_ H].
    destruct (@all_shaped _ _ workoutShaped items (@valid_workout_shaped P) H)
      as [loaded Hloaded].
    exists loaded. simpl. now apply (@gather_returns _ _ _ (@loadWorkout_returns P path)).
Qed.

(** X13. [loadVideos], on the parsed content of the file: it returns the
    videos [vs] exactly when the content is an array whose elements are
    objects with the strings of [vs] as [Title], [Subtitle], [Image] and
    [Video], one for one and in order. So it reads back the objects of any
    list of videos, and it loads every array that [validateVideosList]
    finds valid. *)
Theorem loadVideos_returns_iff (P : Platform) path data vs :
  (loadVideosOf path data = Returned vs
   <-> exists items, data = JArr items /\ Forall2 videoShaped items vs)
  /\ loadVideosOf path (JArr (map videoObject vs)) = Returned vs
  /\ (valid (validateVideosList data) = true ->
      exists loaded, loadVideosOf path data = Returned loaded).
Proof.
  split; [ | split ].
  - destruct data as [| | ? | ? | ? | items | ?];
      try (split; [ discriminate | intros (items & H & _); discriminate ]).
    simpl. rewrite (@gather_returns _ _ _ (@loadVideo_returns P path)). split.
    + intros H. now exists items.
    + intros (items' & E & H). now injection E as ->.
  - simpl. apply (@gather_returns _ _ _ (@loadVideo_returns P path)).
    apply (@Forall2_map_left _ videoShaped videoObject vs videoObject_shaped).
  - destruct data as [| | ? | ? | ? | items | ?]; try discriminate.
    unfold validateVideosList. rewrite itemsLoop_valid. intros H.
    apply andb_true_iff in H as [_ H].
    destruct (@all_shaped _ _ videoShaped items (@valid_video_shaped P) H)
      as [loaded Hloaded].
    exists loaded. simpl. now apply (@gather_returns _ _ _ (@loadVideo_returns P path)).
Qed.

(** X14. [loadWorkouts] stops at the first element that is not an object
    with the three strings: when the file parses to an array whose elements
    before it are good, the error thrown is the one of that element. It
    carries the path as given and no cause, and its message starts with the
    index of the element. The elements after it are not looked at. *)
Theorem loadWorkouts_first_bad_element (P : Platform) fs path good ws bad rest :
  loadJsonFile fs path = Returned (JArr (good ++ bad :: rest)) ->
  Forall2 workoutShaped good ws ->
  (forall w, ~ workoutShaped bad w) ->
  exists e tail,
    loadWorkouts fs (Some path) = Thrown e
    /\ filePath e = path /\ leCause e = None
    /\ leMessage e
       = cat ["Workout at index "; showNum (counter (List.length good)); tail].
Proof.
  intros Hfile Hgood Hbad.
  assert (Hthrown : exists e tail,
             loadWorkout path (counter (List.length good)) bad = Thrown e
             /\ filePath e = path /\ leCause e = None
             /\ leMessage e
                = cat ["Workout at index "; showNum (counter (List.length good)); tail]).
  { pose proof (@loadWorkout_returns P path (counter (List.length good)) bad) as Hret.
    unfold loadWorkout in *.
    destruct (notAnObject bad);
      [ eexists; exists " is not an object"; repeat split; reflexivity | ].
    destruct (getProp bad "Title") as [| | ? | ? | title | ? | ?];
      try (eexists;
           exists " is missing required field 'Title' or it is not a string";
           repeat split; reflexivity).
    destruct (getProp bad "Image") as [| | ? | ? | image | ? | ?];
      try (eexists;
           exists (cat [cat [" ("; title; ")"]; " is missing required field '";
                        "Image"; "' or it is not a string"]);
           repeat split; reflexivity).
    destruct (getProp bad "Workout_URL") as [| | ? | ? | url | ? | ?];
      try (eexists;
           exists (cat [cat [" ("; title; ")"]; " is missing required field '";
                        "Workout_URL"; "' or it is not a string"]);
           repeat split; reflexivity).
    exfalso. apply (Hbad (mkWorkout title image url)). now apply Hret. }
  destruct Hthrown as (e & tail & Hbody & Hpath & Hcause & Hmessage).
  exists e, tail. repeat split; try assumption.
  unfold loadWorkouts, bind. rewrite Hfile. simpl.
  apply (@gather_first_failure _ _ _ (@loadWorkout_returns P path)
                               good ws bad rest e 0 Hgood Hbody).
Qed.

(** X14 on the sample file: the second element has a title only. *)
Lemma loadWorkouts_first_bad_element_witness :
  let P := Sample.platform in
  exists e,
    loadWorkouts Sample.fs (Some "/data/workouts.json") = Thrown e
    /\ filePath e = "/data/workouts.json"
    /\ exists tail, leMessage e = cat ["Workout at index "; "1"; tail].
Proof.
  intros P.
  destruct (@loadWorkouts_first_bad_element
              P Sample.fs "/data/workouts.json"
              (map workoutObject Sample.workouts) Sample.workouts
              Sample.titleOnly [])
    as (e & tail & Hthrown & Hpath & _ & Hmessage).
  - reflexivity.
  - repeat constructor.
  - intros w (_ & _ & H & _). discriminate H.
  - exists e. split; [ exact Hthrown | ]. split; [ exact Hpath | ].
    exists tail. exact Hmessage.
Defined.

(** X15. [loadVideos] stops at the first element that is not an object
    with the four strings, with the error of that element: it carries the
    path as given and no cause, and its message starts with the index of
    the element. *)
Theorem loadVideos_first_bad_element (P : Platform) fs path good vs bad rest :
  loadJsonFile fs path = Returned (JArr (good ++ bad :: rest)) ->
  Forall2 videoShaped good vs ->
  (forall v, ~ videoShaped bad v) ->
  exists e tail,
    loadVideos fs (Some path) = Thrown e
    /\ filePath e = path /\ leCause e = None
    /\ leMessage e
       = cat ["Video at index "; showNum (counter (List.length good)); tail].
Proof.
  intros Hfile Hgood Hbad.
  assert (Hthrown : exists e tail,
             loadVideo path (counter (List.length good)) bad = Thrown e
             /\ filePath e = path /\ leCause e = None
             /\ leMessage e
                = cat ["Video at index "; showNum (counter (List.length good)); tail]).
  { pose proof (@loadVideo_returns P path (counter (List.length good)) bad) as Hret.
    unfold loadVideo in *.
    destruct (notAnObject bad);
      [ eexists; exists " is not an object"; repeat split; reflexivity | ].
    destruct (getProp bad "Title") as [| | ? | ? | title | ? | ?];
      try (eexists;
           exists " is missing required field 'Title' or it is not a string";
           repeat split; reflexivity).
    destruct (getProp bad "Subtitle") as [| | ? | ? | subtitle | ? | ?];
      try (eexists;
           exists (cat [cat [" ("; title; ")"]; " is missing required field '";
                        "Subtitle"; "' or it is not a string"]);
           repeat split; reflexivity).
    destruct (getProp bad "Image") as [| | ? | ? | image | ? | ?];
      try (eexists;
           exists (cat [cat [" ("; title; ")"]; " is missing required field '";
                        "Image"; "' or it is not a string"]);
           repeat split; reflexivity).
    destruct (getProp bad "Video") as [| | ? | ? | video | ? | ?];
      try (eexists;
           exists (cat [cat [" ("; title; ")"]; " is missing required field '";
                        "Video"; "' or it is not a string"]);
           repeat split; reflexivity).
    exfalso. apply (Hbad (mkVideo title subtitle image video)). now apply Hret. }
  destruct Hthrown as (e & tail & Hbody & Hpath & Hcause & Hmessage).
  exists e, tail. repeat split; try assumption.
  unfold loadVideos, bind. rewrite Hfile. simpl.
  apply (@gather_first_failure _ _ _ (@loadVideo_returns P path)
                               good vs bad rest e 0 Hgood Hbody).
Qed.

(** X15 on the sample file: the second element has a title only. *)
Lemma loadVideos_first_bad_element_witness :
  let P := Sample.platform in
  exists e,
    loadVideos Sample.fs (Some "/data/videos.json") = Thrown e
    /\ filePath e = "/data/videos.json"
    /\ exists tail, leMessage e = cat ["Video at index "; "1"; tail].
Proof.
  intros P.
  destruct (@loadVideos_first_bad_element
              P Sample.fs "/data/videos.json"
              (map videoObject Sample.videos) Sample.videos
              Sample.titleOnly [])
    as (e & tail & Hthrown & Hpath & _ & Hmessage).
  - reflexivity.
  - repeat constructor.
  - intros v (_ & _ & H & _). discriminate H.
  - exists e. split; [ exact Hthrown | ]. split; [ exact Hpath | ].
    exists tail. exact Hmessage.
Defined.

(** ** The schedule of fetchWithRetry *)

Section BackoffFacts.

Variable net : Network.
Variable url : string.
Variable timeout retries delay : Z.

(** [k] attempts that fail and are retried, from the attempt [a] on: the
    loop goes through them, waiting after each, and goes on from the
    attempt [a + k]. *)
Lemma loop_backoff k : forall fuel a last,
  (a + Z.of_nat k <= retries)%Z ->
  (forall j, (a <= j < a + Z.of_nat k)%Z -> retriableFailure (net j) = true) ->
  exists last',
    retryLoop net url timeout retries delay (k + S fuel) a last
    = (fst (retryLoop net url timeout retries delay (S fuel) (a + Z.of_nat k) last'),
       backoff url timeout delay a k
       ++ snd (retryLoop net url timeout retries delay (S fuel) (a + Z.of_nat k) last')).
Proof.
  induction k as [| k IH]; intros fuel a last Hk Hfail.
  - exists last. rewrite Z.add_0_r. change (0 + S fuel)%nat with (S fuel).
    generalize (retryLoop net url timeout retries delay (S fuel) a last).
    intros [r t]. reflexivity.
  - change (S k + S fuel)%nat with (S (k + S fuel)).
    rewrite loop_step by lia.
    destruct (@retriable_attempt net url a) as (e & Hrun & Hretry);
      [ apply Hfail; lia | ].
    rewrite Hrun, Hretry.
    destruct (IH fuel (a + 1)%Z (Some e)) as (last' & Hloop);
      [ lia | intros j Hj; apply Hfail; lia | ].
    exists last'. rewrite Hloop.
    assert (Hlt : (a <? retries)%Z = true) by (apply Z.ltb_lt; lia).
    rewrite Hlt.
    replace (a + Z.of_nat (S k))%Z with (a + 1 + Z.of_nat k)%Z by lia.
    cbn [fst snd backoff app]. reflexivity.
Qed.

Lemma waited_backoff k : forall from,
  (0 <= from)%Z ->
  waited (backoff url timeout delay from k)
  = (delay * 2 ^ from * (2 ^ Z.of_nat k - 1))%Z.
Proof.
  induction k as [| k IH]; intros from Hfrom.
  - cbn [backoff waited Z.of_nat]. rewrite Z.pow_0_r. ring.
  - cbn [backoff waited]. rewrite IH by lia.
    rewrite Nat2Z.inj_succ, Z.pow_succ_r, (Z.pow_add_r 2 from 1) by lia.
    change (2 ^ 1)%Z with 2%Z. ring.
Qed.

End BackoffFacts.

(** X16. The schedule of [fetchWithRetry] on a URL it accepts: when the
    first [k] attempts fail in a way that is retried, each is followed by a
    wait of the delay doubled as often as there were attempts before, and
    the attempt [k] is made. If it is answered 2xx and its body is read,
    the body is returned and nothing more is tried; if it is the last one
    allowed and fails as well, there is no wait after it. The waits add up
    to the delay times [2 ^ k - 1]. *)
Theorem fetchWithRetry_backoff (P : Platform) net url config (k : nat) :
  let timeout := orDefault (timeoutMs config) DEFAULT_FETCH_CONFIG.timeoutMs in
  let tries := orDefault (retries config) DEFAULT_FETCH_CONFIG.retries in
  let delay := orDefault (retryDelayMs config) DEFAULT_FETCH_CONFIG.retryDelayMs in
  fetchable_url url ->
  (Z.of_nat k <= tries)%Z ->
  (forall j, (0 <= j < Z.of_nat k)%Z -> retriableFailure (net j) = true) ->
  (forall status statusText body,
      net (Z.of_nat k) = Response status statusText (Returned body) ->
      ok status = true ->
      fetchWithRetry net url config
      = (Returned body, backoff url timeout delay 0 k ++ [Fetch url timeout]))
  /\ (retriableFailure (net (Z.of_nat k)) = true ->
      Z.of_nat k = tries ->
      snd (fetchWithRetry net url config)
      = backoff url timeout delay 0 k ++ [Fetch url timeout])
  /\ waited (backoff url timeout delay 0 k) = (delay * (2 ^ Z.of_nat k - 1))%Z.
Proof.
  intros timeout tries delay Hurl Hk Hfail.
  destruct (fetchWithRetry_cases net url config)
    as [(Hbad & _) | (_ & Hrun)]; [ contradiction | ].
  fold timeout tries delay in Hrun.
  assert (Hfuel : Z.to_nat (tries + 1) = (k + S (Z.to_nat (tries - Z.of_nat k)))%nat)
    by lia.
  rewrite Hfuel in Hrun.
  destruct (@loop_backoff net url timeout tries delay k
                          (Z.to_nat (tries - Z.of_nat k)) 0%Z None)
    as (last' & Hloop); [ lia | intros j Hj; apply Hfail; lia | ].
  rewrite Hloop in Hrun. clear Hloop. rewrite Z.add_0_l in Hrun.
  rewrite loop_step in Hrun by lia.
  split; [ | split ].
  - intros status statusText body Hnet Hok.
    unfold attemptOnce in Hrun. rewrite Hnet, Hok in Hrun. exact Hrun.
  - intros Hlast Hend.
    destruct (@retriable_attempt net url (Z.of_nat k) Hlast) as (e & Hattempt & Hretry).
    rewrite Hattempt, Hretry in Hrun. rewrite Hrun. simpl snd.
    assert (Hlt : (Z.of_nat k <? tries)%Z = false) by (apply Z.ltb_ge; lia).
    rewrite Hlt, loop_stop by lia. reflexivity.
  - rewrite waited_backoff by lia. ring.
Qed.

(** X16 on a server that is out of reach twice and then answers, with the
    default configuration: one and two seconds are waited. *)
Lemma fetchWithRetry_backoff_witness :
  let P := Reference.platform in
  let net : Network :=
    fun attempt => if (attempt <? 2)%Z then Rejected "fetch failed"
                   else Response 200 "OK" (Returned "[]") in
  let url := "https://raw.githubusercontent.com/rides/hill.json" in
  fetchWithRetry net url (mkConfig None None None)
  = (Returned "[]",
     [ Fetch url 30000; Sleep 1000; Fetch url 30000; Sleep 2000; Fetch url 30000 ]).
Proof.
  intros P net url.
  assert (Hurl : fetchable_url url) by (eexists; split; reflexivity).
  assert (Hk : (Z.of_nat 2
                <= orDefault (retries (mkConfig None None None))
                             DEFAULT_FETCH_CONFIG.retries)%Z)
    by (simpl; unfold DEFAULT_FETCH_CONFIG.retries; lia).
  assert (Hfail : forall j, (0 <= j < Z.of_nat 2)%Z -> retriableFailure (net j) = true).
  { intros j Hj. unfold net.
    assert (Hlt : (j <? 2)%Z = true) by (apply Z.ltb_lt; lia).
    now rewrite Hlt. }
  exact (proj1 (@fetchWithRetry_backoff P net url (mkConfig None None None) 2
                  Hurl Hk Hfail)
               200%Z "OK" "[]" eq_refl eq_refl).
Defined.

(** ** fetchWorkoutDetails *)

Section FetchDetailsFacts.

Context {P : Platform}.

Lemma collect_thrown (body : float -> JsValue -> outcome DataLoadError WorkoutSegment)
      (Q : DataLoadError -> Prop) items :
  (forall i item e, body i item = Thrown e -> Q e) ->
  forall i e, collect body items i = Thrown e -> Q e.
Proof.
  intros Hbody. induction items as [| item rest IH]; intros i e; simpl.
  - discriminate.
  - unfold bind. destruct (body i item) as [a | e'] eqn:Hitem.
    + destruct (collect body rest (i + 1)%float) as [others | e'] eqn:Hrest.
      * discriminate.
      * intros H; injection H as <-. eapply IH, Hrest.
    + intros H; injection H as <-. eapply Hbody, Hitem.
Qed.

Lemma fetchSegment_thrown url i item e :
  fetchSegment url i item = Thrown e -> filePath e = url /\ leCause e = None.
Proof.
  unfold fetchSegment, bind.
  destruct (notAnObject item); [ intros H; injection H as <-; auto | ].
  destruct (getProp item "Time") as [| | ? | t | ? | ? | ?];
    try (intros H; injection H as <-; auto).
  destruct (t <=? 0)%float; [ intros H; injection H as <-; auto | ].
  destruct (getProp item "Activity"); try (intros H; injection H as <-; auto).
  destruct (getProp item "Resistance"); try (intros H; injection H as <-; auto).
  destruct (getProp item "Cadence"); try (intros H; injection H as <-; auto).
  destruct (getProp item "Stroke instruction");
    try (intros H; injection H as <-; auto).
  destruct (getProp item "Elapsed Time"); try (intros H; injection H as <-; auto).
  discriminate.
Qed.

Lemma fetchWorkoutDetailsOf_thrown url data e :
  fetchWorkoutDetailsOf url data = Thrown e -> filePath e = url /\ leCause e = None.
Proof.
  destruct data as [| | ? | ? | ? | items | ?];
    try (intros H; injection H as <-; auto).
  simpl. apply (@collect_thrown (fetchSegment url)
                                (fun e => filePath e = url /\ leCause e = None)).
  intros i item e'. apply fetchSegment_thrown.
Qed.

End FetchDetailsFacts.

(** X17. [fetchWorkoutDetails] makes the attempts of [fetchWithRetry] and
    no other. It fails with the [NetworkError] of [fetchWithRetry] exactly
    when that throws one; a [DataLoadError] comes only after a body was
    fetched, and names the URL; and segments are returned only when the
    body fetched parses to an array that passes the checks. *)
Theorem fetchWorkoutDetails_outcomes (P : Platform) net url config :
  let fetched := fetchWithRetry net url config in
  let result := fetchWorkoutDetails net url config in
  snd result = snd fetched
  /\ (forall e, fst result = Thrown (ByNetwork e) <-> fst fetched = Thrown e)
  /\ (forall e,
         fst result = Thrown (ByLoad e) ->
         filePath e = url /\ exists content, fst fetched = Returned content)
  /\ (forall segments,
         fst result = Returned segments
         <-> exists content data,
               fst fetched = Returned content
               /\ JSON_parse content = Returned data
               /\ fetchWorkoutDetailsOf url data = Returned segments).
Proof.
  intros fetched result. subst fetched result. unfold fetchWorkoutDetails.
  destruct (fetchWithRetry net url config) as [[content | error] trace]; simpl.
  - destruct (JSON_parse content) as [data | m] eqn:Hparse; simpl.
    + destruct (fetchWorkoutDetailsOf url data) as [segments | e'] eqn:Hdata; simpl.
      * split; [ reflexivity | ].
        split; [ intros e; split; discriminate | ].
        split; [ discriminate | ].
        intros segments'. split.
        -- intros H; injection H as <-. now exists content, data.
        -- intros (content' & data' & Hc & Hp & Hd).
           injection Hc as <-. congruence.
      * split; [ reflexivity | ].
        split; [ intros e; split; discriminate | ].
        split.
        -- intros e H; injection H as <-.
           split; [ now apply (fetchWorkoutDetailsOf_thrown _ _ Hdata) | eauto ].
        -- intros segments. split; [ discriminate | ].
           intros (content' & data' & Hc & Hp & Hd).
           injection Hc as <-. congruence.
    + split; [ reflexivity | ].
      split; [ intros e; split; discriminate | ].
      split.
      * intros e H; injection H as <-. split; [ reflexivity | eauto ].
      * intros segments. split; [ discriminate | ].
        intros (content' & data' & Hc & Hp & Hd).
        injection Hc as <-. congruence.
  - split; [ reflexivity | ].
    split; [ intros e; split; intros H; injection H as <-; reflexivity | ].
    split; [ discriminate | ].
    intros segments. split; [ discriminate | ].
    intros (content' & data' & Hc & _). discriminate.
Qed.

(** X18. A file served as it is: when [loadWorkoutDetails] returns the
    segments of a file, and the first attempt on a URL that
    [fetchWithRetry] accepts is answered 2xx with the content of that file,
    [fetchWorkoutDetails] returns the same segments after that one
    attempt. *)
Theorem served_file_fetches_as_loaded (P : Platform) fs path net url config
        status statusText content segments :
  let timeout := orDefault (timeoutMs config) DEFAULT_FETCH_CONFIG.timeoutMs in
  let tries := orDefault (retries config) DEFAULT_FETCH_CONFIG.retries in
  fetchable_url url ->
  (0 <= tries)%Z ->
  entryAt fs (absolute fs path) = Regular content ->
  loadWorkoutDetails fs path = Returned segments ->
  net 0%Z = Response status statusText (Returned content) ->
  ok status = true ->
  fetchWorkoutDetails net url config = (Returned segments, [Fetch url timeout]).
Proof.
  intros timeout tries Hurl Htries Hfile Hload Hnet Hok.
  assert (Hfetch : fetchWithRetry net url config
                   = (Returned content, [Fetch url timeout])).
  { destruct (fetchWithRetry_cases net url config)
      as [(Hbad & _) | (_ & ->)]; [ contradiction | ].
    fold timeout tries.
    replace (Z.to_nat (tries + 1)) with (S (Z.to_nat tries)) by lia.
    rewrite loop_step by lia. unfold attemptOnce. now rewrite Hnet, Hok. }
  unfold fetchWorkoutDetails. rewrite Hfetch.
  unfold loadWorkoutDetails, loadJsonFile, bind in Hload. rewrite Hfile in Hload.
  destruct (String.eqb (trim content) ""); [ discriminate | ].
  destruct (JSON_parse content) as [data | m]; [ | discriminate ].
  destruct data as [| | ? | ? | ? | items | ?]; try discriminate.
  destruct items as [| item rest]; [ discriminate | ].
  unfold loadWorkoutDetailsOf in Hload. unfold fetchWorkoutDetailsOf.
  now rewrite (collect_load_then_fetch path url _ _ Hload).
Qed.

(** X18 on the reference timeline, served with the code 200. *)
Lemma served_file_witness :
  let P := Reference.platform in
  let content := Reference.stringify (JArr (map segmentObject Reference.timeline)) in
  let net : Network := fun _ => Response 200 "OK" (Returned content) in
  let url := "https://raw.githubusercontent.com/rides/timeline.json" in
  loadWorkoutDetails Reference.fs "/data/timeline.json" = Returned Reference.timeline
  /\ fetchWorkoutDetails net url (mkConfig None None None)
     = (Returned Reference.timeline, [Fetch url 30000]).
Proof.
  intros P content net url.
  assert (Hload : loadWorkoutDetails Reference.fs "/data/timeline.json"
                  = Returned Reference.timeline) by reflexivity.
  split; [ exact Hload | ].
  apply (@served_file_fetches_as_loaded
           P Reference.fs "/data/timeline.json" net url (mkConfig None None None)
           200%Z "OK" content Reference.timeline).
  - eexists; split; reflexivity.
  - simpl; unfold DEFAULT_FETCH_CONFIG.retries; lia.
  - reflexivity.
  - exact Hload.
  - reflexivity.
  - reflexivity.
Defined.

(** ** getSegmentAtIndex and getCurrentSegment *)

Lemma scan_position segments m s :
  scan segments m = Some s ->
  exists i,
    nth_error segments i = Some s
    /\ (m <=? Elapsed_Time s)%float = true
    /\ forall j earlier,
         (j < i)%nat -> nth_error segments j = Some earlier ->
         (m <=? Elapsed_Time earlier)%float = false.
Proof.
  induction segments as [| first rest IH]; simpl; [ discriminate | ].
  destruct (m <=? Elapsed_Time first)%float eqn:Hfirst.
  - intros H; injection H as <-. exists 0%nat.
    split; [ reflexivity | ]. split; [ exact Hfirst | ]. intros j earlier Hj. lia.
  - intros H. destruct (IH H) as (i & Hnth & Hle & Hbefore).
    exists (S i). split; [ exact Hnth | ]. split; [ exact Hle | ].
    intros [| j] earlier Hj Hearlier; simpl in Hearlier.
    + now injection Hearlier as <-.
    + apply (Hbefore j); [ lia | exact Hearlier ].
Qed.

Lemma getSegmentAtIndex_at segments i s :
  nth_error segments i = Some s ->
  getSegmentAtIndex segments (Z.of_nat i) = Returned (Some s).
Proof.
  intros Hnth. unfold getSegmentAtIndex.
  assert (Hi : (i < List.length segments)%nat)
    by (apply nth_error_Some; congruence).
  assert (Hlow : (Z.of_nat i <? 0)%Z = false) by (apply Z.ltb_ge; lia).
  assert (Hhigh : (Z.of_nat (List.length segments) <=? Z.of_nat i)%Z = false)
    by (apply Z.leb_gt; lia).
  now rewrite Hlow, Hhigh, Nat2Z.id, Hnth.
Qed.

(** X19. [getSegmentAtIndex], for an integer index: it returns a segment
    exactly when the index is at least 0 and below the length, and it never
    returns [undefined]; otherwise it throws an error named after "memory".
    A segment that [getCurrentSegment] returns stands at an index that
    [getSegmentAtIndex] accepts, and for a time that is not negative it is
    the first whose elapsed time the time does not exceed. For a time that
    is not a number, [getCurrentSegment] returns null. *)
Theorem getSegmentAtIndex_bounds segments index :
  ((0 <= index < Z.of_nat (List.length segments))%Z
   <-> exists s, getSegmentAtIndex segments index = Returned (Some s))
  /\ getSegmentAtIndex segments index <> Returned None
  /\ (forall e,
         getSegmentAtIndex segments index = Thrown e ->
         filePath e = "memory"
         /\ (index < 0 \/ Z.of_nat (List.length segments) <= index)%Z)
  /\ (forall m s,
         getCurrentSegment segments m = Some s ->
         exists i,
           getSegmentAtIndex segments (Z.of_nat i) = Returned (Some s)
           /\ ((m <? 0)%float = false ->
               (m <=? Elapsed_Time s)%float = true
               /\ forall j earlier,
                    (j < i)%nat ->
                    getSegmentAtIndex segments (Z.of_nat j) = Returned (Some earlier) ->
                    (m <=? Elapsed_Time earlier)%float = false))
  /\ getCurrentSegment segments nan = None.
Proof.
  assert (Hcases :
            ((index <? 0)%Z || (Z.of_nat (List.length segments) <=? index)%Z = true
             /\ (index < 0 \/ Z.of_nat (List.length segments) <= index)%Z)
            \/ ((index <? 0)%Z || (Z.of_nat (List.length segments) <=? index)%Z = false
                /\ (0 <= index < Z.of_nat (List.length segments))%Z)).
  { destruct (index <? 0)%Z eqn:Hlow; [ left; split; [ reflexivity | lia ] | ].
    destruct (Z.of_nat (List.length segments) <=? index)%Z eqn:Hhigh;
      [ left; split; [ reflexivity | lia ] | right; split; [ reflexivity | lia ] ]. }
  assert (Hin : (0 <= index < Z.of_nat (List.length segments))%Z ->
                exists s, nth_error segments (Z.to_nat index) = Some s).
  { intros Hindex.
    destruct (nth_error segments (Z.to_nat index)) as [s |] eqn:Hnth; [ eauto | ].
    apply nth_error_None in Hnth. lia. }
  split; [ | split; [ | split; [ | split ] ] ].
  - unfold getSegmentAtIndex.
    destruct Hcases as [[-> Hout] | [-> Hindex]].
    + split; [ lia | intros [s H]; discriminate ].
    + split; [ | trivial ]. intros _. destruct (Hin Hindex) as [s ->]. eauto.
  - unfold getSegmentAtIndex.
    destruct Hcases as [[-> Hout] | [-> Hindex]]; [ discriminate | ].
    destruct (Hin Hindex) as [s ->]. discriminate.
  - intros e. unfold getSegmentAtIndex.
    destruct Hcases as [[-> Hout] | [-> Hindex]]; [ | discriminate ].
    intros H; injection H as <-. split; [ reflexivity | exact Hout ].
  - intros m s. unfold getCurrentSegment.
    destruct segments as [| first rest]; [ discriminate | ].
    cbn [List.length Nat.eqb].
    destruct (m <? 0)%float.
    + intros H. exists 0%nat. split; [ | discriminate ].
      now apply getSegmentAtIndex_at.
    + intros H. destruct (scan_position _ _ H) as (i & Hnth & Hle & Hbefore).
      exists i. split; [ now apply getSegmentAtIndex_at | ].
      intros _. split; [ exact Hle | ].
      intros j earlier Hj Hat. apply (Hbefore j earlier Hj).
      destruct (nth_error (first :: rest) j) as [s' |] eqn:Hj'.
      * rewrite (getSegmentAtIndex_at _ _ Hj') in Hat. congruence.
      * apply nth_error_None in Hj'.
        assert (i < List.length (first :: rest))%nat
          by (apply nth_error_Some; congruence).
        lia.
  - unfold getCurrentSegment.
    destruct segments as [| first rest]; [ reflexivity | ].
    cbn [List.length Nat.eqb].
    assert (Hneg : (nan <? 0)%float = false) by reflexivity.
    rewrite Hneg. generalize (first :: rest). intros l.
    induction l as [| s l IH]; simpl; [ reflexivity | ].
    rewrite leb_spec. exact IH.
Qed.

(** ** loadJsonFile under the three loaders *)

Section FileFacts.

Context {P : Platform}.

Lemma loadSegment_thrown path i item e :
  loadSegment path i item = Thrown e -> filePath e = path /\ leCause e = None.
Proof.
  rewrite loadSegment_defect. destruct (defect item) as [d |]; [ | discriminate ].
  intros H; injection H as <-. destruct d; split; reflexivity.
Qed.

Lemma loadWorkoutDetailsOf_thrown path data e :
  loadWorkoutDetailsOf path data = Thrown e -> filePath e = path /\ leCause e = None.
Proof.
  destruct data as [| | ? | ? | ? | items | ?];
    try (intros H; injection H as <-; auto).
  destruct items as [| item rest]; [ intros H; injection H as <-; auto | ].
  unfold loadWorkoutDetailsOf.
  apply (@collect_thrown (loadSegment path)
                         (fun e => filePath e = path /\ leCause e = None)).
  intros i it e'. apply loadSegment_thrown.
Qed.

Lemma loadWorkoutsOf_thrown path data e :
  loadWorkoutsOf path data = Thrown e -> filePath e = path /\ leCause e = None.
Proof.
  destruct data as [| | ? | ? | ? | items | ?];
    try (intros H; injection H as <-; auto).
  simpl. apply (@gather_thrown _ (loadWorkout path)
                               (fun e => filePath e = path /\ leCause e = None)).
  intros i it e'. apply loadWorkout_thrown.
Qed.

Lemma loadVideosOf_thrown path data e :
  loadVideosOf path data = Thrown e -> filePath e = path /\ leCause e = None.
Proof.
  destruct data as [| | ? | ? | ? | items | ?];
    try (intros H; injection H as <-; auto).
  simpl. apply (@gather_thrown _ (loadVideo path)
                               (fun e => filePath e = path /\ leCause e = None)).
  intros i it e'. apply loadVideo_thrown.
Qed.

End FileFacts.

(** X20. [loadJsonFile] returns a value exactly when the path, made
    absolute, holds a regular file whose content is not blank and parses,
    and the value is what the content parses to. An error it throws names
    the absolute path, and [loadWorkouts], [loadVideos] and
    [loadWorkoutDetails] throw that same error. The errors these three
    throw once the file was read name the path as it was given, and have no
    cause. *)
Theorem loadJsonFile_cases (P : Platform) fs path :
  (forall v,
      loadJsonFile fs path = Returned v
      <-> exists content,
            entryAt fs (absolute fs path) = Regular content
            /\ blank content = false /\ JSON_parse content = Returned v)
  /\ (forall e,
         loadJsonFile fs path = Thrown e ->
         filePath e = absolute fs path
         /\ loadWorkouts fs (Some path) = Thrown e
         /\ loadVideos fs (Some path) = Thrown e
         /\ loadWorkoutDetails fs path = Thrown e)
  /\ (forall data e,
         loadJsonFile fs path = Returned data ->
         loadWorkouts fs (Some path) = Thrown e
         \/ loadVideos fs (Some path) = Thrown e
         \/ loadWorkoutDetails fs path = Thrown e ->
         filePath e = path /\ leCause e = None).
Proof.
  split; [ | split ].
  - intros v. unfold loadJsonFile.
    destruct (entryAt fs (absolute fs path)) as [| | m | content];
      try (split; [ discriminate | intros (c & H & _); discriminate ]).
    rewrite trim_blank. destruct (blank content) eqn:Hblank.
    + split; [ discriminate | ].
      intros (c & H & Hb & _). injection H as <-. congruence.
    + destruct (JSON_parse content) as [data | m] eqn:Hparse.
      * split.
        -- intros H; injection H as <-. now exists content.
        -- intros (c & H & _ & Hp). injection H as <-. congruence.
      * split; [ discriminate | ].
        intros (c & H & _ & Hp). injection H as <-. congruence.
  - intros e He. split.
    + unfold loadJsonFile in He.
      destruct (entryAt fs (absolute fs path)) as [| | m | content];
        try (injection He as <-; reflexivity).
      destruct (String.eqb (trim content) ""); [ injection He as <-; reflexivity | ].
      destruct (JSON_parse content); [ discriminate | injection He as <-; reflexivity ].
    + unfold loadWorkouts, loadVideos, loadWorkoutDetails, bind.
      now rewrite He.
  - intros data e Hdata. unfold loadWorkouts, loadVideos, loadWorkoutDetails, bind.
    rewrite Hdata. intros [H | [H | H]].
    + now apply (loadWorkoutsOf_thrown _ _ H).
    + now apply (loadVideosOf_thrown _ _ H).
    + now apply (loadWorkoutDetailsOf_thrown _ _ H).
Qed.

(** ** validate-data.ts *)

Section ReportFacts.

Context {P : Platform}.






End ReportFacts.


